(** * bot-cerdas: the auto-reply rule store, its matcher, its persistence and
    its slash commands

    A shallow embedding of [main.go] (the per-server variant of the bot):
    [containsWholeWord], [loadAutoReplies], [saveAutoReplies],
    [addAutoReply], [removeAutoReply], [messageCreate] and the handlers of the
    slash commands, together with the parts of Go's [unicode/utf8],
    [unicode], [strings] and [encoding/json] packages these functions call.

    Modelling decisions.
    - A Go [string] is a sequence of bytes and is modelled as a Rocq [string].
      The functions of package [strings] read it as UTF-8 where Go does: the
      white space of [Fields] and [TrimSpace] is that of [unicode.IsSpace],
      and [ToLower] and [EqualFold] map and fold every rune. What they read
      from the case tables of package [unicode] is a parameter
      ([Unicode.Tables]): the tables differ between the releases of Go, and
      the theorems hold for all of them. Closed examples are run with
      [sampleTables], which holds some entries of Go's tables.
    - [map[string][]AutoReply] is a [gmap] from strings to slices; a slice is
      [option (list AutoReply)], where [None] is Go's [nil] slice, so that
      the tests [== nil] of the source and JSON's [null] keep their meaning.
    - The package-level variable [serverAutoReplies], the file
      [auto_replies.json] and the calls sent to Discord are the fields of a
      [World] record that every operation passes along; the failures of the
      operating system and of the network are read from an [Env]. *)

From Stdlib Require Import Ascii NArith.
From stdpp Require Import gmap strings list fin_maps sorting pretty.

(** ** Package [unicode/utf8] of the Go standard library *)

Module Utf8.

Local Open Scope N_scope.

Definition RuneError : N := 65533. (* U+FFFD *)
Definition RuneSelf : N := 128.
Definition MaxRune : N := 1114111. (* U+10FFFF *)

(** The value of a byte, and the byte of a value below 256. *)
Definition byte (c : ascii) : N := N_of_ascii c.
Definition chr (n : N) : ascii := ascii_of_N n.

(** [lo <= c && c <= hi] *)
Definition within (lo hi : N) (c : ascii) : bool :=
  (lo <=? byte c) && (byte c <=? hi).

(** A continuation byte: [locb <= c && c <= hicb]. *)
Definition continuation (c : ascii) : bool := within 128 191 c.

(** What the table [first] says of the first byte of a sequence, with the
    entry of [acceptRanges] it points to: the byte is a rune by itself
    ([as]), it starts no sequence ([xx]), or it starts a sequence of [size]
    bytes whose second byte lies between [lo] and [hi]. *)
Inductive leading :=
| Single
| Invalid
| Sequence (size : nat) (lo hi : N).

Definition first (c : ascii) : leading :=
  let b := byte c in
  if b <? 128 then Single                  (* 0x00-0x7F *)
  else if b <? 194 then Invalid            (* 0x80-0xC1 *)
  else if b <? 224 then Sequence 2 128 191 (* 0xC2-0xDF *)
  else if b =? 224 then Sequence 3 160 191 (* 0xE0 *)
  else if b =? 237 then Sequence 3 128 159 (* 0xED *)
  else if b <? 240 then Sequence 3 128 191 (* 0xE1-0xEC, 0xEE-0xEF *)
  else if b =? 240 then Sequence 4 144 191 (* 0xF0 *)
  else if b <? 244 then Sequence 4 128 191 (* 0xF1-0xF3 *)
  else if b =? 244 then Sequence 4 128 143 (* 0xF4 *)
  else Invalid.                            (* 0xF5-0xFF *)

(** [rune(s0&mask2)<<6 | rune(s1&maskx)] and its like for three and four
    bytes. *)
Definition rune2 (s0 s1 : ascii) : N :=
  N.lor (N.shiftl (N.land (byte s0) 31) 6) (N.land (byte s1) 63).

Definition rune3 (s0 s1 s2 : ascii) : N :=
  N.lor (N.shiftl (N.land (byte s0) 15) 12)
    (N.lor (N.shiftl (N.land (byte s1) 63) 6) (N.land (byte s2) 63)).

Definition rune4 (s0 s1 s2 s3 : ascii) : N :=
  N.lor (N.shiftl (N.land (byte s0) 7) 18)
    (N.lor (N.shiftl (N.land (byte s1) 63) 12)
       (N.lor (N.shiftl (N.land (byte s2) 63) 6) (N.land (byte s3) 63))).

(** [DecodeRuneInString]: the first rune of a text that is not empty, with
    the bytes it is read from (the size is their number) and the text behind
    them. A byte that starts no well-formed sequence is read as [RuneError]
    of size 1. *)
Definition DecodeRuneInString (s : string) : option (N * string * string) :=
  match s with
  | EmptyString => None
  | String s0 t1 =>
      let invalid := Some (RuneError, String s0 EmptyString, t1) in
      match first s0 with
      | Single => Some (byte s0, String s0 EmptyString, t1)
      | Invalid => invalid
      | Sequence size lo hi =>
          match size, t1 with
          | 2%nat, String s1 t2 =>
              if within lo hi s1
              then Some (rune2 s0 s1, String s0 (String s1 EmptyString), t2)
              else invalid
          | 3%nat, String s1 (String s2 t3) =>
              if within lo hi s1 && continuation s2
              then Some (rune3 s0 s1 s2,
                         String s0 (String s1 (String s2 EmptyString)), t3)
              else invalid
          | 4%nat, String s1 (String s2 (String s3 t4)) =>
              if within lo hi s1 && continuation s2 && continuation s3
              then Some (rune4 s0 s1 s2 s3,
                         String s0 (String s1 (String s2 (String s3 EmptyString))),
                         t4)
              else invalid
          | _, _ => invalid
          end
      end
  end.

(** [for _, r := range s]: the runes of a text from left to right, each with
    the bytes it is read from. The fixpoint repeats the cases of
    [DecodeRuneInString] so that it goes on with the text behind the rune. *)
Fixpoint runes (s : string) : list (N * string) :=
  match s with
  | EmptyString => []
  | String s0 t1 =>
      let invalid := (RuneError, String s0 EmptyString) :: runes t1 in
      match first s0 with
      | Single => (byte s0, String s0 EmptyString) :: runes t1
      | Invalid => invalid
      | Sequence size lo hi =>
          match size, t1 with
          | 2%nat, String s1 t2 =>
              if within lo hi s1
              then (rune2 s0 s1, String s0 (String s1 EmptyString)) :: runes t2
              else invalid
          | 3%nat, String s1 (String s2 t3) =>
              if within lo hi s1 && continuation s2
              then (rune3 s0 s1 s2,
                    String s0 (String s1 (String s2 EmptyString))) :: runes t3
              else invalid
          | 4%nat, String s1 (String s2 (String s3 t4)) =>
              if within lo hi s1 && continuation s2 && continuation s3
              then (rune4 s0 s1 s2 s3,
                    String s0 (String s1 (String s2 (String s3 EmptyString))))
                   :: runes t4
              else invalid
          | _, _ => invalid
          end
      end
  end.

(** The bytes of a run of runes. *)
Definition bytes (rs : list (N * string)) : string :=
  foldr (λ c rest, c.2 +:+ rest) EmptyString rs.

(** A byte that was read as [RuneError] because it starts no well-formed
    sequence: [r == RuneError && size == 1]. *)
Definition malformed (c : N * string) : bool :=
  (c.1 =? RuneError) && Nat.eqb (String.length c.2) 1.

(** [ValidString] *)
Definition ValidString (s : string) : bool :=
  forallb (λ c, negb (malformed c)) (runes s).

(** [AppendRune]: the UTF-8 encoding of a rune; a rune out of range or a
    surrogate half is written as [RuneError]. The shifts and masks of the
    source are written as quotients and remainders. *)
Definition AppendRune (r : N) : string :=
  if r <=? 127 then String (chr r) EmptyString
  else if r <=? 2047 then
    String (chr (192 + r / 64)) (String (chr (128 + r mod 64)) EmptyString)
  else if (MaxRune <? r) || ((55296 <=? r) && (r <=? 57343)) then
    String (chr 239) (String (chr 191) (String (chr 189) EmptyString))
  else if r <=? 65535 then
    String (chr (224 + r / 4096))
      (String (chr (128 + (r / 64) mod 64))
         (String (chr (128 + r mod 64)) EmptyString))
  else
    String (chr (240 + r / 262144))
      (String (chr (128 + (r / 4096) mod 64))
         (String (chr (128 + (r / 64) mod 64))
            (String (chr (128 + r mod 64)) EmptyString))).

End Utf8.

(** ** Package [unicode] of the Go standard library

    The case tables of the package ([CaseRanges], [caseOrbit]) change with the
    version of Unicode a release of Go is built for; the repository names
    none. They are a parameter of the model: what is proved holds for every
    table. *)

Module Unicode.

Local Open Scope N_scope.

(** [IsSpace]: the white space of Latin-1 is listed in the function, the rest
    is the table [White_Space]. *)
Definition IsSpace (r : N) : bool :=
  if r <=? 255 then
    ((9 <=? r) && (r <=? 13)) || (r =? 32) || (r =? 133) || (r =? 160)
  else
    (r =? 5760) || ((8192 <=? r) && (r <=? 8202)) || (r =? 8232) || (r =? 8233)
    || (r =? 8239) || (r =? 8287) || (r =? 12288).

Definition isUpperASCII (r : N) : bool := (65 <=? r) && (r <=? 90).
Definition isLowerASCII (r : N) : bool := (97 <=? r) && (r <=? 122).

(** What is read from the case tables, for the runes above [MaxASCII]:
    [To(LowerCase, r)] and [To(UpperCase, r)], and the least rune of the orbit
    that [SimpleFold] walks through from [r], which is [r] itself for a rune
    that folds with no other. The one thing assumed of the tables is that no
    rune has an upper-case ASCII letter as its lower case. *)
Class Tables := {
  toLower : N → N;
  toUpper : N → N;
  orbit : N → N;
  toLower_no_capital : ∀ r, 127 < r → isUpperASCII (toLower r) = false
}.

(** [unicode.ToLower] and [unicode.ToUpper]: ASCII is mapped by the function
    itself. *)
Definition ToLower `{Tables} (r : N) : N :=
  if r <=? 127 then (if isUpperASCII r then r + 32 else r) else toLower r.

Definition ToUpper `{Tables} (r : N) : N :=
  if r <=? 127 then (if isLowerASCII r then r - 32 else r) else toUpper r.

(** The least rune of the orbit of [r]. For ASCII the orbits are those of the
    table [asciiFold]: a letter with its other case, to which the tables add
    U+212A for K and U+017F for S. *)
Definition orbitMin `{Tables} (r : N) : N :=
  if r <? 128 then (if isLowerASCII r then r - 32 else r) else orbit r.

End Unicode.

(** ** Package [strings] of the Go standard library *)

Module Strings.

Import Utf8.

Local Open Scope N_scope.

Fixpoint all (f : ascii -> bool) (s : string) : bool :=
  match s with
  | EmptyString => true
  | String c s' => f c && all f s'
  end.

(** [asciiSpace]: the table of [strings.Fields] and [strings.TrimSpace],
    ['\t', '\n', '\v', '\f', '\r', ' ']. *)
Definition asciiSpace (c : ascii) : bool :=
  let n := N_of_ascii c in
  ((9 <=? n) && (n <=? 13)) || (n =? 32).

Definition isUpper (c : ascii) : bool :=
  let n := N_of_ascii c in (65 <=? n) && (n <=? 90).

(** [c += 'a' - 'A'] for an upper-case letter. *)
Definition toLowerByte (c : ascii) : ascii :=
  if isUpper c then ascii_of_N (N_of_ascii c + 32) else c.

(** No byte of the text is [>= utf8.RuneSelf]. *)
Definition isASCII (s : string) : bool := all (λ c, byte c <? RuneSelf) s.

(** The ASCII path of [strings.ToLower]. *)
Fixpoint lowerASCII (s : string) : string :=
  match s with
  | EmptyString => EmptyString
  | String c s' => String (toLowerByte c) (lowerASCII s')
  end.

(** What [strings.Map] writes for one rune of the text: a rune the mapping
    leaves as it is keeps its bytes, any other is written with [WriteRune];
    so is a byte that was read as [RuneError], which comes out as the three
    bytes of U+FFFD. *)
Definition mapRune (mapping : N → N) (c : N * string) : string :=
  let r := mapping c.1 in
  if (r =? c.1) && negb (malformed c) then c.2 else AppendRune r.

Definition Map (mapping : N → N) (s : string) : string :=
  foldr (λ c rest, mapRune mapping c +:+ rest) EmptyString (runes s).

(** [strings.ToLower] *)
Definition ToLower `{Unicode.Tables} (s : string) : string :=
  if isASCII s then lowerASCII s else Map Unicode.ToLower s.

(** [strings.ToUpper] *)
Fixpoint upperASCII (s : string) : string :=
  match s with
  | EmptyString => EmptyString
  | String c s' =>
      String (if (97 <=? byte c) && (byte c <=? 122) then chr (byte c - 32) else c)
        (upperASCII s')
  end.

Definition ToUpper `{Unicode.Tables} (s : string) : string :=
  if isASCII s then upperASCII s else Map Unicode.ToUpper s.

(** One step of the ASCII loop of [strings.EqualFold] on two bytes [sr],
    [tr]: equal bytes continue; otherwise the bytes are ordered so that
    [sr < tr], and they fold together only if [sr] is an upper-case letter
    and [tr == sr + 'a' - 'A']. *)
Definition equalFoldByte (sr tr : ascii) : bool :=
  if Ascii.eqb sr tr then true
  else
    let a := N_of_ascii sr in
    let b := N_of_ascii tr in
    let lo := if b <? a then b else a in
    let hi := if b <? a then a else b in
    (65 <=? lo) && (lo <=? 90) && (hi =? lo + 32).

(** One step of the loop after [hasUnicode] on two runes: equal runes
    continue; otherwise they are ordered so that [sr < tr]; below
    [utf8.RuneSelf] the rule of the ASCII loop decides; in the general case
    [unicode.SimpleFold] is walked from [sr] until it comes back to [sr] or
    passes [tr], which it meets exactly when the two runes are of one orbit. *)
Definition equalFoldRune `{Unicode.Tables} (sr tr : N) : bool :=
  if tr =? sr then true
  else
    let lo := if tr <? sr then tr else sr in
    let hi := if tr <? sr then sr else tr in
    if hi <? RuneSelf then (65 <=? lo) && (lo <=? 90) && (hi =? lo + 32)
    else Unicode.orbitMin lo =? Unicode.orbitMin hi.

(** The loop after [hasUnicode]: the runes of both texts are walked
    together; at the end both must be exhausted. *)
Fixpoint hasUnicode `{Unicode.Tables} (s t : list N) : bool :=
  match s, t with
  | [], [] => true
  | sr :: s', tr :: t' => if equalFoldRune sr tr then hasUnicode s' t' else false
  | _, _ => false
  end.

(** [strings.EqualFold]: both texts are walked byte by byte as long as both
    bytes are ASCII; from the first byte that is not, they are walked rune by
    rune. *)
Fixpoint EqualFold `{Unicode.Tables} (s t : string) : bool :=
  match s, t with
  | EmptyString, EmptyString => true
  | String sr s', String tr t' =>
      if (RuneSelf <=? byte sr) || (RuneSelf <=? byte tr)
      then hasUnicode (runes s).*1 (runes t).*1
      else if equalFoldByte sr tr then EqualFold s' t' else false
  | _, _ => false
  end.

(** [strings.TrimLeftFunc] and [strings.TrimRightFunc] on bytes. *)
Fixpoint trimLeft (f : ascii -> bool) (s : string) : string :=
  match s with
  | EmptyString => EmptyString
  | String c s' => if f c then trimLeft f s' else s
  end.

Fixpoint trimRight (f : ascii -> bool) (s : string) : string :=
  match s with
  | EmptyString => EmptyString
  | String c s' =>
      match trimRight f s' with
      | EmptyString => if f c then EmptyString else String c EmptyString
      | r => String c r
      end
  end.

(** Membership of a byte in a cutset ([asciiSet.contains]). *)
Fixpoint contains (cutset : string) (c : ascii) : bool :=
  match cutset with
  | EmptyString => false
  | String d cutset' => Ascii.eqb c d || contains cutset' c
  end.

(** [strings.Trim(s, cutset)] for an ASCII cutset:
    [trimLeftASCII(trimRightASCII(s, &as), &as)]. *)
Definition Trim (s cutset : string) : string :=
  trimLeft (contains cutset) (trimRight (contains cutset) s).

(** [strings.TrimSpace] is [TrimFunc(s, unicode.IsSpace)] behind its ASCII
    loops: the white space is taken off the left rune by rune, then off the
    right. On the right the source walks back with
    [DecodeLastRuneInString], which reads a white-space rune at the end of
    a text exactly when the text ends with the bytes of one; these are the
    runes of white space that end the walk from the left. *)
Fixpoint trimLeftRunes (rs : list (N * string)) : list (N * string) :=
  match rs with
  | [] => []
  | c :: rest => if Unicode.IsSpace c.1 then trimLeftRunes rest else rs
  end.

Fixpoint trimRightRunes (rs : list (N * string)) : list (N * string) :=
  match rs with
  | [] => []
  | c :: rest =>
      match trimRightRunes rest with
      | [] => if Unicode.IsSpace c.1 then [] else [c]
      | r => c :: r
      end
  end.

Definition TrimSpace (s : string) : string :=
  bytes (trimRightRunes (trimLeftRunes (runes s))).

(** The field that ends at the current position, if it is not empty. *)
Definition flush (field : string) : list string :=
  match field with
  | EmptyString => []
  | _ => [field]
  end.

(** The ASCII loop of [strings.Fields]: [field] is [s[fieldStart:i]], the
    bytes of the current field read so far. *)
Fixpoint Fields_go (field : string) (s : string) : list string :=
  match s with
  | EmptyString => flush field
  | String c s' =>
      if asciiSpace c then flush field ++ Fields_go EmptyString s'
      else Fields_go (field +:+ String c EmptyString) s'
  end.

(** The loop of [strings.FieldsFunc] over the runes of the text: [field] is
    [s[start:end]], empty when no field is open ([start < 0]). *)
Fixpoint FieldsFunc_go (f : N → bool) (field : string) (rs : list (N * string))
  : list string :=
  match rs with
  | [] => flush field
  | c :: rest =>
      if f c.1 then flush field ++ FieldsFunc_go f EmptyString rest
      else FieldsFunc_go f (field +:+ c.2) rest
  end.

(** [strings.Fields]: a text with a byte that is not ASCII is split by
    [FieldsFunc(s, unicode.IsSpace)]. *)
Definition Fields (s : string) : list string :=
  if isASCII s then Fields_go EmptyString s
  else FieldsFunc_go Unicode.IsSpace EmptyString (runes s).

End Strings.

Import Utf8 Strings.

(** Some entries of the case tables of Go, for the examples: the letters of
    Latin-1 and the runes beyond that fold with them or with an ASCII
    letter, and the dotted and dotless [I] of Turkish, which have a lower or
    upper case among the ASCII letters and fold with nothing. Every other
    rune is left without case. *)
Definition latin1Upper (r : N) : bool :=
  ((192 <=? r) && (r <=? 222) && negb (r =? 215))%N.

Definition latin1Lower (r : N) : bool :=
  ((224 <=? r) && (r <=? 254) && negb (r =? 247))%N.

Definition sample_toLower (r : N) : N :=
  (if (65 <=? r) && (r <=? 90) then r + 32
   else if latin1Upper r then r + 32
   else if r =? 304 then 105        (* U+0130 -> i *)
   else if r =? 376 then 255        (* U+0178 -> U+00FF *)
   else if r =? 924 then 956        (* U+039C -> U+03BC *)
   else if r =? 7838 then 223       (* U+1E9E -> U+00DF *)
   else if r =? 8490 then 107       (* U+212A -> k *)
   else if r =? 8491 then 229       (* U+212B -> U+00E5 *)
   else r)%N.

Definition sample_toUpper (r : N) : N :=
  (if (97 <=? r) && (r <=? 122) then r - 32
   else if latin1Lower r then r - 32
   else if r =? 181 then 924        (* U+00B5 -> U+039C *)
   else if r =? 255 then 376        (* U+00FF -> U+0178 *)
   else if r =? 305 then 73         (* U+0131 -> I *)
   else if r =? 383 then 83         (* U+017F -> S *)
   else if r =? 956 then 924        (* U+03BC -> U+039C *)
   else r)%N.

Definition sample_orbit (r : N) : N :=
  (if latin1Lower r then r - 32
   else if r =? 376 then 255        (* U+0178, U+00FF *)
   else if r =? 383 then 83         (* U+017F, S, s *)
   else if (r =? 924) || (r =? 956) then 181 (* U+039C, U+03BC, U+00B5 *)
   else if r =? 7838 then 223       (* U+1E9E, U+00DF *)
   else if r =? 8490 then 75        (* U+212A, K, k *)
   else if r =? 8491 then 197       (* U+212B, U+00C5, U+00E5 *)
   else r)%N.

Definition sample_toLower_no_capital (r : N) :
  (127 < r)%N → Unicode.isUpperASCII (sample_toLower r) = false.
Proof.
  intros Hr. unfold sample_toLower, latin1Upper.
  assert (∀ n : N, (n < 65 ∨ 90 < n)%N → Unicode.isUpperASCII n = false) as Hno.
  { intros n Hn. unfold Unicode.isUpperASCII.
    destruct (N.leb_spec 65 n), (N.leb_spec n 90); simpl; try reflexivity; lia. }
  repeat match goal with
    | |- context [N.leb ?a ?b] => destruct (N.leb_spec a b)
    | |- context [N.eqb ?a ?b] => destruct (N.eqb_spec a b)
    end; simpl; apply Hno; lia.
Qed.

Definition sampleTables : Unicode.Tables :=
  {| Unicode.toLower := sample_toLower;
     Unicode.toUpper := sample_toUpper;
     Unicode.orbit := sample_orbit;
     Unicode.toLower_no_capital := sample_toLower_no_capital |}.

Global Existing Instance sampleTables.

(** ** The matcher *)

(** The double quote, written by its code so that no literal has to escape
    it. *)
Definition dquote : ascii := Eval cbv in ascii_of_N 34.

(** The cutset of [containsWholeWord]: [.,!?;:] the double quote and
    ['()[]{}*]. *)
Definition punctuation : string :=
  ".,!?;:" +:+ String dquote "'()[]{}*".

(** The body of [for _, word := range words]. *)
Fixpoint containsWholeWord_range (words : list string) (trigger : string) : bool :=
  match words with
  | [] => false
  | word :: rest =>
      let cleanWord := Trim word punctuation in
      if String.eqb cleanWord trigger then true
      else containsWholeWord_range rest trigger
  end.

(** [containsWholeWord] checks if the trigger exists as a whole word in the
    message. *)
Definition containsWholeWord (message trigger : string) : bool :=
  let words := Fields message in
  containsWholeWord_range words trigger.

(** ** The data model *)

(** [AutoReply] represents a single auto-reply rule. *)
Record AutoReply := {
  Trigger : string;
  Response : string;
  AuthorID : string (* json: author_id, omitempty *)
}.

Global Instance AutoReply_eq_dec : EqDecision AutoReply.
Proof. solve_decision. Defined.

(** A slice [[]AutoReply]; [None] is the [nil] slice. *)
Abbreviation slice := (option (list AutoReply)).

(** [len(s)] and the elements [range s] visits. *)
Definition elems (s : slice) : list AutoReply := default [] s.
Definition len (s : slice) : nat := length (elems s).

(** [ServerAutoReplies] stores the auto-reply rules per server:
    [map[guildID][]AutoReply]. *)
Abbreviation ServerAutoReplies := (gmap string slice).

(** [m[guildID]]: a missing key reads as the zero value, the [nil] slice. *)
Definition index (m : ServerAutoReplies) (guildID : string) : slice :=
  default None (m !! guildID).

Definition dataFile : string := "auto_replies.json".

(** ** Package [encoding/json]

    A JSON document is kept as its tree: the text that [MarshalIndent] writes
    and that [Unmarshal] scans (indentation, escapes) is not modelled. A
    string of the tree is the string the decoder reads from the text; the
    encoder writes a string that is valid UTF-8 as it is, and any other with
    its malformed bytes replaced. *)

Module Json.

Local Set Warnings "-register-all".

Inductive json :=
| JNull
| JBool (b : bool)
| JNumber (literal : string)
| JString (s : string)
| JArray (items : list json)
| JObject (members : list (string * json)).

(** *** Marshal *)

(** The string the encoder writes for a Go string: a byte that is no part
    of a well-formed sequence ([c == utf8.RuneError && size == 1]) is written
    as U+FFFD. *)
Definition written (s : string) : string :=
  foldr (λ c rest, (if malformed c then AppendRune RuneError else c.2) +:+ rest)
    EmptyString (runes s).

(** A struct is written field by field in declaration order; the tag
    [omitempty] leaves [author_id] out when it is the empty string. *)
Definition marshalAutoReply (r : AutoReply) : json :=
  JObject
    ([("trigger", JString (written (Trigger r)));
      ("response", JString (written (Response r)))]
     ++ (if decide (AuthorID r = "") then []
         else [("author_id", JString (written (AuthorID r)))])).

(** A nil slice is written as [null], any other slice as an array. *)
Definition marshalSlice (s : slice) : json :=
  match s with
  | None => JNull
  | Some l => JArray (marshalAutoReply <$> l)
  end.

Definition key_le (a b : string * slice) : Prop := (a.1 ≤ b.1)%string.

Global Instance key_le_dec : RelDecision key_le.
Proof. intros a b. unfold key_le. apply _. Defined.

(** A map is written as an object whose keys are sorted. *)
Definition Marshal (m : ServerAutoReplies) : json :=
  JObject (prod_map written marshalSlice <$> merge_sort key_le (map_to_list m)).

(** *** Unmarshal

    The decoder stores what fits and goes on: a value of the wrong JSON
    type is skipped, its target keeps its value, and the first such
    mismatch is reported as the error once the whole document has been
    read. The boolean next to each decoded value is that error. *)

(** A JSON value read into a Go [string]: [null] is ignored. *)
Definition unmarshalString (v : json) (old : string) : string * bool :=
  match v with
  | JString s => (s, false)
  | JNull => (old, false)
  | _ => (old, true)
  end.

(** One member [key: v] of an object read into the struct: the key selects
    the field whose JSON name it equals, letter case ignored; other keys
    are skipped. *)
Definition unmarshalField {T : Unicode.Tables} (acc : AutoReply * bool)
    (member : string * json) : AutoReply * bool :=
  let '(r, err) := acc in
  let '(key, v) := member in
  if EqualFold key "trigger" then
    let '(s, e) := unmarshalString v (Trigger r) in
    ({| Trigger := s; Response := Response r; AuthorID := AuthorID r |}, err || e)
  else if EqualFold key "response" then
    let '(s, e) := unmarshalString v (Response r) in
    ({| Trigger := Trigger r; Response := s; AuthorID := AuthorID r |}, err || e)
  else if EqualFold key "author_id" then
    let '(s, e) := unmarshalString v (AuthorID r) in
    ({| Trigger := Trigger r; Response := Response r; AuthorID := s |}, err || e)
  else (r, err).

Definition zeroAutoReply : AutoReply :=
  {| Trigger := ""; Response := ""; AuthorID := "" |}.

(** An element of the array, read into a fresh (zero) struct. *)
Definition unmarshalAutoReply {T : Unicode.Tables} (v : json) : AutoReply * bool :=
  match v with
  | JObject members => foldl unmarshalField (zeroAutoReply, false) members
  | JNull => (zeroAutoReply, false)
  | _ => (zeroAutoReply, true)
  end.

(** The value of a map entry, read into a fresh (nil) slice: an array
    gives a slice that is not nil even when it is empty, [null] gives the
    nil slice. *)
Definition unmarshalSlice {T : Unicode.Tables} (v : json) : slice * bool :=
  match v with
  | JArray items =>
      let rs := unmarshalAutoReply <$> items in
      (Some (fst <$> rs), existsb snd rs)
  | JNull => (None, false)
  | _ => (None, true)
  end.

(** One member of the top-level object: the entry is stored in the map,
    over an earlier entry of the same key. *)
Definition unmarshalEntry {T : Unicode.Tables} (acc : ServerAutoReplies * bool)
    (member : string * json) : ServerAutoReplies * bool :=
  let '(m, err) := acc in
  let '(key, v) := member in
  let '(s, e) := unmarshalSlice v in
  (<[key := s]> m, err || e).

(** [json.Unmarshal(data, &m)] on the map [m]. An object is read member
    by member. [null] sets the variable to the nil map, for which the
    model has no value: the result is [None]. Any other document does not
    fit a map: nothing is stored and the error is reported. *)
Definition Unmarshal {T : Unicode.Tables} (data : json) (m : ServerAutoReplies)
  : option (ServerAutoReplies * bool) :=
  match data with
  | JObject members => Some (foldl unmarshalEntry (m, false) members)
  | JNull => None
  | _ => Some (m, true)
  end.

End Json.

Import Json.

(** ** The world around the handlers *)

(** What [auto_replies.json] holds: a JSON document, or a text that is not
    JSON, which [json.Unmarshal] rejects before it stores anything. *)
Inductive file_content :=
| Malformed
| Document (data : json).

Inductive log_message :=
| ErrorReadingFile
| ErrorParsingFile
| Loaded (totalRules servers : nat)
| ErrorSaving
| ErrorSendingAutoReply.

Record MessageReference := {
  ref_MessageID : string;
  ref_ChannelID : string;
  ref_GuildID : string
}.

(** The calls that leave the process, in the order they are made. *)
Inductive event :=
| LogPrintf (msg : log_message)
| OsWriteFile (name : string) (data : json)
| ChannelMessageSendReply (channelID content : string) (reference : MessageReference)
| ChannelMessageSend (channelID content : string).

Record World := {
  serverAutoReplies : ServerAutoReplies;
  files : gmap string file_content;
  events : list event
}.

(** What a failed [os.WriteFile] leaves of the file: the file could not be
    opened and is as it was; it was opened, which truncates it, and the text
    was not written to its end, so that what it holds is not JSON; or the
    whole text was written before the error. *)
Inductive failed_write :=
| NotOpened
| CutShort
| AllWritten.

(** The outcome of the calls whose failure the handlers test. *)
Record Env := {
  WriteFile_fails : bool;
  WriteFile_leaves : failed_write;
  ReadFile_fails : bool;
  SendReply_fails : bool
}.

Definition emit (e : event) (w : World) : World :=
  {| serverAutoReplies := serverAutoReplies w;
     files := files w;
     events := events w ++ [e] |}.

Definition setReplies (m : ServerAutoReplies) (w : World) : World :=
  {| serverAutoReplies := m; files := files w; events := events w |}.

Definition writeFile (name : string) (c : file_content) (w : World) : World :=
  {| serverAutoReplies := serverAutoReplies w;
     files := <[name := c]> (files w);
     events := events w |}.

(** ** Persistence *)

(** [loadAutoReplies] loads the auto-reply rules from the JSON file. The
    result is [None] for the one document, [null], on which [json.Unmarshal]
    leaves the variable a nil map: a map that [addAutoReply] cannot write
    to, and that this development does not follow. *)
Definition loadAutoReplies {T : Unicode.Tables} (env : Env) (w : World)
  : option World :=
  let w := setReplies ∅ w in
  match files w !! dataFile with
  | None => Some w
  | Some content =>
      if ReadFile_fails env then Some (emit (LogPrintf ErrorReadingFile) w)
      else
        match content with
        | Malformed => Some (emit (LogPrintf ErrorParsingFile) w)
        | Document data =>
            match Unmarshal data (serverAutoReplies w) with
            | None => None
            | Some (m, err) =>
                let w := setReplies m w in
                if err then Some (emit (LogPrintf ErrorParsingFile) w)
                else
                  let totalRules :=
                    map_fold (λ _ replies total, total + len replies)%nat 0%nat m in
                  Some (emit (LogPrintf (Loaded totalRules (size m))) w)
            end
        end
  end.

(** [saveAutoReplies] saves the auto-reply rules to the JSON file.
    [json.MarshalIndent] cannot fail on a map of strings to slices of
    structs of strings, so that the branch logging its error is never
    taken. *)
Definition saveAutoReplies (env : Env) (w : World) : World :=
  let data := Marshal (serverAutoReplies w) in
  let w := emit (OsWriteFile dataFile data) w in
  if WriteFile_fails env then
    let w :=
      match WriteFile_leaves env with
      | NotOpened => w
      | CutShort => writeFile dataFile Malformed w
      | AllWritten => writeFile dataFile (Document data) w
      end in
    emit (LogPrintf ErrorSaving) w
  else writeFile dataFile (Document data) w.

(** ** The rule manager *)

(** The three results of [addAutoReply] and [removeAutoReply]. *)
Abbreviation outcome := (bool * string * string)%type.

(** [fmt.Sprintf] of the message sent when the caller is not the author. *)
Definition notYours (authorID : string) : string :=
  "you can't change this you bartard <@" +:+ authorID +:+ ">".

(** [for i, reply := range replies { if strings.EqualFold(reply.Trigger,
    trigger) { ... return } }]: the index and the rule at which the loop
    enters its body, [i] being the index of the head of [replies]. *)
Fixpoint findTrigger {T : Unicode.Tables} (replies : list AutoReply)
    (trigger : string) (i : nat) : option (nat * AutoReply) :=
  match replies with
  | [] => None
  | reply :: rest =>
      if EqualFold (Trigger reply) trigger then Some (i, reply)
      else findTrigger rest trigger (S i)
  end.

(** [reply.AuthorID != "" && reply.AuthorID != authorID] *)
Definition notAuthor (reply : AutoReply) (authorID : string) : bool :=
  bool_decide (AuthorID reply ≠ "") && bool_decide (AuthorID reply ≠ authorID).

Definition setResponse (response : string) (r : AutoReply) : AutoReply :=
  {| Trigger := Trigger r; Response := response; AuthorID := AuthorID r |}.

Definition setAuthorID (authorID : string) (r : AutoReply) : AutoReply :=
  {| Trigger := Trigger r; Response := Response r; AuthorID := authorID |}.

(** [serverAutoReplies[guildID][i] = f(serverAutoReplies[guildID][i])]: the
    element is changed in the array the slice of the map points to. *)
Definition updateAt (guildID : string) (i : nat) (f : AutoReply -> AutoReply)
    (m : ServerAutoReplies) : ServerAutoReplies :=
  <[guildID := Some (alter f i (elems (index m guildID)))]> m.

(** [addAutoReply] adds a new auto-reply rule for a specific server. *)
Definition addAutoReply {T : Unicode.Tables} (env : Env)
    (trigger response authorID guildID : string) (w : World) : outcome * World :=
  (* Initialize server replies if not exists *)
  let w :=
    match index (serverAutoReplies w) guildID with
    | None => setReplies (<[guildID := Some []]> (serverAutoReplies w)) w
    | Some _ => w
    end in
  (* Check if trigger already exists in this server *)
  match findTrigger (elems (index (serverAutoReplies w) guildID)) trigger 0 with
  | Some (i, reply) =>
      (* Check if the current user is the author *)
      if notAuthor reply authorID then ((false, notYours authorID, ""), w)
      else
        (* Update existing reply *)
        let w := setReplies (updateAt guildID i (setResponse response) (serverAutoReplies w)) w in
        let w := setReplies (updateAt guildID i (setAuthorID authorID) (serverAutoReplies w)) w in
        let w := saveAutoReplies env w in
        ((true, "Auto-reply updated successfully!", ""), w)
  | None =>
      (* Add new auto-reply *)
      let added :=
        elems (index (serverAutoReplies w) guildID)
        ++ [{| Trigger := ToLower trigger; Response := response; AuthorID := authorID |}] in
      let w := setReplies (<[guildID := Some added]> (serverAutoReplies w)) w in
      let w := saveAutoReplies env w in
      ((true, "Auto-reply created successfully!", ""), w)
  end.

(** [removeAutoReply] removes an auto-reply rule from a specific server. *)
Definition removeAutoReply {T : Unicode.Tables} (env : Env)
    (trigger authorID guildID : string) (w : World) : outcome * World :=
  match index (serverAutoReplies w) guildID with
  | None => ((false, "No auto-reply found for that trigger.", ""), w)
  | Some replies =>
      match findTrigger replies trigger 0 with
      | Some (i, reply) =>
          (* Check if the current user is the author *)
          if notAuthor reply authorID then ((false, notYours authorID, ""), w)
          else
            (* Remove the element *)
            let w := setReplies
                       (<[guildID := Some (take i replies ++ drop (S i) replies)]>
                          (serverAutoReplies w)) w in
            (* Clean up empty server entries *)
            let w :=
              if decide (len (index (serverAutoReplies w) guildID) = 0%nat)
              then setReplies (delete guildID (serverAutoReplies w)) w
              else w in
            let w := saveAutoReplies env w in
            ((true, "Auto-reply removed successfully!", ""), w)
      | None => ((false, "No auto-reply found for that trigger.", ""), w)
      end
  end.

(** ** The message handler *)

(** The fields of [discordgo.MessageCreate] the handler reads. *)
Record MessageCreate := {
  Author_Bot : bool;
  GuildID : string;
  ChannelID : string;
  ID : string;
  Content : string
}.

(** The body entered at the first matching trigger: the reply is sent with a
    reference to the message, and as a regular message if that fails. *)
Definition sendAutoReply (env : Env) (m : MessageCreate) (reply : AutoReply)
    (w : World) : World :=
  let w :=
    emit (ChannelMessageSendReply (ChannelID m) (Response reply)
            {| ref_MessageID := ID m; ref_ChannelID := ChannelID m;
               ref_GuildID := GuildID m |}) w in
  if SendReply_fails env then
    let w := emit (LogPrintf ErrorSendingAutoReply) w in
    (* Fallback to regular message if reply fails *)
    emit (ChannelMessageSend (ChannelID m) (Response reply)) w
  else w.

(** [for _, reply := range serverReplies { if containsWholeWord(...) { ...
    break } }] *)
Fixpoint messageCreate_range (env : Env) (m : MessageCreate)
    (messageContent : string) (serverReplies : list AutoReply) (w : World)
  : World :=
  match serverReplies with
  | [] => w
  | reply :: rest =>
      if containsWholeWord messageContent (Trigger reply)
      then sendAutoReply env m reply w (* break *)
      else messageCreate_range env m messageContent rest w
  end.

(** [messageCreate] handles incoming messages for auto-replies. *)
Definition messageCreate {T : Unicode.Tables} (env : Env) (m : MessageCreate)
    (w : World) : World :=
  (* Ignore bot messages *)
  if Author_Bot m then w
  (* Only work in servers, not DMs *)
  else if decide (GuildID m = "") then w
  else
    (* Check if this server has any auto-replies set up *)
    let serverReplies := index (serverAutoReplies w) (GuildID m) in
    if decide (len serverReplies = 0%nat) then w
    else
      let messageContent := ToLower (TrimSpace (Content m)) in
      (* If content is empty due to missing intent, skip auto-reply *)
      if decide (messageContent = "") then w
      else messageCreate_range env m messageContent (elems serverReplies) w.

(** ** What the specification calls a token

    The words of the specification, stated on the text itself and not by the
    functions above: the matcher is compared with them below. *)

Definition first_byte (s : string) : option ascii :=
  match s with
  | EmptyString => None
  | String c _ => Some c
  end.

Fixpoint last_byte (s : string) : option ascii :=
  match s with
  | EmptyString => None
  | String c EmptyString => Some c
  | String _ s' => last_byte s'
  end.

(** The byte, if there is one, satisfies [f]. *)
Definition bounded_by (f : ascii -> bool) (c : option ascii) : Prop :=
  match c with
  | None => True
  | Some c => f c = true
  end.

Definition isPunctuation (c : ascii) : bool := contains punctuation c.
Definition nonPunctuation (c : ascii) : bool := negb (isPunctuation c).

(** A rune of the text is white space, or it is not. *)
Definition isSpace (c : N * string) : Prop := Unicode.IsSpace c.1 = true.
Definition notSpace (c : N * string) : Prop := Unicode.IsSpace c.1 = false.

(** The rune, if there is one, is white space. *)
Definition bounded_by_space (c : option (N * string)) : Prop :=
  from_option isSpace True c.

(** [word] is a whitespace-split word of [text]: the bytes of a non-empty
    run of runes of the text that are not white space, which white space or
    an end of the text bounds on each side. *)
Definition word_of (word text : string) : Prop :=
  ∃ before run after,
    runes text = before ++ run ++ after ∧
    word = bytes run ∧ run ≠ [] ∧ Forall notSpace run ∧
    bounded_by_space (last before) ∧
    bounded_by_space (head after).

(** [token] is [word] with its leading and trailing punctuation stripped:
    punctuation only was removed, and none is left at either end. *)
Definition stripped (word token : string) : Prop :=
  ∃ leading trailing,
    word = leading +:+ token +:+ trailing ∧
    all isPunctuation leading = true ∧
    all isPunctuation trailing = true ∧
    bounded_by nonPunctuation (first_byte token) ∧
    bounded_by nonPunctuation (last_byte token).

(** [token] appears as a standalone token of [text]. *)
Definition standalone_token (token text : string) : Prop :=
  ∃ word, word_of word text ∧ stripped word token.

(** ** Invariants of the rule store *)

(** No two rules of a rule set have triggers that are equal when letter
    case is ignored. *)
Definition unique_triggers {T : Unicode.Tables} (replies : list AutoReply) : Prop :=
  ∀ i j ri rj,
    replies !! i = Some ri → replies !! j = Some rj →
    EqualFold (Trigger ri) (Trigger rj) = true → i = j.

(** A property of rule sets that holds of every scope of the store. *)
Definition every_scope (P : list AutoReply → Prop) (m : ServerAutoReplies) : Prop :=
  ∀ guildID replies, m !! guildID = Some (Some replies) → P replies.

Definition store_unique {T : Unicode.Tables} (m : ServerAutoReplies) : Prop :=
  every_scope unique_triggers m.

(** The strings of a rule, and of a store, are valid UTF-8. *)
Definition validReply (r : AutoReply) : Prop :=
  ValidString (Trigger r) = true ∧ ValidString (Response r) = true ∧
  ValidString (AuthorID r) = true.

Definition valid_store (m : ServerAutoReplies) : Prop :=
  ∀ guildID s, m !! guildID = Some s →
               ValidString guildID = true ∧ Forall validReply (elems s).

(** The worlds the handlers lead to from the empty store
    ([make(ServerAutoReplies)] and no file to load). *)
Inductive reachable {T : Unicode.Tables} : World → Prop :=
| reachable_empty fs evs :
    reachable {| serverAutoReplies := ∅; files := fs; events := evs |}
| reachable_add env trigger response authorID guildID w :
    reachable w →
    reachable (addAutoReply env trigger response authorID guildID w).2
| reachable_remove env trigger authorID guildID w :
    reachable w →
    reachable (removeAutoReply env trigger authorID guildID w).2
| reachable_message env m w :
    reachable w → reachable (messageCreate env m w).

(** ** What is observed of a run *)


(** The contents sent as replies to a message, in order. *)
Definition replies_sent (evs : list event) : list string :=
  omap (λ e, match e with
             | ChannelMessageSendReply _ content _ => Some content
             | _ => None
             end) evs.

(** The contents of everything sent to a channel, replies and regular
    messages, in order. *)
Definition messages_sent (evs : list event) : list string :=
  omap (λ e, match e with
             | ChannelMessageSendReply _ content _ => Some content
             | ChannelMessageSend _ content => Some content
             | _ => None
             end) evs.

(** An environment in which nothing fails, and the world of a bot that has
    just started without a file. *)
Definition quietEnv : Env :=
  {| WriteFile_fails := false; WriteFile_leaves := NotOpened;
     ReadFile_fails := false; SendReply_fails := false |}.

Definition emptyWorld : World :=
  {| serverAutoReplies := ∅; files := ∅; events := [] |}.

(** ** Definitions used by the proofs *)

(** The bytes that do not satisfy [f]. *)
Definition negate (f : ascii → bool) (c : ascii) : bool := negb (f c).

(** A byte from 0x80 upwards. *)
Definition high (c : ascii) : bool := (128 <=? byte c)%N.

(** A rune as [DecodeRuneInString] reads it: from one byte below 0x80,
    whose value it is, or from bytes from 0x80 upwards. *)
Definition well_read (c : N * string) : Prop :=
  c.2 ≠ "" ∧
  ((∃ b, c.2 = String b "" ∧ (byte b < 128)%N ∧ c.1 = byte b)
   ∨ all high c.2 = true).

(** An entry of the map whose strings are valid UTF-8. *)
Definition validEntry (entry : string * slice) : Prop :=
  ValidString entry.1 = true ∧ Forall validReply (elems entry.2).

(** A text with each of its runes replaced by the least rune of its orbit:
    two texts are equal under [EqualFold] exactly when they have the same
    folding. *)
Definition foldString {T : Unicode.Tables} (s : string) : list N :=
  Unicode.orbitMin <$> (runes s).*1.

(** The case-folded triggers of a rule set. *)
Definition foldKeys {T : Unicode.Tables} (replies : list AutoReply) : list (list N) :=
  (λ r, foldString (Trigger r)) <$> replies.

(** [m[key] = s], the store a member of the top-level object is read into. *)
Definition store (acc : ServerAutoReplies) (entry : string * slice)
  : ServerAutoReplies := <[entry.1 := entry.2]> acc.

(** The worlds and messages of the scenarios. *)
Definition byeWorld : World :=
  {| serverAutoReplies :=
       {[ "S1" := Some [{| Trigger := "bye"; Response := "cya"; AuthorID := "U1" |}] ]};
     files := ∅; events := [] |}.


Definition blankMessage : MessageCreate :=
  {| Author_Bot := false; GuildID := "S1"; ChannelID := "C1"; ID := "M1";
     Content := "   " |}.


Definition greetingsWorld : World :=
  {| serverAutoReplies :=
       {[ "S1" := Some [{| Trigger := "hi"; Response := "A"; AuthorID := "U1" |};
                        {| Trigger := "there"; Response := "B"; AuthorID := "U2" |}] ]};
     files := ∅; events := [] |}.

Definition hiThereMessage : MessageCreate :=
  {| Author_Bot := false; GuildID := "S1"; ChannelID := "C1"; ID := "M1";
     Content := "Hi there!" |}.

(** The letter U+0130, a capital I with a dot above: the bytes C4 B0. *)
Definition dottedI : string := String (chr 196) (String (chr 176) EmptyString).

(** The rule [addAutoReply] stores for the trigger U+0130 where
    [strings.ToLower] gives the letter [i] for it. *)
Definition dottedRule (response authorID : string) : AutoReply :=
  {| Trigger := "i"; Response := response; AuthorID := authorID |}.

(** A file, written by hand, with a trigger in upper case, and the world of
    a bot that starts with it. *)
Definition shoutingDocument : json :=
  JObject
    [("S1", JArray [JObject [("trigger", JString "Hello");
                             ("response", JString "hi")]])].

Definition shoutingFileWorld : World :=
  {| serverAutoReplies := ∅;
     files := {[ dataFile := Document shoutingDocument ]};
     events := [] |}.

(** A file, written by hand, with one trigger twice in a guild: an unowned
    rule first, a rule of the user U1 second. *)
Definition duplicatesDocument : json :=
  JObject
    [("S1", JArray [JObject [("trigger", JString "bye");
                             ("response", JString "x")];
                    JObject [("trigger", JString "Bye");
                             ("response", JString "y");
                             ("author_id", JString "U1")]])].

Definition duplicatesFileWorld : World :=
  {| serverAutoReplies := ∅;
     files := {[ dataFile := Document duplicatesDocument ]};
     events := [] |}.

(** Case analysis on the comparisons of byte codes. *)
Ltac bytes :=
  repeat match goal with
    | |- context [N.leb ?a ?b] => destruct (N.leb_spec a b)
    | |- context [N.ltb ?a ?b] => destruct (N.ltb_spec a b)
    | |- context [N.eqb ?a ?b] => destruct (N.eqb_spec a b)
    | H : context [N.leb ?a ?b] |- _ => destruct (N.leb_spec a b)
    | H : context [N.ltb ?a ?b] |- _ => destruct (N.ltb_spec a b)
    | H : context [N.eqb ?a ?b] |- _ => destruct (N.eqb_spec a b)
    end; simpl in *; try done; try lia.

(** ** Further definitions

    The definitions, worlds and environments used by the further properties
    at the end of the file. *)

(** An environment whose disk is full: the file is opened, and the write
    stops short. *)
Definition fullDiskEnv : Env :=
  {| WriteFile_fails := true; WriteFile_leaves := CutShort;
     ReadFile_fails := false; SendReply_fails := false |}.

(** A word the matcher can find: it is not empty, holds no white space, and
    neither begins nor ends with punctuation. *)
Definition plainWord (s : string) : Prop :=
  s ≠ "" ∧ Forall notSpace (runes s) ∧
  bounded_by nonPunctuation (first_byte s) ∧
  bounded_by nonPunctuation (last_byte s).

(** A message of a user in the guild S1. *)
Definition userMessage (content : string) : MessageCreate :=
  {| Author_Bot := false; GuildID := "S1"; ChannelID := "C1"; ID := "M1";
     Content := content |}.


(** What [messageCreate] may send for the message [m]: a reply in the channel
    of the message that refers to it and, only after a failed reply, the log
    line and a regular message in the same channel. *)
Definition answers (env : Env) (m : MessageCreate) (e : event) : Prop :=
  match e with
  | ChannelMessageSendReply channelID _ reference =>
      channelID = ChannelID m ∧
      reference = {| ref_MessageID := ID m; ref_ChannelID := ChannelID m;
                     ref_GuildID := GuildID m |}
  | ChannelMessageSend channelID _ =>
      channelID = ChannelID m ∧ SendReply_fails env = true
  | LogPrintf msg => msg = ErrorSendingAutoReply ∧ SendReply_fails env = true
  | OsWriteFile _ _ => False
  end.

(** A world whose file is not JSON. *)
Definition brokenFileWorld : World :=
  {| serverAutoReplies := serverAutoReplies byeWorld;
     files := {[ dataFile := Malformed ]}; events := [] |}.

(** ** The slash commands

    The handlers of the slash commands, [interactionCreate] and
    [fetchRSSFeed] of [main.go]. A handler gives the calls it makes to
    Discord, in order, next to the world it leaves. What the handlers get
    from outside the program is read from an [Outside]: the clock, the order
    in which a [range] runs over the map [rssTopics], the answer of the HTTP
    request and what [xml.Unmarshal] makes of it. *)

Module MoreStrings.

(** [strings.HasPrefix] *)
Fixpoint HasPrefix (s prefix : string) : bool :=
  match prefix, s with
  | EmptyString, _ => true
  | String p prefix', String c s' => Ascii.eqb c p && HasPrefix s' prefix'
  | String _ _, EmptyString => false
  end.

(** [strings.Contains] *)
Fixpoint Contains (s substr : string) : bool :=
  match s with
  | EmptyString => HasPrefix EmptyString substr
  | String _ s' => HasPrefix s substr || Contains s' substr
  end.

(** [s[:n]], for [n] up to the length of [s]. *)
Fixpoint sliceTo (n : nat) (s : string) : string :=
  match n, s with
  | S n', String c s' => String c (sliceTo n' s')
  | _, _ => EmptyString
  end.

(** [strings.Join] *)
Fixpoint Join (elems : list string) (sep : string) : string :=
  match elems with
  | [] => EmptyString
  | [e] => e
  | e :: rest => e +:+ sep +:+ Join rest sep
  end.

(** [strings.ReplaceAll(s, old, new)] for an [old] that is not empty: the
    text is read from the left, each occurrence of [old] found is replaced
    and reading goes on behind it. [skip] counts the bytes of an occurrence
    still to pass over. *)
Fixpoint ReplaceAll_go (skip : nat) (s old new : string) : string :=
  match s with
  | EmptyString => EmptyString
  | String c s' =>
      match skip with
      | S skip' => ReplaceAll_go skip' s' old new
      | O =>
          if HasPrefix s old
          then new +:+ ReplaceAll_go (String.length old - 1) s' old new
          else String c (ReplaceAll_go 0 s' old new)
      end
  end.

Definition ReplaceAll (s old new : string) : string := ReplaceAll_go 0 s old new.

(** [strings.ToUpper(string(b))] for the byte [b]: the conversion gives the
    text of the rune whose code point is the value of the byte. *)
Definition upperOfByte {T : Unicode.Tables} (b : ascii) : string :=
  ToUpper (AppendRune (byte b)).

End MoreStrings.

Import MoreStrings.

Definition LF : string := String "010" EmptyString.

(** *** The types of [discordgo] the handlers use *)

Inductive InteractionType :=
| InteractionPing
| InteractionApplicationCommand
| InteractionMessageComponent
| InteractionApplicationCommandAutocomplete
| InteractionModalSubmit.

Global Instance InteractionType_eq_dec : EqDecision InteractionType.
Proof. solve_decision. Defined.

(** What the handlers read of a [discordgo.InteractionCreate]: [i_Member]
    and [i_User] are [i.Member.User.ID] and [i.User.ID] when the pointer is
    not nil, [i_Name] and [i_Options] are the name and the string values of
    the options of [i.ApplicationCommandData()], in their order. *)
Record InteractionCreate := {
  i_Type : InteractionType;
  i_GuildID : string;
  i_Member : option string;
  i_User : option string;
  i_Name : string;
  i_Options : list string
}.

Inductive InteractionResponseType :=
| InteractionResponseChannelMessageWithSource
| InteractionResponseDeferredChannelMessageWithSource.

(** [discordgo.MessageFlagsEphemeral], [1 << 6]; no flag is 0. *)
Definition MessageFlagsEphemeral : N := 64%N.

Record MessageEmbedField := {
  f_Name : string;
  f_Value : string;
  f_Inline : bool
}.

(** [e_Footer] is the text of the footer; [e_Timestamp] is empty when the
    field is not set. *)
Record MessageEmbed := {
  e_Title : string;
  e_Description : string;
  e_Color : N;
  e_Fields : list MessageEmbedField;
  e_Footer : string;
  e_Timestamp : string
}.

Record InteractionResponseData := {
  d_Content : string;
  d_Embeds : list MessageEmbed;
  d_Flags : N
}.

(** [r_Data] is [None] for a response without data. *)
Record InteractionResponse := {
  r_Type : InteractionResponseType;
  r_Data : option InteractionResponseData
}.

Record WebhookParams := {
  p_Content : string;
  p_Embeds : list MessageEmbed;
  p_Flags : N
}.

(** The calls on the session. *)
Inductive call :=
| InteractionRespond (resp : InteractionResponse)
| FollowupMessageCreate (wait : bool) (data : WebhookParams).

(** *** The RSS feed *)

Record Item := {
  item_Title : string;
  item_Link : string;
  item_Description : string;
  item_PubDate : string
}.

Record Channel := {
  channel_Title : string;
  channel_Description : string;
  channel_Items : list Item
}.

Record RSS := { rss_Channel : Channel }.

(** The answer to [client.Get(url)]: an error, or a status code with what
    [io.ReadAll(resp.Body)] gives, an error or the body. *)
Inductive GetResult :=
| GetFailed (err : string)
| GetResponse (StatusCode : N) (body : string + string).

Record Outside := {
  now : string; (* time.Now().Format(time.RFC3339) *)
  lookupOrder : list (string * string); (* the range that looks the topic up *)
  listingOrder : list (string * string); (* the range that lists the topics *)
  httpGet : string → GetResult;
  xmlUnmarshal : string → string + RSS (* the error, or the feed read *)
}.

(** The texts of the responses, as the source has them. *)

Definition onlyInServers : string :=
  "‚ùå Auto-reply commands only work in servers, not in DMs!".

Definition okPrefix : string :=
  "‚úÖ ".

Definition failedPrefix : string :=
  "‚ùå ".

Definition provideResponse : string :=
  "‚ùå Please provide a response message!".

Definition setUpTitle : string :=
  "‚úÖ Auto-Reply Set Up Successfully!".

Definition setUpDescription (trigger response : string) : string :=
  "**Trigger:** " +:+ trigger +:+ LF +:+ "**Response:** " +:+ response.

Definition setUpFooter : string :=
  "The bot will now automatically reply when someone sends the trigger message. Only you can modify this auto-reply.".

Definition noRules : string :=
  "üìù No auto-reply rules set up for this server.".

Definition listTitle : string :=
  "üìã Server Auto-Reply Rules".

Definition listDescription : string :=
  "Active rules for this server".

Definition totalRulesText (n : nat) : string :=
  "Total rules: " +:+ pretty n.

Definition byAuthor (authorID : string) : string :=
  " (by <@" +:+ authorID +:+ ">)".

Definition fieldName (trigger : string) : string :=
  "Trigger: " +:+ trigger.

Definition fieldValue (displayResponse authorInfo : string) : string :=
  "Response: " +:+ displayResponse +:+ authorInfo.

Definition publicMarker : string :=
  "bartard".

Definition helpTitle : string :=
  "ü§ñ Auto-Reply Bot Help".

Definition helpDescription : string :=
  "Smart auto-reply system for Discord servers".

Definition helpFooter : string :=
  "Use /reply to set up smart auto-replies for this server! Only you can modify rules you create.".

Definition helpFields : list MessageEmbedField :=
  [
    {| f_Name := "üìù `/reply [trigger] [response]`";
       f_Value := "Set up a new auto-reply rule for this server. When someone sends a message containing the trigger word, the bot will automatically respond.";
       f_Inline := false |};
    {| f_Name := "üóëÔ∏è `/reply [trigger] [response] remove`";
       f_Value := "Remove an existing auto-reply rule for the specified trigger in this server.";
       f_Inline := false |};
    {| f_Name := "üìã `/list_replies`";
       f_Value := "Show all active auto-reply rules for this server.";
       f_Inline := false |};
    {| f_Name := "‚ÑπÔ∏è How it works:";
       f_Value := "‚Ä¢ Triggers are case-insensitive and match whole words only" +:+ LF +:+ "‚Ä¢ Bot only works in servers where auto-replies have been set up" +:+ LF +:+ "‚Ä¢ Anyone can create new rules" +:+ LF +:+ "‚Ä¢ Only the original author can modify/delete their rules" +:+ LF +:+ "‚Ä¢ Rules are server-specific";
       f_Inline := false |};
    {| f_Name := "‚ö†Ô∏è Note:";
       f_Value := "‚Ä¢ Commands only work in servers, not in DMs" +:+ LF +:+ "‚Ä¢ The bot needs 'Send Messages' permission in channels where you want auto-replies to work" +:+ LF +:+ "‚Ä¢ Auto-replies only work in servers that have at least one rule set up";
       f_Inline := false |} ].

Definition commandsTitle : string :=
  "üéõÔ∏è Bot Commands".

Definition commandsDescription : string :=
  "All available commands for this bot".

Definition commandsFooter : string :=
  "üí° Tip: Use /help_reply for detailed auto-reply instructions".

Definition commandsFields : list MessageEmbedField :=
  [
    {| f_Name := "ü§ñ **Auto-Reply Commands**";
       f_Value := "`/reply` - Set up auto-reply rules" +:+ LF +:+ "`/list_replies` - Show server's auto-reply rules" +:+ LF +:+ "`/help_reply` - Help for auto-reply system";
       f_Inline := false |};
    {| f_Name := "üì∞ **News & Analysis Commands**";
       f_Value := "`/analisis` - Get latest financial news from Investing.com";
       f_Inline := false |};
    {| f_Name := "‚ÑπÔ∏è **Information Commands**";
       f_Value := "`/commands` - Show this list of all commands";
       f_Inline := false |};
    {| f_Name := "üìñ **Quick Usage Examples:**";
       f_Value := "‚Ä¢ `/reply kerja working hard!` - Create auto-reply" +:+ LF +:+ "‚Ä¢ `/analisis ringkasan pasar` - Get market news" +:+ LF +:+ "‚Ä¢ `/list_replies` - See all server replies" +:+ LF +:+ "‚Ä¢ `/help_reply` - Detailed auto-reply help";
       f_Inline := false |} ].

Definition provideTopic : string :=
  "‚ùå Please provide a topic! Example: `/analisis ringkasan pasar`".

Definition topicNotFound (topics : string) : string :=
  "‚ùå Topic not found! Available topics:" +:+ LF +:+ "‚Ä¢ " +:+ topics.

Definition topicSeparator : string :=
  LF +:+ "‚Ä¢ ".

Definition fetchFailed (err : string) : string :=
  "‚ùå Failed to fetch RSS feed: " +:+ err.

Definition noArticles : string :=
  "üì∞ No news articles found for this topic.".

Definition newsTitle (topic feed : string) : string :=
  "üì∞ " +:+ topic +:+ " - " +:+ feed.

Definition newsDescription : string :=
  "Latest news from Investing.com".

Definition newsFooter : string :=
  "Source: Investing.com".

Definition articleValue (description link : string) : string :=
  description +:+ LF +:+ LF +:+ "[Read More](" +:+ link +:+ ")".

Definition fetchError (err : string) : string :=
  "failed to fetch RSS feed: " +:+ err.

Definition httpError (status : N) : string :=
  "HTTP error: " +:+ pretty status.

Definition readError (err : string) : string :=
  "failed to read response body: " +:+ err.

Definition parseError (err : string) : string :=
  "failed to parse XML: " +:+ err.

(** [rssTopics]: the RSS topic mapping, as a list of its entries. *)
Definition rssTopicsEntries : list (string * string) :=
  [
    ("ringkasan pasar", "https://id.investing.com/rss/news_25.rss");
    ("analisis teknikal", "https://id.investing.com/rss/news_25.rss");
    ("analisis fundamental", "https://id.investing.com/rss/news_25.rss");
    ("opini", "https://id.investing.com/rss/news_25.rss");
    ("ide investasi", "https://id.investing.com/rss/news_25.rss");
    ("mata uang kripto", "https://id.investing.com/rss/news_301.rss");
    ("forex", "https://id.investing.com/rss/news_1.rss");
    ("saham", "https://id.investing.com/rss/news_25.rss");
    ("komoditas", "https://id.investing.com/rss/news_49.rss");
    ("berita", "https://id.investing.com/rss/news.rss");
    ("breaking news", "https://id.investing.com/rss/news.rss") ].

Definition embedColor : N := 65280%N. (* 0x00ff00 *)

Definition listColor : N := 3447003%N. (* 0x3498db *)

Definition helpColor : N := 10181046%N. (* 0x9b59b6 *)

Definition commandsColor : N := 3447003%N. (* 0x3498db *)

Definition newsColor : N := 2067276%N. (* 0x1f8b4c *)

(** [fetchRSSFeed] fetches and parses the RSS feed from the given URL. *)
Definition fetchRSSFeed (out : Outside) (url : string) : string + RSS :=
  match httpGet out url with
  | GetFailed err => inl (fetchError err)
  | GetResponse StatusCode body =>
      if decide (StatusCode ≠ 200%N) then inl (httpError StatusCode)
      else
        match body with
        | inl err => inl (readError err)
        | inr data =>
            match xmlUnmarshal out data with
            | inl err => inl (parseError err)
            | inr rss => inr rss
            end
        end
  end.

(** A response of type [InteractionResponseChannelMessageWithSource] with a
    text. *)
Definition respondText (content : string) (flags : N) : call :=
  InteractionRespond
    {| r_Type := InteractionResponseChannelMessageWithSource;
       r_Data := Some {| d_Content := content; d_Embeds := []; d_Flags := flags |} |}.

(** The same with an embed, which the handlers always send ephemeral. *)
Definition respondEmbed (embed : MessageEmbed) : call :=
  InteractionRespond
    {| r_Type := InteractionResponseChannelMessageWithSource;
       r_Data := Some {| d_Content := ""; d_Embeds := [embed];
                         d_Flags := MessageFlagsEphemeral |} |}.

(** Get user ID - handle both guild and DM interactions. *)
Definition userIDOf (i : InteractionCreate) : string :=
  match i_Member i with
  | Some id => id
  | None =>
      match i_User i with
      | Some id => id
      | None => ""
      end
  end.

(** The content and the flags of the response to a call that failed: if it
    is the custom bartard message it is made public, as it is; any other
    message is marked and stays ephemeral. *)
Definition failureNotice (message : string) : string * N :=
  if Contains message publicMarker then (message, 0%N)
  else (failedPrefix +:+ message, MessageFlagsEphemeral).

(** [handleReplyCommand] handles the /reply slash command. The result is
    [None] when [options[0]] is read from an empty slice, which panics. *)
Definition handleReplyCommand {T : Unicode.Tables} (env : Env)
    (i : InteractionCreate) (w : World) : option (list call * World) :=
  let options := i_Options i in
  (* Get guild ID - only work in servers, not DMs *)
  let guildID := i_GuildID i in
  if decide (guildID = "") then
    Some ([respondText onlyInServers MessageFlagsEphemeral], w)
  else
    let userID := userIDOf i in
    match options with
    | [] => None
    | trigger :: _ =>
        let response : string :=
          if decide (1 < length options)%nat then default "" (options !! 1%nat) else "" in
        let mode : string :=
          if decide (2 < length options)%nat then default "add" (options !! 2%nat) else "add" in
        if decide (ToLower mode = "remove") then
          let result := removeAutoReply env trigger userID guildID w in
          let success := result.1.1.1 in
          let message := result.1.1.2 in
          let w := result.2 in
          let notice : string * N :=
            if success then (okPrefix +:+ message, MessageFlagsEphemeral)
            else failureNotice message in
          Some ([respondText notice.1 notice.2], w)
        else if decide (response = "") then
          Some ([respondText provideResponse MessageFlagsEphemeral], w)
        else
          let result := addAutoReply env trigger response userID guildID w in
          let success := result.1.1.1 in
          let message := result.1.1.2 in
          let w := result.2 in
          if negb success then
            let notice := failureNotice message in
            Some ([respondText notice.1 notice.2], w)
          else
            let embed :=
              {| e_Title := setUpTitle;
                 e_Description := setUpDescription trigger response;
                 e_Color := embedColor;
                 e_Fields := [];
                 e_Footer := setUpFooter;
                 e_Timestamp := "" |} in
            Some ([respondEmbed embed], w)
    end.

(** The field of the list for one rule. *)
Definition listField (reply : AutoReply) : MessageEmbedField :=
  let displayResponse :=
    if decide (100 < String.length (Response reply))%nat
    then sliceTo 100 (Response reply) +:+ "..."
    else Response reply in
  let authorInfo :=
    if decide (AuthorID reply ≠ "") then byAuthor (AuthorID reply) else "" in
  {| f_Name := fieldName (Trigger reply);
     f_Value := fieldValue displayResponse authorInfo;
     f_Inline := false |}.

(** [handleListRepliesCommand] handles the /list_replies slash command. *)
Definition handleListRepliesCommand (i : InteractionCreate) (w : World) : list call :=
  (* Get guild ID - only work in servers, not DMs *)
  let guildID := i_GuildID i in
  if decide (guildID = "") then [respondText onlyInServers MessageFlagsEphemeral]
  else
    (* Check if this server has any auto-replies *)
    let serverReplies := index (serverAutoReplies w) guildID in
    if decide (len serverReplies = 0%nat) then
      [respondText noRules MessageFlagsEphemeral]
    else
      let embed :=
        {| e_Title := listTitle;
           e_Description := listDescription;
           e_Color := listColor;
           e_Fields := listField <$> elems serverReplies;
           e_Footer := totalRulesText (len serverReplies);
           e_Timestamp := "" |} in
      [respondEmbed embed].

(** [handleHelpCommand] handles the /help_reply slash command. *)
Definition handleHelpCommand : list call :=
  [respondEmbed
     {| e_Title := helpTitle;
        e_Description := helpDescription;
        e_Color := helpColor;
        e_Fields := helpFields;
        e_Footer := helpFooter;
        e_Timestamp := "" |}].

(** [handleCommandsCommand] handles the /commands slash command. *)
Definition handleCommandsCommand (out : Outside) : list call :=
  [respondEmbed
     {| e_Title := commandsTitle;
        e_Description := commandsDescription;
        e_Color := commandsColor;
        e_Fields := commandsFields;
        e_Footer := commandsFooter;
        e_Timestamp := now out |}].

(** [for key, url := range rssTopics { if strings.Contains(topic, key) ||
    key == topic { ... break } }], over the entries in the order of this run:
    [rssURL] and [foundTopic]. *)
Fixpoint findTopic (order : list (string * string)) (topic : string)
  : string * string :=
  match order with
  | [] => ("", "")
  | (key, url) :: rest =>
      if Contains topic key || String.eqb key topic then (url, key)
      else findTopic rest topic
  end.

(** Clean up description (remove HTML tags and limit length). *)
Definition cleanDescription (text : string) : string :=
  let description := ReplaceAll text "<![CDATA[" "" in
  let description := ReplaceAll description "]]>" "" in
  let description := ReplaceAll description "<p>" "" in
  let description := ReplaceAll description "</p>" "" in
  let description := ReplaceAll description "<br>" LF in
  let description := ReplaceAll description "<br/>" LF in
  if decide (200 < String.length description)%nat
  then sliceTo 200 description +:+ "..."
  else description.

Definition articleField (item : Item) : MessageEmbedField :=
  {| f_Name := item_Title item;
     f_Value := articleValue (cleanDescription (item_Description item)) (item_Link item);
     f_Inline := false |}.

Definition followupText (content : string) : call :=
  FollowupMessageCreate true
    {| p_Content := content; p_Embeds := []; p_Flags := MessageFlagsEphemeral |}.

(** [handleAnalisisCommand] handles the /analisis slash command for RSS
    feeds. The result is [None] when [foundTopic[0]] is read from the empty
    string, which panics. *)
Definition handleAnalisisCommand {T : Unicode.Tables} (out : Outside)
    (i : InteractionCreate) : option (list call) :=
  let options := i_Options i in
  match options with
  | [] => Some [respondText provideTopic MessageFlagsEphemeral]
  | option0 :: _ =>
      let topic := ToLower option0 in
      (* Find matching RSS URL *)
      let '(rssURL, foundTopic) := findTopic (lookupOrder out) topic in
      if decide (rssURL = "") then
        (* Show available topics *)
        let availableTopics := fst <$> listingOrder out in
        Some [respondText (topicNotFound (Join availableTopics topicSeparator))
                MessageFlagsEphemeral]
      else
        (* Defer the response since fetching RSS might take time *)
        let deferred :=
          InteractionRespond
            {| r_Type := InteractionResponseDeferredChannelMessageWithSource;
               r_Data := None |} in
        (* Fetch RSS feed *)
        match fetchRSSFeed out rssURL with
        | inl err => Some [deferred; followupText (fetchFailed err)]
        | inr rss =>
            let items := channel_Items (rss_Channel rss) in
            if decide (length items = 0%nat) then
              Some [deferred; followupText noArticles]
            else
              match foundTopic with
              | EmptyString => None
              | String first rest =>
                  (* Create embed with latest news (limit to 5 articles) *)
                  let maxItems := if decide (length items < 5)%nat then length items else 5%nat in
                  let embed :=
                    {| e_Title := newsTitle (upperOfByte first +:+ rest)
                                    (channel_Title (rss_Channel rss));
                       e_Description := newsDescription;
                       e_Color := newsColor;
                       e_Fields := articleField <$> take maxItems items;
                       e_Footer := newsFooter;
                       e_Timestamp := now out |} in
                  Some [deferred;
                        FollowupMessageCreate true
                          {| p_Content := ""; p_Embeds := [embed]; p_Flags := 0%N |}]
              end
        end
  end.

(** [interactionCreate] handles slash command interactions. *)
Definition interactionCreate {T : Unicode.Tables} (env : Env) (out : Outside)
    (i : InteractionCreate) (w : World) : option (list call * World) :=
  if decide (i_Type i ≠ InteractionApplicationCommand) then Some ([], w)
  else if decide (i_Name i = "reply") then handleReplyCommand env i w
  else if decide (i_Name i = "list_replies") then
    Some (handleListRepliesCommand i w, w)
  else if decide (i_Name i = "help_reply") then Some (handleHelpCommand, w)
  else if decide (i_Name i = "analisis") then
    (λ calls, (calls, w)) <$> handleAnalisisCommand out i
  else if decide (i_Name i = "commands") then Some (handleCommandsCommand out, w)
  else Some ([], w).

(** An interaction of a member of the guild S1. *)
Definition command (name : string) (options : list string) (userID : string)
  : InteractionCreate :=
  {| i_Type := InteractionApplicationCommand; i_GuildID := "S1";
     i_Member := Some userID; i_User := None;
     i_Name := name; i_Options := options |}.

(** A run in which the map is walked in the order of its literal and the
    feed holds one article. *)
Definition oneArticle : RSS :=
  {| rss_Channel :=
       {| channel_Title := "Investing.com";
          channel_Description := "";
          channel_Items :=
            [{| item_Title := "Markets"; item_Link := "https://example.org/1";
                item_Description := "<p>Up<br>and down</p>"; item_PubDate := "" |}] |} |}.

Definition quietOutside : Outside :=
  {| now := "2025-01-01T00:00:00Z";
     lookupOrder := rssTopicsEntries;
     listingOrder := rssTopicsEntries;
     httpGet := λ _, GetResponse 200 (inr "<rss/>");
     xmlUnmarshal := λ _, inr oneArticle |}.


(** * Facts about the decoding of UTF-8 *)

Module Utf8Facts.

Local Open Scope N_scope.

Lemma append_nil_l (s : string) : "" +:+ s = s.
Proof. done. Qed.

Lemma append_cons (c : ascii) (s t : string) :
  String c s +:+ t = String c (s +:+ t).
Proof. done. Qed.

Lemma append_nil_r (s : string) : s +:+ "" = s.
Proof. induction s; [done|]. by rewrite append_cons, IHs. Qed.

Lemma append_assoc (s t u : string) : (s +:+ t) +:+ u = s +:+ t +:+ u.
Proof. induction s; [done|]. by rewrite !append_cons, IHs. Qed.

Lemma append_eq_nil (s t : string) : s +:+ t = "" → s = "" ∧ t = "".
Proof. destruct s; [done|]. by rewrite append_cons. Qed.

Lemma length_append (a b : string) :
  String.length (a +:+ b) = (String.length a + String.length b)%nat.
Proof. induction a as [|c a IH]; [done|]. rewrite append_cons. simpl. lia. Qed.

Lemma all_app (f : ascii → bool) (s t : string) :
  all f (s +:+ t) = all f s && all f t.
Proof.
  induction s; [done|]. rewrite append_cons. simpl.
  by rewrite IHs, andb_assoc.
Qed.

Lemma within_bounds lo hi c : within lo hi c = true ↔ lo ≤ byte c ≤ hi.
Proof. unfold within. rewrite andb_true_iff, !N.leb_le. done. Qed.

(** What [first] says of a byte that starts a sequence. *)
Lemma first_Sequence c size lo hi :
  first c = Sequence size lo hi → 194 ≤ byte c ∧ 128 ≤ lo.
Proof.
  unfold first.
  repeat match goal with
    | |- context [N.ltb ?a ?b] => destruct (N.ltb_spec a b)
    | |- context [N.eqb ?a ?b] => destruct (N.eqb_spec a b)
    end; intros [= <- <- <-] || intros [=]; lia.
Qed.

Lemma first_Single c : first c = Single ↔ byte c < 128.
Proof.
  unfold first.
  repeat match goal with
    | |- context [N.ltb ?a ?b] => destruct (N.ltb_spec a b)
    | |- context [N.eqb ?a ?b] => destruct (N.eqb_spec a b)
    end; split; try done; lia.
Qed.

Lemma first_Invalid c : first c = Invalid → 128 ≤ byte c.
Proof.
  unfold first.
  repeat match goal with
    | |- context [N.ltb ?a ?b] => destruct (N.ltb_spec a b)
    | |- context [N.eqb ?a ?b] => destruct (N.eqb_spec a b)
    end; intros [=]; lia.
Qed.

(** The fixpoint [runes] goes through the text as [DecodeRuneInString]
    reads it. *)
Lemma runes_decode (s : string) :
  runes s = match DecodeRuneInString s with
            | None => []
            | Some (r, bs, rest) => (r, bs) :: runes rest
            end.
Proof.
  destruct s as [|s0 t1]; [done|]. simpl.
  destruct (first s0) as [| |size lo hi]; [done..|].
  destruct size as [|[|[|[|[|size]]]]]; try done;
    destruct t1 as [|s1 [|s2 [|s3 t4]]]; try done;
    repeat case_match; done.
Qed.

(** What is read as one rune: its bytes head the text; they are one byte
    below 0x80, whose value is the rune, or bytes from 0x80 upwards only. *)
Lemma DecodeRuneInString_Some (s : string) r bs rest :
  DecodeRuneInString s = Some (r, bs, rest) →
  s = bs +:+ rest ∧ bs ≠ "" ∧
  (String.length rest < String.length s)%nat ∧
  ((∃ b, bs = String b "" ∧ byte b < 128 ∧ r = byte b) ∨ all high bs = true).
Proof.
  destruct s as [|s0 t1]; [done|]. simpl.
  assert (∀ x, x = Some (RuneError, String s0 "", t1) →
               128 ≤ byte s0 →
               x = Some (r, bs, rest) →
               String s0 t1 = bs +:+ rest ∧ bs ≠ "" ∧
               (String.length rest < String.length (String s0 t1))%nat ∧
               ((∃ b, bs = String b "" ∧ byte b < 128 ∧ r = byte b)
                ∨ all high bs = true)) as Hinvalid.
  { intros x -> Hs0 [= <- <- <-]. split_and!; [done|done|simpl; lia|].
    right. simpl. unfold high. rewrite andb_true_r. by apply N.leb_le. }
  destruct (first s0) as [| |size lo hi] eqn:Hfirst.
  - intros [= <- <- <-]. split_and!; [done|done|simpl; lia|].
    left. exists s0. by rewrite <- first_Single.
  - apply Hinvalid; [done|]. by apply first_Invalid.
  - apply first_Sequence in Hfirst as [Hs0 Hlo].
    assert (128 ≤ byte s0) as Hs0' by lia.
    assert (high s0 = true) as Hh0 by (unfold high; by apply N.leb_le).
    assert (∀ c, within lo hi c = true → high c = true) as Hwithin.
    { intros c [? _]%within_bounds. unfold high. apply N.leb_le. lia. }
    assert (∀ c, continuation c = true → high c = true) as Hcont.
    { intros c [? _]%within_bounds. unfold high. by apply N.leb_le. }
    destruct size as [|[|[|[|[|size]]]]]; try (by apply Hinvalid);
      destruct t1 as [|s1 [|s2 [|s3 t4]]]; try (by apply Hinvalid).
    all: repeat match goal with
           | |- context [if ?b then _ else _] => destruct b eqn:?
           end; try (by apply Hinvalid).
    all: intros [= <- <- <-]; split_and!; [done|done|simpl; lia|right; simpl].
    all: repeat match goal with
           | H : _ && _ = true |- _ => apply andb_true_iff in H as [? ?]
           end.
    all: rewrite Hh0, ?Hwithin, ?Hcont by done; done.
Qed.

Lemma DecodeRuneInString_None (s : string) :
  DecodeRuneInString s = None ↔ s = "".
Proof.
  destruct s as [|s0 t1]; [done|]. split; [|done]. simpl.
  destruct (first s0) as [| |size lo hi]; [done..|].
  destruct size as [|[|[|[|[|size]]]]]; try done;
    destruct t1 as [|s1 [|s2 [|s3 t4]]]; try done;
    repeat case_match; done.
Qed.

(** Induction along the runes of a text. *)
Lemma runes_ind (P : string → Prop) :
  P "" →
  (∀ s r bs rest, DecodeRuneInString s = Some (r, bs, rest) → P rest → P s) →
  ∀ s, P s.
Proof.
  intros Hnil Hstep s.
  remember (String.length s) as n eqn:Hn. revert s Hn.
  induction n as [n IH] using lt_wf_ind. intros s ->.
  destruct (DecodeRuneInString s) as [[[r bs] rest]|] eqn:Hd.
  - apply (Hstep s r bs rest Hd).
    apply DecodeRuneInString_Some in Hd as (_ & _ & Hlen & _).
    by apply (IH (String.length rest)).
  - apply DecodeRuneInString_None in Hd as ->. done.
Qed.

Lemma bytes_app (a b : list (N * string)) : bytes (a ++ b) = bytes a +:+ bytes b.
Proof.
  induction a as [|c a IH]; [done|]. simpl. by rewrite IH, append_assoc.
Qed.

(** The bytes of the runes of a text are the text. *)
Lemma bytes_runes (s : string) : bytes (runes s) = s.
Proof.
  induction s as [|s r bs rest Hd IH] using runes_ind; [done|].
  rewrite runes_decode, Hd. simpl. rewrite IH.
  by apply DecodeRuneInString_Some in Hd as (-> & _).
Qed.

(** Every rune of a text is read from bytes, one byte below 0x80 whose
    value it is, or bytes from 0x80 upwards. *)
Lemma runes_well_read (s : string) : Forall well_read (runes s).
Proof.
  induction s as [|s r bs rest Hd IH] using runes_ind; [constructor|].
  rewrite runes_decode, Hd. constructor; [|done].
  by apply DecodeRuneInString_Some in Hd as (_ & ? & _ & ?).
Qed.

Lemma bytes_nil (rs : list (N * string)) :
  Forall well_read rs → bytes rs = "" → rs = [].
Proof.
  destruct rs as [|c rs]; [done|]. intros [Hne _]%Forall_cons_1. simpl.
  intros [? _]%append_eq_nil. by destruct Hne.
Qed.

Lemma runes_cons_ascii (c : ascii) (s : string) :
  byte c < 128 → runes (String c s) = (byte c, String c "") :: runes s.
Proof. intros Hc%first_Single. simpl. by rewrite Hc. Qed.

(** An ASCII byte ends the rune before it, whatever that rune is read
    from. *)
Lemma DecodeRuneInString_app_ascii (a : string) (c : ascii) (b : string) r bs rest :
  byte c < 128 →
  DecodeRuneInString a = Some (r, bs, rest) →
  DecodeRuneInString (a +:+ String c b) = Some (r, bs, rest +:+ String c b).
Proof.
  intros Hc. destruct a as [|s0 t1]; [done|]. rewrite append_cons. simpl.
  destruct (first s0) as [| |size lo hi] eqn:Hfirst;
    [by intros [= <- <- <-]..|].
  apply first_Sequence in Hfirst as [_ Hlo].
  assert (within lo hi c = false) as Hw.
  { unfold within. apply andb_false_iff. left. apply N.leb_gt. lia. }
  assert (continuation c = false) as Hk.
  { unfold continuation, within. apply andb_false_iff. left. apply N.leb_gt. lia. }
  destruct size as [|[|[|[|[|size]]]]];
    destruct t1 as [|s1 [|s2 [|s3 t4]]]; simpl;
    rewrite ?Hw, ?Hk, ?andb_false_r; simpl;
    intros Hd; repeat case_match; simplify_eq; try done;
    rewrite ?Hw, ?Hk, ?andb_false_r in *; try done.
Qed.

Lemma runes_app_ascii (a : string) (c : ascii) (b : string) :
  byte c < 128 →
  runes (a +:+ String c b) = runes a ++ (byte c, String c "") :: runes b.
Proof.
  intros Hc. induction a as [|a r bs rest Hd IH] using runes_ind.
  - by apply runes_cons_ascii.
  - rewrite (runes_decode (a +:+ _)), (runes_decode a).
    rewrite (DecodeRuneInString_app_ascii _ _ _ _ _ _ Hc Hd), Hd.
    by rewrite IH.
Qed.

(** The runes of an ASCII text are its bytes. *)
Lemma runes_ascii (c : ascii) (s : string) :
  isASCII (String c s) = true →
  runes (String c s) = (byte c, String c "") :: runes s ∧ isASCII s = true.
Proof.
  unfold isASCII. simpl. intros [Hc Hs]%andb_true_iff.
  split; [|done]. apply runes_cons_ascii. by apply N.ltb_lt.
Qed.

Lemma runes_nil (s : string) : runes s = [] ↔ s = "".
Proof.
  split; [|by intros ->]. intros Hr.
  rewrite <- (bytes_runes s), Hr. done.
Qed.

End Utf8Facts.

(** * Facts about the string functions *)

Module StringFacts.

Import Utf8Facts.

Local Open Scope N_scope.

Lemma N_of_ascii_inj (a b : ascii) : N_of_ascii a = N_of_ascii b → a = b.
Proof.
  intros H. rewrite <- (ascii_N_embedding a), <- (ascii_N_embedding b).
  by rewrite H.
Qed.




Section with_tables.

Context {T : Unicode.Tables}.

(** On two ASCII bytes the loop over the runes decides as the loop over
    the bytes does. *)
Lemma equalFoldRune_byte (a b : ascii) :
  byte a < 128 → byte b < 128 →
  equalFoldRune (byte a) (byte b) = equalFoldByte a b.
Proof.
  intros Ha Hb. unfold equalFoldRune, equalFoldByte, byte, RuneSelf in *.
  destruct (Ascii.eqb_spec a b) as [->|Hne].
  - by rewrite N.eqb_refl.
  - assert (N_of_ascii b ≠ N_of_ascii a) as Hn by (intros ?%N_of_ascii_inj; done).
    apply N.eqb_neq in Hn. rewrite Hn.
    destruct (N.ltb_spec (N_of_ascii b) (N_of_ascii a));
      match goal with
      | |- context [N.ltb ?x 128] => destruct (N.ltb_spec x 128)
      end; try done; lia.
Qed.

(** [EqualFold] compares the runes of the two texts, from their first
    byte on. *)
Lemma EqualFold_runes (s t : string) :
  EqualFold s t = hasUnicode (runes s).*1 (runes t).*1.
Proof.
  revert t. induction s as [|a s IH]; intros [|b t]; try done.
  - rewrite (runes_decode (String b t)).
    destruct (DecodeRuneInString (String b t)) as [[[r bs] rest]|] eqn:Hd; [done|].
    by apply DecodeRuneInString_None in Hd.
  - rewrite (runes_decode (String a s)).
    destruct (DecodeRuneInString (String a s)) as [[[r bs] rest]|] eqn:Hd; [done|].
    by apply DecodeRuneInString_None in Hd.
  - cbn [EqualFold]. unfold RuneSelf.
    destruct (N.leb_spec 128 (byte a)); [done|].
    destruct (N.leb_spec 128 (byte b)); [done|]. cbn [orb].
    rewrite !runes_cons_ascii by done. cbn [fmap list_fmap fst hasUnicode].
    by rewrite equalFoldRune_byte, IH.
Qed.

(** Two runes are taken for equal exactly when they are of one orbit. *)
Lemma equalFoldRune_orbit (a b : N) :
  equalFoldRune a b = true ↔ Unicode.orbitMin a = Unicode.orbitMin b.
Proof.
  unfold equalFoldRune, RuneSelf.
  destruct (N.eqb_spec b a) as [->|Hne]; [done|].
  destruct (N.ltb_spec b a) as [Hlt|Hge].
  - destruct (N.ltb_spec a 128) as [Ha|Ha].
    + unfold Unicode.orbitMin, Unicode.isLowerASCII.
      replace (a <? 128) with true by (symmetry; apply N.ltb_lt; lia).
      replace (b <? 128) with true by (symmetry; apply N.ltb_lt; lia).
      split; bytes.
    + rewrite N.eqb_eq. split; congruence.
  - destruct (N.ltb_spec b 128) as [Hb|Hb].
    + unfold Unicode.orbitMin, Unicode.isLowerASCII.
      replace (a <? 128) with true by (symmetry; apply N.ltb_lt; lia).
      replace (b <? 128) with true by (symmetry; apply N.ltb_lt; lia).
      split; bytes.
    + by rewrite N.eqb_eq.
Qed.

Lemma hasUnicode_fold (s t : list N) :
  hasUnicode s t = true ↔ Unicode.orbitMin <$> s = Unicode.orbitMin <$> t.
Proof.
  revert t. induction s as [|a s IH]; intros [|b t]; try done.
  rewrite !fmap_cons. cbn [hasUnicode].
  destruct (equalFoldRune a b) eqn:Hab.
  - apply equalFoldRune_orbit in Hab. rewrite IH, Hab.
    split; [by intros ->|]. by intros [=].
  - split; [done|]. intros [= Hc _].
    apply equalFoldRune_orbit in Hc. congruence.
Qed.

(** Two texts are equal under [EqualFold] exactly when they have the same
    folding. *)
Lemma EqualFold_fold (s t : string) :
  EqualFold s t = true ↔ foldString s = foldString t.
Proof. rewrite EqualFold_runes. apply hasUnicode_fold. Qed.

Lemma EqualFold_refl (s : string) : EqualFold s s = true.
Proof. by apply EqualFold_fold. Qed.

Lemma EqualFold_sym (s t : string) : EqualFold s t = EqualFold t s.
Proof.
  destruct (EqualFold s t) eqn:H1, (EqualFold t s) eqn:H2; try done.
  - apply EqualFold_fold in H1. symmetry in H1.
    apply EqualFold_fold in H1. congruence.
  - apply EqualFold_fold in H2. symmetry in H2.
    apply EqualFold_fold in H2. congruence.
Qed.

Lemma EqualFold_trans (s t u : string) :
  EqualFold s t = true → EqualFold t u = true → EqualFold s u = true.
Proof. rewrite !EqualFold_fold. congruence. Qed.

End with_tables.

End StringFacts.

Module FieldsFacts.

Import Utf8Facts.

Local Open Scope N_scope.

Lemma last_byte_snoc (s : string) (c : ascii) :
  last_byte (s +:+ String c "") = Some c.
Proof.
  induction s as [|d s IH]; [done|]. rewrite append_cons. simpl.
  rewrite IH. destruct s; [done|]. by rewrite append_cons.
Qed.

Lemma last_byte_app (s t : string) :
  t ≠ "" → last_byte (s +:+ t) = last_byte t.
Proof.
  intros Ht. induction s as [|d s IH]; [done|]. rewrite append_cons. simpl.
  rewrite IH. destruct (s +:+ t) eqn:E; [|done].
  by apply append_eq_nil in E as [_ ?].
Qed.

Lemma flush_nonempty (f : string) : f ≠ "" → flush f = [f].
Proof. by destruct f. Qed.

Lemma elem_of_flush (w f : string) : w ∈ flush f ↔ w = f ∧ f ≠ "".
Proof.
  destruct f as [|c f]; simpl.
  - rewrite elem_of_nil. by split; [|intros [_ ?]].
  - rewrite list_elem_of_singleton. by split; [intros ->|intros [-> _]].
Qed.

(** Below 0x80 the white space of [unicode.IsSpace] is that of the table
    [asciiSpace]. *)
Lemma IsSpace_byte (c : ascii) :
  byte c < 128 → Unicode.IsSpace (byte c) = asciiSpace c.
Proof.
  unfold Unicode.IsSpace, asciiSpace, byte. intros Hc.
  generalize dependent (N_of_ascii c). intros n Hn. bytes.
Qed.

Lemma asciiSpace_byte (c : ascii) : asciiSpace c = true → byte c < 128.
Proof. unfold asciiSpace, byte. generalize (N_of_ascii c). intros n. bytes. Qed.

(** The ASCII loop of [Fields] finds the fields that [FieldsFunc] finds. *)
Lemma Fields_go_runes (field s : string) :
  isASCII s = true →
  Fields_go field s = FieldsFunc_go Unicode.IsSpace field (runes s).
Proof.
  revert field. induction s as [|c s IH]; intros field Hs; [done|].
  apply runes_ascii in Hs as Hr. destruct Hr as [-> Hs'].
  assert (byte c < 128) as Hc.
  { unfold isASCII in Hs. simpl in Hs.
    by apply andb_true_iff in Hs as [?%N.ltb_lt _]. }
  cbn [Fields_go FieldsFunc_go fst snd]. rewrite IsSpace_byte by done.
  by rewrite !IH.
Qed.

Lemma Fields_runes (s : string) :
  Fields s = FieldsFunc_go Unicode.IsSpace "" (runes s).
Proof.
  unfold Fields. destruct (isASCII s) eqn:Hs; [|done]. by apply Fields_go_runes.
Qed.

(** A run without white space is read whole into the current field. *)
Lemma FieldsFunc_go_run (run after : list (N * string)) (field : string) :
  Forall notSpace run →
  bounded_by_space (head after) →
  FieldsFunc_go Unicode.IsSpace field (run ++ after)
  = flush (field +:+ bytes run) ++ FieldsFunc_go Unicode.IsSpace "" after.
Proof.
  revert field. induction run as [|c run IH]; intros field Hrun Hafter.
  - simpl. rewrite append_nil_r. destruct after as [|d after].
    + simpl. by rewrite app_nil_r.
    + simpl in *. unfold isSpace in Hafter. by rewrite Hafter.
  - apply Forall_cons_1 in Hrun as [Hc Hrun]. unfold notSpace in Hc.
    simpl. rewrite Hc, IH by done. by rewrite append_assoc.
Qed.

Lemma run_in_FieldsFunc_go (before run after : list (N * string)) (field : string) :
  bytes run ≠ "" → Forall notSpace run →
  bounded_by_space (last before) →
  bounded_by_space (head after) →
  before ≠ [] →
  bytes run ∈ FieldsFunc_go Unicode.IsSpace field (before ++ run ++ after).
Proof.
  intros Hne Hrun Hbefore Hafter. revert field.
  induction before as [|c before IH]; intros field Hb; [done|].
  destruct before as [|d before].
  - simpl in Hbefore. unfold isSpace in Hbefore. simpl. rewrite Hbefore.
    rewrite FieldsFunc_go_run, append_nil_l by done.
    rewrite (flush_nonempty (bytes run)) by done. set_solver.
  - assert (bytes run ∈ FieldsFunc_go Unicode.IsSpace
                          (if Unicode.IsSpace c.1 then "" else field +:+ c.2)
                          ((d :: before) ++ run ++ after)) as Hin
      by (apply IH; done).
    change ((c :: d :: before) ++ run ++ after)
      with (c :: ((d :: before) ++ run ++ after)).
    cbn [FieldsFunc_go]. destruct (Unicode.IsSpace c.1); [set_solver|done].
Qed.

Lemma FieldsFunc_go_word_of (l acc done : list (N * string)) (w : string) :
  Forall notSpace acc →
  bounded_by_space (last done) →
  w ∈ FieldsFunc_go Unicode.IsSpace (bytes acc) l →
  ∃ before run after,
    done ++ acc ++ l = before ++ run ++ after ∧
    w = bytes run ∧ run ≠ [] ∧ Forall notSpace run ∧
    bounded_by_space (last before) ∧
    bounded_by_space (head after).
Proof.
  revert acc done. induction l as [|c l IH]; intros acc done Hacc Hdone Hin.
  - simpl in Hin. apply elem_of_flush in Hin as [-> Hne].
    exists done, acc, []. split_and!; try done. by intros ->.
  - cbn [FieldsFunc_go] in Hin. destruct (Unicode.IsSpace c.1) eqn:Hc.
    + apply elem_of_app in Hin as [Hin|Hin].
      * apply elem_of_flush in Hin as [-> Hne].
        exists done, acc, (c :: l). split_and!; try done. by intros ->.
      * apply (IH [] (done ++ acc ++ [c])) in Hin as
          (before & run & after & Heq & ?); [|constructor|].
        -- exists before, run, after. split; [|done]. rewrite <- Heq.
           by rewrite <- !(assoc_L (++)).
        -- rewrite !(assoc_L (++)), last_snoc. done.
    + replace (bytes acc +:+ c.2) with (bytes (acc ++ [c])) in Hin
        by (rewrite bytes_app; simpl; by rewrite append_nil_r).
      apply (IH _ done) in Hin as (before & run & after & Heq & ?);
        [| |done].
      * exists before, run, after. split; [|done]. rewrite <- Heq.
        by rewrite <- !(assoc_L (++)).
      * apply Forall_app. split; [done|]. by repeat constructor.
Qed.

(** [Fields] returns the whitespace-split words of the text, and nothing
    else. *)
Lemma elem_of_Fields (w s : string) : w ∈ Fields s ↔ word_of w s.
Proof.
  rewrite Fields_runes. split.
  - intros Hin. by apply (FieldsFunc_go_word_of (runes s) [] []) in Hin.
  - intros (before & run & after & Hrunes & -> & Hne & Hrun & Hb & Ha).
    rewrite Hrunes.
    assert (bytes run ≠ "") as Hbytes.
    { intros Hnil. apply Hne. apply bytes_nil; [|done].
      pose proof (runes_well_read s) as Hwr. rewrite Hrunes in Hwr.
      by apply Forall_app in Hwr as [_ [? _]%Forall_app]. }
    destruct before as [|c before].
    + simpl. rewrite FieldsFunc_go_run, append_nil_l by done.
      rewrite (flush_nonempty (bytes run)) by done. set_solver.
    + by apply run_in_FieldsFunc_go.
Qed.


(** A text without white space that is not empty is its one word. *)
Lemma Fields_one_word (s : string) :
  s ≠ "" → Forall notSpace (runes s) → Fields s = [s].
Proof.
  intros Hne Hs. rewrite Fields_runes.
  rewrite <- (app_nil_r (runes s)), FieldsFunc_go_run by done.
  rewrite append_nil_l, bytes_runes. simpl. by rewrite flush_nonempty.
Qed.

End FieldsFacts.

Module TrimFacts.

Import Utf8Facts FieldsFacts.

Section trim.

Variable f : ascii → bool.


Lemma trimRight_all (s : string) : all f s = true → trimRight f s = "".
Proof.
  induction s as [|c s IH]; [done|]. simpl.
  intros [Hc Hs]%andb_true_iff. by rewrite IH, Hc.
Qed.

Lemma trimRight_app_all (u p : string) :
  all f p = true → trimRight f (u +:+ p) = trimRight f u.
Proof.
  intros Hp. induction u as [|c u IH].
  - rewrite append_nil_l. by apply trimRight_all.
  - rewrite append_cons. simpl. by rewrite IH.
Qed.

Lemma trimRight_fixed (u : string) :
  bounded_by (negate f) (last_byte u) → trimRight f u = u.
Proof.
  induction u as [|c u IH]; [done|]. destruct u as [|d u].
  - simpl. unfold negate. by intros ->%negb_true_iff.
  - intros Hl. change (trimRight f (String c (String d u)))
      with (match trimRight f (String d u) with
            | "" => if f c then "" else String c ""
            | r => String c r
            end).
    by rewrite IH.
Qed.

Lemma trimLeft_app_all (p t : string) :
  all f p = true → trimLeft f (p +:+ t) = trimLeft f t.
Proof.
  induction p as [|c p IH]; [done|]. simpl.
  intros [Hc Hp]%andb_true_iff. rewrite Hc. by apply IH.
Qed.

Lemma trimLeft_fixed (t : string) :
  bounded_by (negate f) (first_byte t) → trimLeft f t = t.
Proof.
  destruct t as [|c t]; [done|]. simpl. unfold negate.
  by intros ->%negb_true_iff.
Qed.

Lemma trimRight_split (s : string) :
  ∃ p, s = trimRight f s +:+ p ∧ all f p = true
       ∧ bounded_by (negate f) (last_byte (trimRight f s)).
Proof.
  induction s as [|c s (p & Hs & Hp & Hl)]; [by exists ""|].
  simpl. destruct (trimRight f s) as [|d r] eqn:Hr.
  - destruct (f c) eqn:Hc.
    + exists (String c p). rewrite append_nil_l in *. simpl.
      by rewrite Hc, Hp, <- Hs.
    + exists p. rewrite append_cons, <- Hs. simpl. unfold negate.
      by rewrite Hc.
  - exists p. by rewrite append_cons, <- Hs.
Qed.

Lemma trimLeft_split (s : string) :
  ∃ p, s = p +:+ trimLeft f s ∧ all f p = true
       ∧ bounded_by (negate f) (first_byte (trimLeft f s)).
Proof.
  induction s as [|c s (p & Hs & Hp & Hl)]; [by exists ""|].
  simpl. destruct (f c) eqn:Hc.
  - exists (String c p). rewrite append_cons, <- Hs. simpl.
    by rewrite Hc, Hp.
  - exists "". simpl. unfold negate. by rewrite Hc.
Qed.

Lemma last_byte_trimLeft (s : string) :
  bounded_by (negate f) (last_byte s) →
  bounded_by (negate f) (last_byte (trimLeft f s)).
Proof.
  destruct (trimLeft_split s) as (p & Hs & _ & _).
  destruct (trimLeft f s) as [|c t] eqn:Ht; [done|].
  intros Hl. rewrite Hs in Hl. by rewrite last_byte_app in Hl.
Qed.

(** [trimLeft f (trimRight f s)] is the one way of taking bytes that
    satisfy [f], and only such bytes, off both ends of [s] until none is
    left at either end. *)
Lemma trim_iff (s t : string) :
  trimLeft f (trimRight f s) = t ↔
  ∃ leading trailing,
    s = leading +:+ t +:+ trailing ∧
    all f leading = true ∧ all f trailing = true ∧
    bounded_by (negate f) (first_byte t) ∧
    bounded_by (negate f) (last_byte t).
Proof.
  split.
  - intros <-.
    destruct (trimRight_split s) as (tr & Hs & Htr & Hl).
    destruct (trimLeft_split (trimRight f s)) as (ld & Hr & Hld & Hf).
    exists ld, tr. split_and!; [|done|done|done|by apply last_byte_trimLeft].
    by rewrite <- append_assoc, <- Hr.
  - intros (ld & tr & -> & Hld & Htr & Hf & Hl).
    rewrite <- append_assoc, trimRight_app_all by done.
    destruct t as [|c t].
    + rewrite append_nil_r, trimRight_all by done. done.
    + rewrite trimRight_fixed.
      * rewrite trimLeft_app_all by done. by apply trimLeft_fixed.
      * by rewrite last_byte_app.
Qed.

End trim.

Lemma Trim_stripped (word token : string) :
  Trim word punctuation = token ↔ stripped word token.
Proof. apply trim_iff. Qed.

End TrimFacts.

Module MatcherFacts.

Import Utf8Facts StringFacts FieldsFacts TrimFacts.

Lemma containsWholeWord_range_true (words : list string) (trigger : string) :
  containsWholeWord_range words trigger = true ↔
  ∃ word, word ∈ words ∧ Trim word punctuation = trigger.
Proof.
  induction words as [|w words IH]; simpl.
  - split; [done|]. by intros (? & ?%elem_of_nil & _).
  - destruct (String.eqb_spec (Trim w punctuation) trigger) as [Heq|Hne].
    + split; [|done]. intros _. exists w. split; [left|done].
    + rewrite IH. split.
      * intros (word & Hin & Ht). exists word. split; [by right|done].
      * intros (word & [->|Hin]%elem_of_cons & Ht); [done|by exists word].
Qed.

(** The matcher answers whether the trigger is a standalone token of the
    message it is given. *)
Lemma containsWholeWord_standalone (message trigger : string) :
  containsWholeWord message trigger = true ↔ standalone_token trigger message.
Proof.
  unfold containsWholeWord, standalone_token.
  rewrite containsWholeWord_range_true.
  split; intros (word & Hw & Ht); exists word.
  - by rewrite <- elem_of_Fields, <- Trim_stripped.
  - by rewrite elem_of_Fields, Trim_stripped.
Qed.

End MatcherFacts.

Module StoreFacts.

Import Utf8Facts StringFacts.

Section with_tables.

Context {T : Unicode.Tables}.


Lemma unique_triggers_NoDup (replies : list AutoReply) :
  unique_triggers replies ↔ NoDup (foldKeys replies).
Proof.
  unfold unique_triggers, foldKeys. rewrite NoDup_alt. split.
  - intros H i j x Hi Hj.
    apply list_lookup_fmap_Some in Hi as (ri & -> & Hi).
    apply list_lookup_fmap_Some in Hj as (rj & Hx & Hj).
    apply (H i j ri rj Hi Hj). by apply EqualFold_fold.
  - intros H i j ri rj Hi Hj Hf%EqualFold_fold.
    apply (H i j (foldString (Trigger ri))); rewrite list_lookup_fmap.
    + by rewrite Hi.
    + by rewrite Hj, Hf.
Qed.

Lemma foldKeys_alter (f : AutoReply → AutoReply) (i : nat) replies :
  (∀ r, Trigger (f r) = Trigger r) →
  foldKeys (alter f i replies) = foldKeys replies.
Proof.
  intros Hf. unfold foldKeys. revert i.
  induction replies as [|r replies IH]; intros [|i]; csimpl; try done.
  - by rewrite Hf.
  - by rewrite IH.
Qed.

Lemma unique_triggers_alter (f : AutoReply → AutoReply) (i : nat) replies :
  (∀ r, Trigger (f r) = Trigger r) →
  unique_triggers replies → unique_triggers (alter f i replies).
Proof. intros Hf. rewrite !unique_triggers_NoDup. by rewrite foldKeys_alter. Qed.

Lemma unique_triggers_remove (i : nat) replies :
  unique_triggers replies →
  unique_triggers (take i replies ++ drop (S i) replies).
Proof.
  rewrite !unique_triggers_NoDup, <- delete_take_drop. intros Hu.
  eapply sublist_NoDup; [exact Hu|]. unfold foldKeys.
  apply fmap_sublist, sublist_delete.
Qed.

(** What the loop over the rules finds. *)
Lemma findTrigger_Some replies trigger k i reply :
  findTrigger replies trigger k = Some (i, reply) →
  ∃ j, i = (k + j)%nat ∧ replies !! j = Some reply ∧
       EqualFold (Trigger reply) trigger = true ∧
       ∀ j' r, (j' < j)%nat → replies !! j' = Some r →
               EqualFold (Trigger r) trigger = false.
Proof.
  revert k. induction replies as [|r0 replies IH]; intros k; [done|].
  simpl. destruct (EqualFold (Trigger r0) trigger) eqn:H0.
  - intros [= <- <-]. exists 0%nat. split_and!; [lia|done|done|lia].
  - intros (j & -> & Hj & Hf & Hbefore)%IH. exists (S j).
    split_and!; [lia|done|done|].
    intros [|j'] r Hlt; simpl; [by intros [= <-]|].
    apply Hbefore. lia.
Qed.

Lemma findTrigger_None replies trigger k :
  findTrigger replies trigger k = None ↔
  ∀ r, r ∈ replies → EqualFold (Trigger r) trigger = false.
Proof.
  revert k. induction replies as [|r0 replies IH]; intros k; simpl.
  - split; [|done]. by intros _ r ?%elem_of_nil.
  - destruct (EqualFold (Trigger r0) trigger) eqn:H0.
    + split; [done|]. intros H. rewrite H in H0; [done|left].
    + rewrite IH. split.
      * by intros H r [->|?]%elem_of_cons; [|apply H].
      * intros H r Hr. apply H. by right.
Qed.

(** In a rule set with unique triggers the loop stops at the one rule
    whose trigger equals the argument when case is ignored. *)
Lemma findTrigger_unique replies trigger reply :
  unique_triggers replies → reply ∈ replies →
  EqualFold (Trigger reply) trigger = true →
  ∃ i, findTrigger replies trigger 0 = Some (i, reply).
Proof.
  intros Hu [j Hj]%list_elem_of_lookup Hf.
  destruct (findTrigger replies trigger 0) as [[i r]|] eqn:Hfind.
  - apply findTrigger_Some in Hfind as (j' & -> & Hj' & Hf' & _).
    assert (j' = j) as ->.
    { apply (Hu j' j r reply Hj' Hj). apply (EqualFold_trans _ trigger); [done|].
      by rewrite EqualFold_sym. }
    exists (0 + j)%nat. congruence.
  - rewrite findTrigger_None in Hfind.
    rewrite Hfind in Hf; [done|]. by apply list_elem_of_lookup_2 in Hj.
Qed.

(** A new rule keeps the triggers unique when its trigger folds with the
    lower case it is stored in. *)
Lemma unique_triggers_snoc replies trigger response authorID :
  EqualFold (ToLower trigger) trigger = true →
  unique_triggers replies →
  findTrigger replies trigger 0 = None →
  unique_triggers
    (replies ++ [{| Trigger := ToLower trigger; Response := response;
                    AuthorID := authorID |}]).
Proof.
  rewrite !unique_triggers_NoDup, findTrigger_None. intros Hfits Hu Hnone.
  unfold foldKeys. rewrite fmap_app. apply NoDup_app. split_and!; [done| |].
  - intros x (r & -> & Hr)%list_elem_of_fmap. simpl.
    rewrite list_elem_of_singleton.
    intros Heq%EqualFold_fold.
    pose proof (EqualFold_trans _ _ _ Heq Hfits) as Hfold.
    by rewrite (Hnone r Hr) in Hfold.
  - simpl. apply NoDup_singleton.
Qed.

End with_tables.

End StoreFacts.

Module ManagerFacts.

Import StringFacts StoreFacts.

Section with_tables.

Context {T : Unicode.Tables}.

Lemma serverAutoReplies_save env w :
  serverAutoReplies (saveAutoReplies env w) = serverAutoReplies w.
Proof.
  unfold saveAutoReplies.
  by destruct (WriteFile_fails env), (WriteFile_leaves env).
Qed.

Lemma setReplies_same w : setReplies (serverAutoReplies w) w = w.
Proof. by destruct w. Qed.

Lemma index_Some m guildID replies :
  index m guildID = Some replies ↔ m !! guildID = Some (Some replies).
Proof.
  unfold index. destruct (m !! guildID) as [[l|]|]; simpl; naive_solver.
Qed.

Lemma index_insert m guildID s : index (<[guildID := s]> m) guildID = s.
Proof. unfold index. by rewrite lookup_insert_eq. Qed.

(** *** The three ways through [addAutoReply] *)

Lemma addAutoReply_refused env trigger response authorID guildID w replies i reply :
  index (serverAutoReplies w) guildID = Some replies →
  findTrigger replies trigger 0 = Some (i, reply) →
  notAuthor reply authorID = true →
  addAutoReply env trigger response authorID guildID w
  = ((false, notYours authorID, ""), w).
Proof.
  intros Hidx Hfind Hna. unfold addAutoReply. rewrite Hidx. simpl.
  rewrite Hidx. simpl. by rewrite Hfind, Hna.
Qed.

Lemma addAutoReply_updated env trigger response authorID guildID w replies i reply :
  index (serverAutoReplies w) guildID = Some replies →
  findTrigger replies trigger 0 = Some (i, reply) →
  notAuthor reply authorID = false →
  addAutoReply env trigger response authorID guildID w
  = ((true, "Auto-reply updated successfully!", ""),
     saveAutoReplies env
       (setReplies
          (<[guildID := Some (alter (setAuthorID authorID) i
                                (alter (setResponse response) i replies))]>
             (serverAutoReplies w)) w)).
Proof.
  intros Hidx Hfind Hna. unfold addAutoReply. rewrite Hidx. simpl.
  rewrite Hidx. simpl. rewrite Hfind, Hna. simpl. do 2 f_equal.
  unfold updateAt, setReplies. simpl.
  by rewrite index_insert, Hidx, insert_insert_eq.
Qed.

Lemma addAutoReply_created env trigger response authorID guildID w :
  findTrigger (elems (index (serverAutoReplies w) guildID)) trigger 0 = None →
  addAutoReply env trigger response authorID guildID w
  = ((true, "Auto-reply created successfully!", ""),
     saveAutoReplies env
       (setReplies
          (<[guildID :=
               Some (elems (index (serverAutoReplies w) guildID)
                     ++ [{| Trigger := ToLower trigger; Response := response;
                            AuthorID := authorID |}])]>
             (serverAutoReplies w)) w)).
Proof.
  intros Hfind. unfold addAutoReply.
  destruct (index (serverAutoReplies w) guildID) as [replies|] eqn:Hidx.
  - rewrite Hidx. simpl in *. by rewrite Hfind.
  - simpl. rewrite index_insert. simpl. do 2 f_equal.
    unfold setReplies. simpl. by rewrite insert_insert_eq.
Qed.

(** The three cases are all there are. *)
Lemma addAutoReply_cases (trigger guildID : string) (w : World) :
  (∃ replies i reply,
     index (serverAutoReplies w) guildID = Some replies ∧
     findTrigger replies trigger 0 = Some (i, reply))
  ∨ findTrigger (elems (index (serverAutoReplies w) guildID)) trigger 0 = None.
Proof.
  destruct (index (serverAutoReplies w) guildID) as [replies|] eqn:Hidx;
    [|by right].
  simpl. destruct (findTrigger replies trigger 0) as [[i reply]|] eqn:Hfind;
    [left|by right].
  by exists replies, i, reply.
Qed.

(** *** The ways through [removeAutoReply] *)

Lemma removeAutoReply_refused env trigger authorID guildID w replies i reply :
  index (serverAutoReplies w) guildID = Some replies →
  findTrigger replies trigger 0 = Some (i, reply) →
  notAuthor reply authorID = true →
  removeAutoReply env trigger authorID guildID w
  = ((false, notYours authorID, ""), w).
Proof.
  intros Hidx Hfind Hna. unfold removeAutoReply.
  by rewrite Hidx, Hfind, Hna.
Qed.

Lemma removeAutoReply_removed env trigger authorID guildID w replies i reply :
  index (serverAutoReplies w) guildID = Some replies →
  findTrigger replies trigger 0 = Some (i, reply) →
  notAuthor reply authorID = false →
  removeAutoReply env trigger authorID guildID w
  = ((true, "Auto-reply removed successfully!", ""),
     saveAutoReplies env
       (setReplies
          (match take i replies ++ drop (S i) replies with
           | [] => delete guildID (serverAutoReplies w)
           | rest => <[guildID := Some rest]> (serverAutoReplies w)
           end) w)).
Proof.
  intros Hidx Hfind Hna. unfold removeAutoReply.
  rewrite Hidx, Hfind, Hna. simpl. do 2 f_equal.
  rewrite index_insert. unfold len. simpl.
  destruct (take i replies ++ drop (S i) replies) as [|r rest]; simpl.
  - unfold setReplies. simpl. by rewrite delete_insert_eq.
  - done.
Qed.

Lemma removeAutoReply_not_found env trigger authorID guildID w :
  findTrigger (elems (index (serverAutoReplies w) guildID)) trigger 0 = None →
  removeAutoReply env trigger authorID guildID w
  = ((false, "No auto-reply found for that trigger.", ""), w).
Proof.
  intros Hfind. unfold removeAutoReply.
  destruct (index (serverAutoReplies w) guildID) as [replies|]; [|done].
  simpl in Hfind. by rewrite Hfind.
Qed.

Lemma notAuthor_true reply authorID :
  notAuthor reply authorID = true ↔
  AuthorID reply ≠ "" ∧ AuthorID reply ≠ authorID.
Proof.
  unfold notAuthor. by rewrite andb_true_iff, !bool_decide_eq_true.
Qed.

Lemma serverAutoReplies_messageCreate env m w :
  serverAutoReplies (messageCreate env m w) = serverAutoReplies w.
Proof.
  unfold messageCreate. repeat (case_match; try done).
  generalize (elems (index (serverAutoReplies w) (GuildID m))).
  intros l. induction l as [|r l IH]; simpl; [done|].
  case_match; [|done]. unfold sendAutoReply. by case_match.
Qed.

End with_tables.

End ManagerFacts.

Module JsonFacts.

Import Utf8Facts.

(** The encoder writes a string that is valid UTF-8 as it is. *)
Lemma written_valid (s : string) : ValidString s = true → written s = s.
Proof.
  unfold written, ValidString. intros Hv. rewrite <- (bytes_runes s) at 2.
  induction (runes s) as [|c rs IH]; [done|]. simpl in *.
  apply andb_true_iff in Hv as [Hc Hv]. apply negb_true_iff in Hc.
  by rewrite Hc, IH.
Qed.

Section with_tables.

Context {T : Unicode.Tables}.

Lemma unmarshalAutoReply_marshal (r : AutoReply) :
  validReply r → unmarshalAutoReply (marshalAutoReply r) = (r, false).
Proof.
  destruct r as [t resp a]. intros (Ht & Hr & Ha). simpl in *.
  unfold marshalAutoReply, unmarshalAutoReply. simpl.
  rewrite !written_valid by done. case_decide as Hempty; simpl.
  - subst. reflexivity.
  - reflexivity.
Qed.

Lemma unmarshal_items (l : list AutoReply) :
  Forall validReply l →
  fst <$> (unmarshalAutoReply <$> (marshalAutoReply <$> l)) = l ∧
  existsb snd (unmarshalAutoReply <$> (marshalAutoReply <$> l)) = false.
Proof.
  induction 1 as [|r l Hr _ [IH1 IH2]]; [done|]. rewrite !fmap_cons.
  cbn [existsb]. rewrite IH1, IH2, unmarshalAutoReply_marshal by done. done.
Qed.

Lemma unmarshalSlice_marshal (s : slice) :
  Forall validReply (elems s) → unmarshalSlice (marshalSlice s) = (s, false).
Proof.
  destruct s as [l|]; [|done]. simpl. intros Hl.
  destruct (unmarshal_items l Hl) as [-> ->]. done.
Qed.

Lemma foldl_unmarshalEntry (entries : list (string * slice)) m :
  Forall validEntry entries →
  foldl unmarshalEntry (m, false) (prod_map written marshalSlice <$> entries)
  = (foldl store m entries, false).
Proof.
  intros Hvalid. revert m.
  induction Hvalid as [|[k s] entries [Hk Hs] _ IH]; intros m; [done|].
  rewrite fmap_cons. cbn [foldl prod_map unmarshalEntry id fst snd] in *.
  rewrite unmarshalSlice_marshal, written_valid by done. apply IH.
Qed.

Lemma foldl_store (entries : list (string * slice)) :
  foldl store ∅ entries = list_to_map (reverse entries).
Proof.
  induction entries as [|e entries IH] using rev_ind; [done|].
  rewrite foldl_snoc, reverse_snoc, IH. by destruct e.
Qed.

(** Reading what was written gives the map back, without error, when the
    strings of the map are valid UTF-8. *)
Lemma Unmarshal_Marshal (m : ServerAutoReplies) :
  valid_store m → Unmarshal (Marshal m) ∅ = Some (m, false).
Proof.
  intros Hvalid. unfold Unmarshal, Marshal.
  rewrite foldl_unmarshalEntry, foldl_store.
  - do 2 f_equal. rewrite <- (list_to_map_to_list m) at 2.
    apply list_to_map_proper.
    + rewrite reverse_Permutation, merge_sort_Permutation.
      apply NoDup_fst_map_to_list.
    + by rewrite reverse_Permutation, merge_sort_Permutation.
  - rewrite merge_sort_Permutation. apply Forall_forall.
    intros [k s] Hin%elem_of_map_to_list. by apply Hvalid.
Qed.

End with_tables.

End JsonFacts.


(** * What the operations preserve *)

Module Invariants.

Import StringFacts StoreFacts ManagerFacts.

Section with_tables.

Context {T : Unicode.Tables}.

Section preserved.

Variable P : list AutoReply → Prop.

(** The triggers whose rule may be added to a rule set with [P]. *)
Variable fits : string → Prop.

Hypothesis P_nil : P [].
Hypothesis P_alter : ∀ f i replies,
  (∀ r, Trigger (f r) = Trigger r) → P replies → P (alter f i replies).
Hypothesis P_remove : ∀ i replies,
  P replies → P (take i replies ++ drop (S i) replies).
Hypothesis P_snoc : ∀ replies trigger response authorID,
  fits trigger → P replies → findTrigger replies trigger 0 = None →
  P (replies ++ [{| Trigger := ToLower trigger; Response := response;
                    AuthorID := authorID |}]).

Lemma every_scope_insert m guildID replies :
  every_scope P m → P replies →
  every_scope P (<[guildID := Some replies]> m).
Proof.
  intros Hm Hl g l. rewrite lookup_insert.
  case_decide; [by intros [= <-]|apply Hm].
Qed.

Lemma every_scope_delete m guildID :
  every_scope P m → every_scope P (delete guildID m).
Proof.
  intros Hm g l. rewrite lookup_delete.
  case_decide; [done|apply Hm].
Qed.

Lemma every_scope_elems m guildID :
  every_scope P m → P (elems (index m guildID)).
Proof.
  intros Hm. destruct (index m guildID) as [l|] eqn:Hidx; [|done].
  apply index_Some in Hidx. by apply (Hm guildID).
Qed.

Lemma every_scope_add env trigger response authorID guildID w :
  fits trigger →
  every_scope P (serverAutoReplies w) →
  every_scope P
    (serverAutoReplies (addAutoReply env trigger response authorID guildID w).2).
Proof.
  intros Hfits Hm.
  destruct (addAutoReply_cases trigger guildID w)
    as [(replies & i & reply & Hidx & Hfind)|Hnone].
  - destruct (notAuthor reply authorID) eqn:Hna.
    + by erewrite addAutoReply_refused.
    + erewrite addAutoReply_updated by done. simpl.
      rewrite serverAutoReplies_save. simpl.
      apply every_scope_insert; [done|].
      apply index_Some in Hidx.
      apply P_alter; [done|]. apply P_alter; [done|]. by apply (Hm guildID).
  - rewrite addAutoReply_created by done. simpl.
    rewrite serverAutoReplies_save. simpl.
    apply every_scope_insert; [done|].
    apply P_snoc; [done| |done]. by apply every_scope_elems.
Qed.

Lemma every_scope_remove env trigger authorID guildID w :
  every_scope P (serverAutoReplies w) →
  every_scope P
    (serverAutoReplies (removeAutoReply env trigger authorID guildID w).2).
Proof.
  intros Hm.
  destruct (addAutoReply_cases trigger guildID w)
    as [(replies & i & reply & Hidx & Hfind)|Hnone].
  - destruct (notAuthor reply authorID) eqn:Hna.
    + by erewrite removeAutoReply_refused.
    + erewrite removeAutoReply_removed by done. simpl.
      rewrite serverAutoReplies_save. simpl.
      apply index_Some in Hidx.
      pose proof (P_remove i replies (Hm _ _ Hidx)) as Hrest.
      destruct (take i replies ++ drop (S i) replies).
      * by apply every_scope_delete.
      * by apply every_scope_insert.
  - by rewrite removeAutoReply_not_found.
Qed.

End preserved.

Lemma unique_triggers_nil : unique_triggers [].
Proof. by intros i j ri rj ?. Qed.

Lemma store_unique_add env trigger response authorID guildID w :
  EqualFold (ToLower trigger) trigger = true →
  store_unique (serverAutoReplies w) →
  store_unique
    (serverAutoReplies (addAutoReply env trigger response authorID guildID w).2).
Proof.
  apply (every_scope_add unique_triggers
           (λ trigger, EqualFold (ToLower trigger) trigger = true)).
  - apply unique_triggers_nil.
  - apply unique_triggers_alter.
  - intros. by apply unique_triggers_snoc.
Qed.

Lemma store_unique_remove env trigger authorID guildID w :
  store_unique (serverAutoReplies w) →
  store_unique
    (serverAutoReplies (removeAutoReply env trigger authorID guildID w).2).
Proof. apply every_scope_remove, unique_triggers_remove. Qed.

End with_tables.

End Invariants.


(** * Calling [addAutoReply] again *)

Module AgainFacts.

Import StringFacts StoreFacts ManagerFacts.

Section with_tables.

Context {T : Unicode.Tables}.

Lemma findTrigger_alter f replies trigger k i reply :
  (∀ r, Trigger (f r) = Trigger r) →
  findTrigger replies trigger k = Some ((k + i)%nat, reply) →
  findTrigger (alter f i replies) trigger k = Some ((k + i)%nat, f reply).
Proof.
  intros Hf. revert k i.
  induction replies as [|r0 replies IH]; intros k i; [done|].
  simpl. destruct (EqualFold (Trigger r0) trigger) eqn:H0.
  - intros [= Hk <-]. assert (i = 0%nat) as -> by lia.
    simpl. by rewrite Hf, H0, Nat.add_0_r.
  - intros Hfind. destruct (findTrigger_Some _ _ _ _ _ Hfind) as (j & Hj & _).
    assert (i = S j) as -> by lia. simpl. rewrite H0.
    replace (k + S j)%nat with (S k + j)%nat in * by lia. by apply IH.
Qed.

Lemma findTrigger_app replies more trigger k :
  findTrigger replies trigger k = None →
  findTrigger (replies ++ more) trigger k
  = findTrigger more trigger (k + length replies).
Proof.
  revert k. induction replies as [|r0 replies IH]; intros k; simpl.
  - intros _. by rewrite Nat.add_0_r.
  - destruct (EqualFold (Trigger r0) trigger); [done|].
    intros Hnone. rewrite IH by done. f_equal. lia.
Qed.

Lemma notAuthor_self reply authorID :
  AuthorID reply = authorID → notAuthor reply authorID = false.
Proof.
  intros <-. unfold notAuthor. apply andb_false_iff. right.
  by apply bool_decide_eq_false; intros H.
Qed.

End with_tables.

End AgainFacts.

(** * The scan of the message handler *)

Module HandlerFacts.

Lemma messageCreate_range_first env m content replies w :
  (Forall (λ r, containsWholeWord content (Trigger r) = false) replies
   ∧ messageCreate_range env m content replies w = w)
  ∨ ∃ before reply after,
      replies = before ++ reply :: after ∧
      Forall (λ r, containsWholeWord content (Trigger r) = false) before ∧
      containsWholeWord content (Trigger reply) = true ∧
      messageCreate_range env m content replies w = sendAutoReply env m reply w.
Proof.
  induction replies as [|r replies IH]; simpl; [by left|].
  destruct (containsWholeWord content (Trigger r)) eqn:Hr.
  - right. by exists [], r, replies.
  - destruct IH as [[Hall ->]|(before & reply & after & -> & Hb & Hm & ->)].
    + left. split; [|done]. by constructor.
    + right. exists (r :: before), reply, after.
      split_and!; [done| |done|done]. by constructor.
Qed.

Lemma sendAutoReply_events env m reply w :
  ∃ sent,
    events (sendAutoReply env m reply w) = events w ++ sent ∧
    replies_sent sent = [Response reply] ∧
    Forall (λ content, content = Response reply) (messages_sent sent).
Proof.
  unfold sendAutoReply. destruct (SendReply_fails env); simpl.
  - eexists [_; _; _]. rewrite <- !(assoc_L (++)). simpl.
    split_and!; [done..|]. by repeat constructor.
  - eexists [_]. split_and!; [done..|]. by repeat constructor.
Qed.

End HandlerFacts.

(** * Letter case in the matcher *)

Module CaseFacts.

Import Utf8Facts StringFacts FieldsFacts TrimFacts MatcherFacts.

Local Open Scope N_scope.






Section with_tables.

Context {T : Unicode.Tables}.




End with_tables.


Lemma Trim_punctuation_only (word : string) :
  all isPunctuation word = true → Trim word punctuation = "".
Proof. intros Hw. unfold Trim. by rewrite trimRight_all. Qed.

End CaseFacts.


(** * The scenarios of the specification, run *)

Module Scenarios.

Example Fields_example : Fields "  a b   c  " = ["a"; "b"; "c"].
Proof. reflexivity. Qed.

Example Trim_example : Trim "(hello!)" punctuation = "hello".
Proof. reflexivity. Qed.

Example EqualFold_example :
  EqualFold "Go" "gO" = true ∧ EqualFold "go" "going" = false.
Proof. split; reflexivity. Qed.

(** Scenario A: a rule is added to the empty store, and its trigger matches
    a message in another letter case. *)
Example scenario_A :
  (addAutoReply quietEnv "hello" "hi there" "U1" "S1" emptyWorld).1
    = (true, "Auto-reply created successfully!", "")
  ∧ containsWholeWord (ToLower (TrimSpace "HELLO world")) "hello" = true.
Proof. split; reflexivity. Qed.

(** Scenario B: a trigger inside a longer word does not match. *)
Example scenario_B :
  containsWholeWord (ToLower (TrimSpace "I'm going home")) "go" = false.
Proof. reflexivity. Qed.

(** Scenario C: somebody else cannot remove the rule. *)
Example scenario_C :
  removeAutoReply quietEnv "bye" "U2" "S1" byeWorld
  = ((false, "you can't change this you bartard <@U2>", ""), byeWorld).
Proof. reflexivity. Qed.

(** Scenario D: the author removes the rule, and the scope goes with it. *)
Example scenario_D :
  (removeAutoReply quietEnv "bye" "U1" "S1" byeWorld).1
    = (true, "Auto-reply removed successfully!", "")
  ∧ serverAutoReplies (removeAutoReply quietEnv "bye" "U1" "S1" byeWorld).2 = ∅.
Proof. split; [reflexivity|]. by vm_compute. Qed.

(** Scenario E: two triggers match the message, the response of the first
    rule is the only one sent. *)
Example scenario_E :
  containsWholeWord "hi there!" "hi" = true
  ∧ containsWholeWord "hi there!" "there" = true
  ∧ messages_sent (events (messageCreate quietEnv hiThereMessage greetingsWorld))
    = ["A"].
Proof. split_and!; reflexivity. Qed.

End Scenarios.

(** * A trigger whose lower case does not fold to it *)

Module DottedFacts.

Import Utf8Facts StringFacts StoreFacts ManagerFacts AgainFacts.

Section with_tables.

Context {T : Unicode.Tables}.

(** The first call creates the rule. *)
Lemma add_dotted_once env response authorID guildID :
  ToLower dottedI = "i" →
  addAutoReply env dottedI response authorID guildID emptyWorld
  = ((true, "Auto-reply created successfully!", ""),
     saveAutoReplies env
       (setReplies {[ guildID := Some [dottedRule response authorID] ]} emptyWorld)).
Proof.
  intros Hlower. rewrite addAutoReply_created by done.
  simpl. rewrite Hlower. reflexivity.
Qed.

(** The second call does not find it, and creates it again. *)
Lemma add_dotted_twice env env' response authorID guildID :
  ToLower dottedI = "i" → EqualFold "i" dottedI = false →
  let w1 := (addAutoReply env dottedI response authorID guildID emptyWorld).2 in
  addAutoReply env' dottedI response authorID guildID w1
  = ((true, "Auto-reply created successfully!", ""),
     saveAutoReplies env'
       (setReplies
          {[ guildID := Some [dottedRule response authorID;
                              dottedRule response authorID] ]} w1)).
Proof.
  intros Hlower Hfold w1. unfold w1. rewrite add_dotted_once by done.
  cbn [snd].
  assert (∀ s : slice,
            index ({[ guildID := s ]} : ServerAutoReplies) guildID = s) as Hidx.
  { intros s. unfold index. by rewrite lookup_singleton_eq. }
  rewrite addAutoReply_created.
  - rewrite serverAutoReplies_save. cbn [serverAutoReplies setReplies].
    rewrite Hidx, Hlower.
    change (elems (Some [dottedRule response authorID]))
      with [dottedRule response authorID].
    cbn [app]. by rewrite insert_singleton_eq.
  - rewrite serverAutoReplies_save. cbn [serverAutoReplies setReplies].
    rewrite Hidx.
    change (findTrigger [dottedRule response authorID] dottedI 0 = None).
    cbn [findTrigger dottedRule Trigger]. by rewrite Hfold.
Qed.

End with_tables.

End DottedFacts.

(** * The claims *)

Import Utf8Facts StringFacts FieldsFacts TrimFacts MatcherFacts StoreFacts.
Import ManagerFacts JsonFacts Invariants AgainFacts HandlerFacts CaseFacts.
Import DottedFacts.

(** C1, as the code has it. For every text and every trigger, the matcher
    answers true if and only if the trigger, byte for byte as it is stored
    and with no case folded, is a standalone token of the text it is given:
    a word of the text split at Unicode white space, with its leading and
    trailing punctuation stripped. So it is for the text the handler gives
    it, the message trimmed and lower-cased. In particular the trigger [go],
    a proper substring of the token [going], does not match
    [I'm going home]. *)
Theorem matcher_whole_word {T : Unicode.Tables} :
  (∀ message trigger : string,
     containsWholeWord message trigger = true
     ↔ standalone_token trigger message)
  ∧ (∀ text trigger : string,
       containsWholeWord (ToLower (TrimSpace text)) trigger = true
       ↔ standalone_token trigger (ToLower (TrimSpace text)))
  ∧ containsWholeWord (ToLower (TrimSpace "I'm going home")) "go" = false.
Proof.
  split_and!.
  - apply containsWholeWord_standalone.
  - intros. apply containsWholeWord_standalone.
  - reflexivity.
Qed.

(** C1 as it is stated fails on a trigger stored with a capital letter: the
    bot that starts with the file [shoutingDocument] holds the trigger
    [Hello]; folded, it is a standalone token of the folded text [hello],
    and the matcher, run as the handler runs it, answers false. *)
Lemma matcher_whole_word_counterexample :
  ∃ (w : World) (reply : AutoReply),
    loadAutoReplies quietEnv shoutingFileWorld = Some w ∧
    serverAutoReplies w !! "S1" = Some (Some [reply]) ∧
    Trigger reply = "Hello" ∧
    standalone_token (ToLower (Trigger reply)) (ToLower "hello") ∧
    containsWholeWord (ToLower (TrimSpace "hello")) (Trigger reply) = false.
Proof.
  eexists _, {| Trigger := "Hello"; Response := "hi"; AuthorID := "" |}.
  split_and!.
  - vm_compute. reflexivity.
  - vm_compute. reflexivity.
  - reflexivity.
  - apply containsWholeWord_standalone. vm_compute. reflexivity.
  - vm_compute. reflexivity.
Qed.

(** C2, as the code has it. For every rule that is the first of its scope
    whose trigger equals the given one when case is ignored, whose stored
    author is not empty, and every caller whose authorID differs from that
    author, [addAutoReply] and [removeAutoReply] on that trigger both return
    ok=false with the ownership-conflict message and leave the whole world,
    the rule store included, as it was. In a scope whose triggers are
    unique every rule is the first of its trigger. *)
Theorem ownership_conflict_refused {T : Unicode.Tables} :
  (∀ (env : Env) (w : World) (guildID : string) (before after : list AutoReply)
     (reply : AutoReply) (trigger response authorID : string),
      serverAutoReplies w !! guildID = Some (Some (before ++ reply :: after)) →
      Forall (λ r, EqualFold (Trigger r) trigger = false) before →
      EqualFold (Trigger reply) trigger = true →
      AuthorID reply ≠ "" →
      AuthorID reply ≠ authorID →
      addAutoReply env trigger response authorID guildID w
        = ((false, notYours authorID, ""), w)
      ∧ removeAutoReply env trigger authorID guildID w
        = ((false, notYours authorID, ""), w))
  ∧ (∀ (env : Env) (w : World) (guildID : string) (replies : list AutoReply)
       (reply : AutoReply) (trigger response authorID : string),
        serverAutoReplies w !! guildID = Some (Some replies) →
        unique_triggers replies →
        reply ∈ replies →
        EqualFold (Trigger reply) trigger = true →
        AuthorID reply ≠ "" →
        AuthorID reply ≠ authorID →
        addAutoReply env trigger response authorID guildID w
          = ((false, notYours authorID, ""), w)
        ∧ removeAutoReply env trigger authorID guildID w
          = ((false, notYours authorID, ""), w)).
Proof.
  split.
  - intros env w guildID before after reply trigger response authorID
      Hlookup%index_Some Hbefore Hfold Hauthor Hcaller.
    assert (findTrigger (before ++ reply :: after) trigger 0
            = Some (length before, reply)) as Hfind.
    { rewrite findTrigger_app.
      - simpl. by rewrite Hfold.
      - apply findTrigger_None. intros r Hr.
        by apply (proj1 (Forall_forall _ _) Hbefore). }
    assert (notAuthor reply authorID = true) as Hna by by apply notAuthor_true.
    split.
    + by eapply addAutoReply_refused.
    + by eapply removeAutoReply_refused.
  - intros env w guildID replies reply trigger response authorID
      Hlookup%index_Some Hunique Hin Hfold Hauthor Hcaller.
    destruct (findTrigger_unique replies trigger reply Hunique Hin Hfold)
      as [i Hfind].
    assert (notAuthor reply authorID = true) as Hna by by apply notAuthor_true.
    split.
    + by eapply addAutoReply_refused.
    + by eapply removeAutoReply_refused.
Qed.

Lemma ownership_conflict_refused_witness :
  (addAutoReply quietEnv "THERE" "C" "U1" "S1" greetingsWorld
     = ((false, notYours "U1", ""), greetingsWorld)
   ∧ removeAutoReply quietEnv "THERE" "U1" "S1" greetingsWorld
     = ((false, notYours "U1", ""), greetingsWorld))
  ∧ (addAutoReply quietEnv "BYE" "later" "U2" "S1" byeWorld
       = ((false, notYours "U2", ""), byeWorld)
     ∧ removeAutoReply quietEnv "BYE" "U2" "S1" byeWorld
       = ((false, notYours "U2", ""), byeWorld)).
Proof.
  split.
  - apply (proj1 ownership_conflict_refused quietEnv greetingsWorld "S1"
             [{| Trigger := "hi"; Response := "A"; AuthorID := "U1" |}] []
             {| Trigger := "there"; Response := "B"; AuthorID := "U2" |}).
    + vm_compute. reflexivity.
    + repeat constructor.
    + vm_compute. reflexivity.
    + simpl. discriminate.
    + simpl. discriminate.
  - apply (proj2 ownership_conflict_refused quietEnv byeWorld "S1"
             [{| Trigger := "bye"; Response := "cya"; AuthorID := "U1" |}]
             {| Trigger := "bye"; Response := "cya"; AuthorID := "U1" |}).
    + vm_compute. reflexivity.
    + intros [|i] [|j] ri rj Hi Hj _; simpl in *; try done.
    + left.
    + vm_compute. reflexivity.
    + simpl. discriminate.
    + simpl. discriminate.
Defined.

(** C2 as it is stated fails in a scope that holds a trigger twice: the bot
    that starts with the file [duplicatesDocument] holds the rule [Bye] of
    the user U1 behind an unowned rule [bye]. The user U2 removes with the
    trigger [Bye], and adds with it, with success: the loop stops at the
    unowned rule, which is removed, or overwritten and taken over. *)
Lemma ownership_conflict_refused_counterexample :
  ∃ (w : World) (reply : AutoReply),
    loadAutoReplies quietEnv duplicatesFileWorld = Some w ∧
    reply ∈ elems (index (serverAutoReplies w) "S1") ∧
    Trigger reply = "Bye" ∧ AuthorID reply = "U1" ∧
    (removeAutoReply quietEnv (Trigger reply) "U2" "S1" w).1
      = (true, "Auto-reply removed successfully!", "") ∧
    index (serverAutoReplies (removeAutoReply quietEnv (Trigger reply) "U2" "S1" w).2)
      "S1"
      = Some [{| Trigger := "Bye"; Response := "y"; AuthorID := "U1" |}] ∧
    (addAutoReply quietEnv (Trigger reply) "z" "U2" "S1" w).1
      = (true, "Auto-reply updated successfully!", "") ∧
    index (serverAutoReplies (addAutoReply quietEnv (Trigger reply) "z" "U2" "S1" w).2)
      "S1"
      = Some [{| Trigger := "bye"; Response := "z"; AuthorID := "U2" |};
              {| Trigger := "Bye"; Response := "y"; AuthorID := "U1" |}].
Proof.
  eexists _, {| Trigger := "Bye"; Response := "y"; AuthorID := "U1" |}.
  split_and!.
  - vm_compute. reflexivity.
  - vm_compute. right. left.
  - reflexivity.
  - reflexivity.
  - vm_compute. reflexivity.
  - vm_compute. reflexivity.
  - vm_compute. reflexivity.
  - vm_compute. reflexivity.
Qed.

(** C3, the code at the input on which it fails. Where [strings.ToLower]
    gives [i] for the letter U+0130 and [strings.EqualFold] does not hold
    [i] and U+0130 for equal, as in Go, two calls of [addAutoReply] with the
    trigger U+0130 lead from the empty store to a store, reachable by the
    two operations, whose scope holds the trigger [i] twice: the triggers of
    the scope are not unique. *)
Theorem duplicate_triggers_reachable {T : Unicode.Tables} :
  ToLower dottedI = "i" →
  EqualFold "i" dottedI = false →
  ∀ (env env' : Env) (response authorID guildID : string),
    let w1 := (addAutoReply env dottedI response authorID guildID emptyWorld).2 in
    let w2 := (addAutoReply env' dottedI response authorID guildID w1).2 in
    reachable w2 ∧
    serverAutoReplies w2 !! guildID
      = Some (Some [{| Trigger := "i"; Response := response; AuthorID := authorID |};
                    {| Trigger := "i"; Response := response; AuthorID := authorID |}]) ∧
    ¬ store_unique (serverAutoReplies w2).
Proof.
  intros Hlower Hfold env env' response authorID guildID w1 w2.
  assert (serverAutoReplies w2 !! guildID
          = Some (Some [dottedRule response authorID;
                        dottedRule response authorID])) as Hlookup.
  { unfold w2, w1. rewrite add_dotted_twice by done. cbn [snd].
    rewrite serverAutoReplies_save. cbn [serverAutoReplies setReplies].
    apply lookup_singleton_eq. }
  split_and!.
  - apply reachable_add, reachable_add, reachable_empty.
  - exact Hlookup.
  - intros Hunique.
    specialize (Hunique guildID _ Hlookup 0%nat 1%nat
                  (dottedRule response authorID) (dottedRule response authorID)
                  eq_refl eq_refl (EqualFold_refl _)).
    discriminate.
Qed.

Lemma duplicate_triggers_reachable_witness :
  let w1 := (addAutoReply quietEnv dottedI "merhaba" "U1" "S1" emptyWorld).2 in
  let w2 := (addAutoReply quietEnv dottedI "merhaba" "U1" "S1" w1).2 in
  reachable w2 ∧
  serverAutoReplies w2 !! "S1"
    = Some (Some [{| Trigger := "i"; Response := "merhaba"; AuthorID := "U1" |};
                  {| Trigger := "i"; Response := "merhaba"; AuthorID := "U1" |}]) ∧
  ¬ store_unique (serverAutoReplies w2).
Proof.
  apply (duplicate_triggers_reachable (T := sampleTables)).
  - vm_compute. reflexivity.
  - vm_compute. reflexivity.
Defined.

(** C4, the code at the input on which it fails. Under the same two facts
    of Go's tables, the second of two calls of [addAutoReply] with the
    trigger U+0130 and the same response and author reports that a rule was
    created: it does not find the rule of the first call and appends the
    same rule again, so that the rule set is not the one the first call
    left. *)
Theorem second_add_appends {T : Unicode.Tables} :
  ToLower dottedI = "i" →
  EqualFold "i" dottedI = false →
  ∀ (env env' : Env) (response authorID guildID : string),
    let first := addAutoReply env dottedI response authorID guildID emptyWorld in
    let second := addAutoReply env' dottedI response authorID guildID first.2 in
    let rule := {| Trigger := "i"; Response := response; AuthorID := authorID |} in
    first.1 = (true, "Auto-reply created successfully!", "") ∧
    second.1 = (true, "Auto-reply created successfully!", "") ∧
    index (serverAutoReplies first.2) guildID = Some [rule] ∧
    index (serverAutoReplies second.2) guildID = Some [rule; rule] ∧
    serverAutoReplies second.2 ≠ serverAutoReplies first.2.
Proof.
  intros Hlower Hfold env env' response authorID guildID first second rule.
  assert (index (serverAutoReplies first.2) guildID = Some [rule]) as Hfirst.
  { unfold first. rewrite add_dotted_once by done. cbn [snd].
    rewrite serverAutoReplies_save. cbn [serverAutoReplies setReplies].
    unfold index. by rewrite lookup_singleton_eq. }
  assert (index (serverAutoReplies second.2) guildID = Some [rule; rule])
    as Hsecond.
  { unfold second, first. rewrite add_dotted_twice by done. cbn [snd].
    rewrite serverAutoReplies_save. cbn [serverAutoReplies setReplies].
    unfold index. by rewrite lookup_singleton_eq. }
  split_and!.
  - unfold first. by rewrite add_dotted_once.
  - unfold second, first. by rewrite add_dotted_twice.
  - exact Hfirst.
  - exact Hsecond.
  - intros Heq. rewrite Heq, Hfirst in Hsecond. discriminate.
Qed.

Lemma second_add_appends_witness :
  let first := addAutoReply quietEnv dottedI "merhaba" "U1" "S1" emptyWorld in
  let second := addAutoReply quietEnv dottedI "merhaba" "U1" "S1" first.2 in
  let rule := {| Trigger := "i"; Response := "merhaba"; AuthorID := "U1" |} in
  first.1 = (true, "Auto-reply created successfully!", "") ∧
  second.1 = (true, "Auto-reply created successfully!", "") ∧
  index (serverAutoReplies first.2) "S1" = Some [rule] ∧
  index (serverAutoReplies second.2) "S1" = Some [rule; rule] ∧
  serverAutoReplies second.2 ≠ serverAutoReplies first.2.
Proof.
  apply (second_add_appends (T := sampleTables)).
  - vm_compute. reflexivity.
  - vm_compute. reflexivity.
Defined.

(** C5. For every incoming message the handler sends the response of at most
    one stored rule. When it sends nothing, the message was ignored (a bot,
    no guild, no content) or no trigger of the scope matches. Otherwise the
    rules of the scope split into those before a rule, none of which matches,
    that rule, which matches, and the rules after it, which are not looked
    at, whether they match or not: one reply is sent, with that rule's
    response, and everything sent carries that response. *)
Theorem messageCreate_first_match {T : Unicode.Tables} :
  ∀ (env : Env) (m : MessageCreate) (w : World),
    let content := ToLower (TrimSpace (Content m)) in
    let rules := elems (index (serverAutoReplies w) (GuildID m)) in
    ∃ sent,
      events (messageCreate env m w) = events w ++ sent ∧
      length (replies_sent sent) ≤ 1 ∧
      ((sent = [] ∧
        (Author_Bot m = true ∨ GuildID m = "" ∨ content = "" ∨
         Forall (λ r, containsWholeWord content (Trigger r) = false) rules))
       ∨ ∃ before reply after,
           rules = before ++ reply :: after ∧
           Forall (λ r, containsWholeWord content (Trigger r) = false) before ∧
           containsWholeWord content (Trigger reply) = true ∧
           replies_sent sent = [Response reply] ∧
           Forall (λ c, c = Response reply) (messages_sent sent)).
Proof.
  intros env m w content rules. unfold messageCreate.
  destruct (Author_Bot m) eqn:Hbot.
  { exists []. rewrite app_nil_r. split_and!; [done|simpl; lia|left; auto]. }
  case_decide as Hguild.
  { exists []. rewrite app_nil_r. split_and!; [done|simpl; lia|left; auto]. }
  case_decide as Hlen.
  { exists []. rewrite app_nil_r. split_and!; [done|simpl; lia|left].
    split; [done|]. do 3 right. fold rules in Hlen. unfold len in Hlen.
    fold rules in Hlen. destruct rules; [constructor|done]. }
  case_decide as Hcontent.
  { exists []. rewrite app_nil_r. split_and!; [done|simpl; lia|left; auto]. }
  fold content rules.
  destruct (messageCreate_range_first env m content rules w)
    as [[Hall ->]|(before & reply & after & Hrules & Hb & Hm & ->)].
  - exists []. rewrite app_nil_r. split_and!; [done|simpl; lia|left; auto].
  - destruct (sendAutoReply_events env m reply w) as (sent & Hev & Hr & Hs).
    exists sent. split_and!; [done|by rewrite Hr|right].
    by exists before, reply, after.
Qed.

(** C6. For every scope and caller, [removeAutoReply] with a trigger that no
    trigger of the scope equals when case is ignored returns ok=false with
    the not-found message and leaves the world as it was: no rule is
    removed, no scope entry appears or disappears, and the file is not
    written. *)
Theorem removeAutoReply_unknown {T : Unicode.Tables} :
  ∀ (env : Env) (trigger authorID guildID : string) (w : World),
    (∀ reply, reply ∈ elems (index (serverAutoReplies w) guildID) →
              EqualFold (Trigger reply) trigger = false) →
    removeAutoReply env trigger authorID guildID w
    = ((false, "No auto-reply found for that trigger.", ""), w).
Proof.
  intros env trigger authorID guildID w Hnone.
  apply removeAutoReply_not_found. by apply findTrigger_None.
Qed.

Lemma removeAutoReply_unknown_witness :
  removeAutoReply quietEnv "hello" "U1" "S1" byeWorld
  = ((false, "No auto-reply found for that trigger.", ""), byeWorld).
Proof.
  apply removeAutoReply_unknown.
  intros reply [->|Hin%elem_of_nil]%elem_of_cons; [|done].
  vm_compute. reflexivity.
Defined.

(** C7. For every scope that holds exactly one rule, a successful
    [removeAutoReply] deletes the entry of the scope from the map: afterwards
    the key is absent, not mapped to an empty list. *)
Theorem removeAutoReply_last_rule {T : Unicode.Tables} :
  ∀ (env : Env) (trigger authorID guildID : string) (w : World)
    (reply : AutoReply),
    serverAutoReplies w !! guildID = Some (Some [reply]) →
    (removeAutoReply env trigger authorID guildID w).1.1.1 = true →
    let w' := (removeAutoReply env trigger authorID guildID w).2 in
    serverAutoReplies w' !! guildID = None ∧
    serverAutoReplies w' = delete guildID (serverAutoReplies w).
Proof.
  intros env trigger authorID guildID w reply Hlookup%index_Some Hok.
  destruct (findTrigger [reply] trigger 0) as [[i r]|] eqn:Hfind.
  - destruct (notAuthor r authorID) eqn:Hna.
    + by erewrite removeAutoReply_refused in Hok.
    + erewrite removeAutoReply_removed by done. simpl.
      rewrite serverAutoReplies_save. simpl.
      destruct (findTrigger_Some _ _ _ _ _ Hfind) as (j & -> & Hj & _).
      destruct j as [|j]; [|done]. simpl.
      split; [apply lookup_delete_eq|done].
  - rewrite removeAutoReply_not_found in Hok; [done|].
    by rewrite Hlookup.
Qed.

Lemma removeAutoReply_last_rule_witness :
  serverAutoReplies (removeAutoReply quietEnv "Bye" "U1" "S1" byeWorld).2 !! "S1"
    = None
  ∧ serverAutoReplies (removeAutoReply quietEnv "Bye" "U1" "S1" byeWorld).2
    = delete "S1" (serverAutoReplies byeWorld).
Proof.
  apply (removeAutoReply_last_rule quietEnv "Bye" "U1" "S1" byeWorld
           {| Trigger := "bye"; Response := "cya"; AuthorID := "U1" |}).
  - vm_compute. reflexivity.
  - vm_compute. reflexivity.
Defined.

(** C8. For every incoming message whose content is empty once trimmed and
    lower-cased, the handler returns without sending anything, whatever the
    rules of the store are; and a word that consists of punctuation only is
    stripped to the empty string, so that a message made of such words
    matches no trigger that is not empty. *)
Theorem empty_content_no_reply {T : Unicode.Tables} :
  (∀ (env : Env) (m : MessageCreate) (w : World),
     ToLower (TrimSpace (Content m)) = "" → messageCreate env m w = w)
  ∧ (∀ word : string,
       all isPunctuation word = true → Trim word punctuation = "")
  ∧ (∀ message trigger : string,
       trigger ≠ "" →
       (∀ word, word ∈ Fields message → all isPunctuation word = true) →
       containsWholeWord message trigger = false).
Proof.
  split_and!.
  - intros env m w Hcontent. unfold messageCreate. rewrite Hcontent.
    by repeat case_match.
  - apply Trim_punctuation_only.
  - intros message trigger Hne Hwords.
    destruct (containsWholeWord message trigger) eqn:Hc; [|done].
    apply containsWholeWord_range_true in Hc as (word & Hin & Htrim).
    rewrite Trim_punctuation_only in Htrim by by apply Hwords. done.
Qed.

Lemma empty_content_no_reply_witness :
  messageCreate quietEnv blankMessage byeWorld = byeWorld
  ∧ Trim "(...)" punctuation = ""
  ∧ containsWholeWord "?! (...)" "bye" = false.
Proof.
  destruct (empty_content_no_reply (T := sampleTables))
    as (Hhandler & Hword & Hmessage).
  split_and!.
  - apply Hhandler. reflexivity.
  - apply Hword. reflexivity.
  - apply Hmessage; [discriminate|].
    intros word Hin. vm_compute in Hin.
    apply elem_of_cons in Hin as [->|Hin]; [reflexivity|].
    apply elem_of_cons in Hin as [->|Hin%elem_of_nil]; [reflexivity|done].
Defined.

(** C9. Saving a rule store whose strings are valid UTF-8 with
    [saveAutoReplies] and loading it again with [loadAutoReplies], when
    neither the write nor the read fails, gives the same store, whatever the
    memory holds when the file is loaded: every scope with its rules in
    order and the three fields of each rule as they were. The entry
    [author_id] is in the written object of a rule exactly when the author
    is not the empty string, and a rule written without it is read back with
    the empty author. *)
Theorem save_load_roundtrip {T : Unicode.Tables} :
  (∀ m : ServerAutoReplies,
     valid_store m → Unmarshal (Marshal m) ∅ = Some (m, false))
  ∧ (∀ (env : Env) (w : World) (memory : ServerAutoReplies),
       WriteFile_fails env = false → ReadFile_fails env = false →
       valid_store (serverAutoReplies w) →
       files (saveAutoReplies env w) !! dataFile
         = Some (Document (Marshal (serverAutoReplies w))) ∧
       ∃ w', loadAutoReplies env (setReplies memory (saveAutoReplies env w))
               = Some w' ∧
             serverAutoReplies w' = serverAutoReplies w)
  ∧ (∀ r : AutoReply,
       validReply r →
       unmarshalAutoReply (marshalAutoReply r) = (r, false) ∧
       ∃ members,
         marshalAutoReply r = JObject members ∧
         ("author_id" ∈ members.*1 ↔ AuthorID r ≠ "")).
Proof.
  split_and!.
  - apply Unmarshal_Marshal.
  - intros env w memory Hwrite Hread Hvalid.
    unfold saveAutoReplies, loadAutoReplies.
    rewrite Hwrite, Hread. simpl. rewrite lookup_insert_eq.
    split; [done|].
    rewrite Unmarshal_Marshal by done. simpl. by eexists.
  - intros r Hr. split; [by apply unmarshalAutoReply_marshal|].
    eexists. split; [done|]. simpl. case_decide as Ha; simpl.
    + split; [|done]. intros Hin.
      repeat apply elem_of_cons in Hin as [?|Hin]; try done.
      by apply elem_of_nil in Hin.
    + split; [done|]. intros _. do 2 right. left.
Qed.

Lemma save_load_roundtrip_witness :
  files (saveAutoReplies quietEnv byeWorld) !! dataFile
    = Some (Document (Marshal (serverAutoReplies byeWorld))) ∧
  ∃ w', loadAutoReplies quietEnv
          (setReplies (serverAutoReplies greetingsWorld)
             (saveAutoReplies quietEnv byeWorld)) = Some w' ∧
        serverAutoReplies w' = serverAutoReplies byeWorld.
Proof.
  apply (proj1 (proj2 (save_load_roundtrip (T := sampleTables)))
           quietEnv byeWorld (serverAutoReplies greetingsWorld));
    [reflexivity|reflexivity|].
  intros guildID s Hlookup. unfold byeWorld in Hlookup.
  cbn [serverAutoReplies] in Hlookup.
  apply lookup_singleton_Some in Hlookup as [<- <-].
  split; [reflexivity|]. repeat constructor.
Defined.



(** * Further properties of the rule manager *)

Module FrameFacts.

Import StringFacts StoreFacts ManagerFacts.

Section with_tables.

Context {T : Unicode.Tables}.

(** [saveAutoReplies] touches no other file than [dataFile], whether the
    write fails or not. *)
Lemma files_save_other env w name :
  name ≠ dataFile → files (saveAutoReplies env w) !! name = files w !! name.
Proof.
  intros Hne. unfold saveAutoReplies.
  destruct (WriteFile_fails env), (WriteFile_leaves env); simpl;
    by rewrite ?lookup_insert_ne.
Qed.

Lemma files_save_ok env w :
  WriteFile_fails env = false →
  files (saveAutoReplies env w) !! dataFile
  = Some (Document (Marshal (serverAutoReplies w))).
Proof.
  unfold saveAutoReplies. intros ->. simpl. by rewrite lookup_insert_eq.
Qed.

(** The world after a call of [addAutoReply] that was not refused is a saved
    world; so is the world after a call of [removeAutoReply] that found the
    rule and was not refused. *)
Lemma addAutoReply_saved env trigger response authorID guildID w :
  (addAutoReply env trigger response authorID guildID w).1.1.1 = true →
  ∃ w0, (addAutoReply env trigger response authorID guildID w).2
        = saveAutoReplies env w0.
Proof.
  destruct (addAutoReply_cases trigger guildID w)
    as [(replies & i & reply & Hidx & Hfind)|Hnone].
  - destruct (notAuthor reply authorID) eqn:Hna.
    + by erewrite addAutoReply_refused.
    + erewrite addAutoReply_updated by done. by eexists.
  - rewrite addAutoReply_created by done. by eexists.
Qed.

Lemma removeAutoReply_saved env trigger authorID guildID w :
  (removeAutoReply env trigger authorID guildID w).1.1.1 = true →
  ∃ w0, (removeAutoReply env trigger authorID guildID w).2
        = saveAutoReplies env w0.
Proof.
  destruct (addAutoReply_cases trigger guildID w)
    as [(replies & i & reply & Hidx & Hfind)|Hnone].
  - destruct (notAuthor reply authorID) eqn:Hna.
    + by erewrite removeAutoReply_refused.
    + erewrite removeAutoReply_removed by done. by eexists.
  - by rewrite removeAutoReply_not_found.
Qed.

(** What was saved is what a load reads, whatever the memory holds when the
    file is loaded. *)
Lemma load_saved env w0 memory :
  WriteFile_fails env = false → ReadFile_fails env = false →
  valid_store (serverAutoReplies w0) →
  ∃ w', loadAutoReplies env (setReplies memory (saveAutoReplies env w0)) = Some w' ∧
        serverAutoReplies w' = serverAutoReplies (saveAutoReplies env w0).
Proof.
  intros Hwrite Hread Hvalid. unfold saveAutoReplies, loadAutoReplies.
  rewrite Hwrite, Hread. simpl. rewrite lookup_insert_eq.
  rewrite JsonFacts.Unmarshal_Marshal by done. simpl. by eexists.
Qed.

End with_tables.

(** A store whose strings are valid UTF-8, entry by entry. *)
Lemma valid_store_empty : valid_store ∅.
Proof. by intros guildID s ?. Qed.

Lemma valid_store_insert m guildID s :
  ValidString guildID = true → Forall validReply (elems s) →
  valid_store m → valid_store (<[guildID := s]> m).
Proof.
  intros Hk Hs Hm k s' [[<- <-]|[_ Hl]]%lookup_insert_Some; [done|].
  by apply (Hm k).
Qed.

End FrameFacts.

Import FrameFacts.

(** X1. The rules are kept per server: [addAutoReply] and [removeAutoReply]
    for one guild leave the entry of every other guild as it was, whatever
    the outcome. *)
Theorem other_guilds_untouched {T : Unicode.Tables} :
  ∀ (env : Env) (trigger response authorID guildID other : string) (w : World),
    other ≠ guildID →
    serverAutoReplies (addAutoReply env trigger response authorID guildID w).2
      !! other = serverAutoReplies w !! other
    ∧ serverAutoReplies (removeAutoReply env trigger authorID guildID w).2
        !! other = serverAutoReplies w !! other.
Proof.
  intros env trigger response authorID guildID other w Hne.
  destruct (addAutoReply_cases trigger guildID w)
    as [(replies & i & reply & Hidx & Hfind)|Hnone].
  - destruct (notAuthor reply authorID) eqn:Hna.
    + by erewrite addAutoReply_refused, removeAutoReply_refused.
    + erewrite addAutoReply_updated, removeAutoReply_removed by done. simpl.
      rewrite !serverAutoReplies_save. simpl. split.
      * by rewrite lookup_insert_ne.
      * destruct (take i replies ++ drop (S i) replies).
        -- by rewrite lookup_delete_ne.
        -- by rewrite lookup_insert_ne.
  - rewrite addAutoReply_created, removeAutoReply_not_found by done. simpl.
    rewrite serverAutoReplies_save. simpl. by rewrite lookup_insert_ne.
Qed.

Lemma other_guilds_untouched_witness :
  serverAutoReplies (addAutoReply quietEnv "hello" "hi" "U2" "S2" byeWorld).2
    !! "S1" = serverAutoReplies byeWorld !! "S1"
  ∧ serverAutoReplies (removeAutoReply quietEnv "hello" "U2" "S2" byeWorld).2
      !! "S1" = serverAutoReplies byeWorld !! "S1".
Proof. apply other_guilds_untouched. discriminate. Defined.

(** X2. A failed write does not undo the change in memory: the outcome and
    the rule store after [addAutoReply] and [removeAutoReply] are the same
    whether [os.WriteFile] fails or not. And whether it fails or not, the
    two operations touch no file other than [auto_replies.json]. *)
Theorem memory_stands_when_save_fails {T : Unicode.Tables} :
  (∀ (env env' : Env) (trigger response authorID guildID : string) (w : World),
     (addAutoReply env trigger response authorID guildID w).1
       = (addAutoReply env' trigger response authorID guildID w).1
     ∧ serverAutoReplies (addAutoReply env trigger response authorID guildID w).2
       = serverAutoReplies (addAutoReply env' trigger response authorID guildID w).2
     ∧ (removeAutoReply env trigger authorID guildID w).1
       = (removeAutoReply env' trigger authorID guildID w).1
     ∧ serverAutoReplies (removeAutoReply env trigger authorID guildID w).2
       = serverAutoReplies (removeAutoReply env' trigger authorID guildID w).2)
  ∧ (∀ (env : Env) (trigger response authorID guildID name : string) (w : World),
       name ≠ dataFile →
       files (addAutoReply env trigger response authorID guildID w).2 !! name
         = files w !! name
       ∧ files (removeAutoReply env trigger authorID guildID w).2 !! name
         = files w !! name).
Proof.
  split.
  - intros env env' trigger response authorID guildID w.
    destruct (addAutoReply_cases trigger guildID w)
      as [(replies & i & reply & Hidx & Hfind)|Hnone].
    + destruct (notAuthor reply authorID) eqn:Hna.
      * by rewrite !(addAutoReply_refused _ _ _ _ _ _ _ _ _ Hidx Hfind Hna),
          !(removeAutoReply_refused _ _ _ _ _ _ _ _ Hidx Hfind Hna).
      * rewrite !(addAutoReply_updated _ _ _ _ _ _ _ _ _ Hidx Hfind Hna),
          !(removeAutoReply_removed _ _ _ _ _ _ _ _ Hidx Hfind Hna). simpl.
        by rewrite !serverAutoReplies_save.
    + rewrite !(addAutoReply_created _ _ _ _ _ _ Hnone),
        !(removeAutoReply_not_found _ _ _ _ _ Hnone). simpl.
      by rewrite !serverAutoReplies_save.
  - intros env trigger response authorID guildID name w Hname.
    destruct (addAutoReply_cases trigger guildID w)
      as [(replies & i & reply & Hidx & Hfind)|Hnone].
    + destruct (notAuthor reply authorID) eqn:Hna.
      * by erewrite addAutoReply_refused, removeAutoReply_refused.
      * erewrite addAutoReply_updated, removeAutoReply_removed by done. simpl.
        by rewrite !files_save_other.
    + rewrite addAutoReply_created, removeAutoReply_not_found by done. simpl.
      by rewrite files_save_other.
Qed.

Lemma memory_stands_when_save_fails_witness :
  files (addAutoReply fullDiskEnv "bye" "hi" "U1" "S1" brokenFileWorld).2
    !! "notes.txt" = files brokenFileWorld !! "notes.txt"
  ∧ files (removeAutoReply fullDiskEnv "bye" "U1" "S1" brokenFileWorld).2
      !! "notes.txt" = files brokenFileWorld !! "notes.txt".
Proof.
  apply (proj2 (memory_stands_when_save_fails (T := sampleTables))).
  discriminate.
Defined.

(** X3. With a disk that works, after every call of [addAutoReply] or
    [removeAutoReply] that returns ok the file holds the document of the
    rule store in memory; and when the strings of that store are valid
    UTF-8, [loadAutoReplies] run on that file with anything in memory (a
    restart of the bot) gives that store back. *)
Theorem restart_restores_store {T : Unicode.Tables} :
  ∀ (env : Env) (trigger response authorID guildID : string) (w : World)
    (memory : ServerAutoReplies),
    WriteFile_fails env = false → ReadFile_fails env = false →
    ((addAutoReply env trigger response authorID guildID w).1.1.1 = true →
     let w1 := (addAutoReply env trigger response authorID guildID w).2 in
     files w1 !! dataFile = Some (Document (Marshal (serverAutoReplies w1)))
     ∧ (valid_store (serverAutoReplies w1) →
        ∃ w', loadAutoReplies env (setReplies memory w1) = Some w'
              ∧ serverAutoReplies w' = serverAutoReplies w1))
    ∧ ((removeAutoReply env trigger authorID guildID w).1.1.1 = true →
       let w1 := (removeAutoReply env trigger authorID guildID w).2 in
       files w1 !! dataFile = Some (Document (Marshal (serverAutoReplies w1)))
       ∧ (valid_store (serverAutoReplies w1) →
          ∃ w', loadAutoReplies env (setReplies memory w1) = Some w'
                ∧ serverAutoReplies w' = serverAutoReplies w1)).
Proof.
  intros env trigger response authorID guildID w memory Hwrite Hread. split.
  - intros [w0 ->]%addAutoReply_saved. simpl. split.
    + by rewrite serverAutoReplies_save, files_save_ok.
    + intros Hvalid. rewrite serverAutoReplies_save in Hvalid.
      by apply load_saved.
  - intros [w0 ->]%removeAutoReply_saved. simpl. split.
    + by rewrite serverAutoReplies_save, files_save_ok.
    + intros Hvalid. rewrite serverAutoReplies_save in Hvalid.
      by apply load_saved.
Qed.

Lemma restart_restores_store_witness :
  (files (addAutoReply quietEnv "hello" "hi" "U1" "S1" byeWorld).2 !! dataFile
   = Some (Document (Marshal
        (serverAutoReplies (addAutoReply quietEnv "hello" "hi" "U1" "S1" byeWorld).2)))
   ∧ ∃ w', loadAutoReplies quietEnv
             (setReplies (serverAutoReplies greetingsWorld)
                (addAutoReply quietEnv "hello" "hi" "U1" "S1" byeWorld).2) = Some w'
           ∧ serverAutoReplies w'
             = serverAutoReplies (addAutoReply quietEnv "hello" "hi" "U1" "S1" byeWorld).2)
  ∧ (files (removeAutoReply quietEnv "bye" "U1" "S1" byeWorld).2 !! dataFile
     = Some (Document (Marshal
          (serverAutoReplies (removeAutoReply quietEnv "bye" "U1" "S1" byeWorld).2)))
     ∧ ∃ w', loadAutoReplies quietEnv
               (setReplies (serverAutoReplies greetingsWorld)
                  (removeAutoReply quietEnv "bye" "U1" "S1" byeWorld).2) = Some w'
             ∧ serverAutoReplies w'
               = serverAutoReplies (removeAutoReply quietEnv "bye" "U1" "S1" byeWorld).2).
Proof.
  destruct (restart_restores_store (T := sampleTables) quietEnv "hello" "hi" "U1"
              "S1" byeWorld (serverAutoReplies greetingsWorld) eq_refl eq_refl)
    as [Hadd _].
  destruct (restart_restores_store (T := sampleTables) quietEnv "bye" "hi" "U1"
              "S1" byeWorld (serverAutoReplies greetingsWorld) eq_refl eq_refl)
    as [_ Hremove].
  split.
  - destruct (Hadd eq_refl) as [Hfile Hload]. split; [exact Hfile|].
    apply Hload.
    assert (serverAutoReplies (addAutoReply quietEnv "hello" "hi" "U1" "S1" byeWorld).2
            = <["S1" := Some [{| Trigger := "bye"; Response := "cya";
                                 AuthorID := "U1" |};
                              {| Trigger := "hello"; Response := "hi";
                                 AuthorID := "U1" |}]]> ∅) as ->
      by (vm_compute; reflexivity).
    apply valid_store_insert; [reflexivity|by repeat constructor|].
    apply valid_store_empty.
  - destruct (Hremove eq_refl) as [Hfile Hload]. split; [exact Hfile|].
    apply Hload.
    assert (serverAutoReplies (removeAutoReply quietEnv "bye" "U1" "S1" byeWorld).2
            = ∅) as -> by (vm_compute; reflexivity).
    apply valid_store_empty.
Defined.

Module OwnerFacts.

Import StringFacts StoreFacts ManagerFacts AgainFacts.

Section with_tables.

Context {T : Unicode.Tables}.

(** The loop looks at the trigger only up to letter case. *)
Lemma findTrigger_fold replies trigger trigger' k :
  EqualFold trigger trigger' = true →
  findTrigger replies trigger k = findTrigger replies trigger' k.
Proof.
  intros Hf. revert k.
  induction replies as [|r replies IH]; intros k; [done|]. simpl.
  assert (EqualFold (Trigger r) trigger = EqualFold (Trigger r) trigger') as ->.
  { destruct (EqualFold (Trigger r) trigger) eqn:H1,
      (EqualFold (Trigger r) trigger') eqn:H2; try done.
    - by rewrite (EqualFold_trans _ _ _ H1 Hf) in H2.
    - rewrite EqualFold_sym in Hf. by rewrite (EqualFold_trans _ _ _ H2 Hf) in H1. }
  by rewrite IH.
Qed.

(** After a call of [addAutoReply] that returned ok, for a trigger that
    folds with its lower case, the loop over the scope stops at a rule that
    carries the response and the author of the call. *)
Lemma addAutoReply_ok_found env trigger response authorID guildID w :
  EqualFold (ToLower trigger) trigger = true →
  (addAutoReply env trigger response authorID guildID w).1.1.1 = true →
  ∃ replies i reply,
    index (serverAutoReplies
             (addAutoReply env trigger response authorID guildID w).2) guildID
      = Some replies ∧
    findTrigger replies trigger 0 = Some (i, reply) ∧
    Response reply = response ∧ AuthorID reply = authorID.
Proof.
  intros Hfits.
  destruct (addAutoReply_cases trigger guildID w)
    as [(replies & i & reply & Hidx & Hfind)|Hnone].
  - destruct (notAuthor reply authorID) eqn:Hna.
    + by erewrite addAutoReply_refused.
    + erewrite addAutoReply_updated by done. simpl. intros _.
      rewrite serverAutoReplies_save. simpl. rewrite index_insert.
      eexists _, i, _. split; [done|]. split.
      * apply (findTrigger_alter _ _ _ 0 i); [done|].
        by apply (findTrigger_alter _ _ _ 0 i).
      * done.
  - rewrite addAutoReply_created by done. simpl. intros _.
    rewrite serverAutoReplies_save. simpl. rewrite index_insert.
    eexists _, _, _. split; [done|]. split.
    + rewrite findTrigger_app by done. simpl.
      by rewrite Hfits.
    + done.
Qed.

(** A call of [removeAutoReply] that returned ok found a rule that is not
    another user's, and left the scope without it. *)
Lemma removeAutoReply_ok_taken env trigger authorID guildID w :
  (removeAutoReply env trigger authorID guildID w).1.1.1 = true →
  ∃ replies j reply,
    index (serverAutoReplies w) guildID = Some replies ∧
    findTrigger replies trigger 0 = Some (j, reply) ∧
    notAuthor reply authorID = false ∧
    elems (index (serverAutoReplies
                    (removeAutoReply env trigger authorID guildID w).2) guildID)
      = take j replies ++ drop (S j) replies.
Proof.
  destruct (addAutoReply_cases trigger guildID w)
    as [(replies & i & reply & Hidx & Hfind)|Hnone].
  - destruct (notAuthor reply authorID) eqn:Hna.
    + by erewrite removeAutoReply_refused.
    + erewrite removeAutoReply_removed by done. simpl. intros _.
      rewrite serverAutoReplies_save. simpl.
      exists replies, i, reply. split_and!; [done..|].
      destruct (take i replies ++ drop (S i) replies) as [|r rest] eqn:Hrest.
      * unfold index. by rewrite lookup_delete_eq.
      * by rewrite index_insert.
  - by rewrite removeAutoReply_not_found.
Qed.

End with_tables.

(** An ASCII trigger folds with its lower case. *)
Lemma toLowerByte_folds (c : ascii) :
  (byte c <? RuneSelf)%N = true →
  (RuneSelf <=? byte (toLowerByte c))%N = false ∧
  equalFoldByte (toLowerByte c) c = true.
Proof. by destruct c as [[] [] [] [] [] [] [] []]. Qed.

Lemma EqualFold_lowerASCII {T : Unicode.Tables} (s : string) :
  isASCII s = true → EqualFold (lowerASCII s) s = true.
Proof.
  unfold isASCII. induction s as [|c s IH]; [done|].
  simpl. intros [Hc Hs]%andb_true_iff.
  destruct (toLowerByte_folds c Hc) as [-> ->].
  apply N.ltb_lt in Hc. apply N.leb_gt in Hc. rewrite Hc. simpl. by apply IH.
Qed.

Lemma EqualFold_ToLower_ascii {T : Unicode.Tables} (s : string) :
  isASCII s = true → EqualFold (ToLower s) s = true.
Proof.
  intros Hs. unfold ToLower. rewrite Hs. by apply EqualFold_lowerASCII.
Qed.

End OwnerFacts.

Import OwnerFacts.

(** X4. A call of [addAutoReply] that returns ok, for a trigger that equals
    its own lower case when case is ignored (as every ASCII trigger does),
    makes its caller the owner of the rule: from then on, whatever the store
    was before, a call of [addAutoReply] or [removeAutoReply] by any other
    caller with that trigger (in any letter case) is refused with the
    message naming the caller, and changes nothing. The first caller must
    have an identifier: a rule stored with the empty author stays open to
    everybody. *)
Theorem add_establishes_ownership {T : Unicode.Tables} :
  ∀ (env env' : Env) (trigger trigger' response response' authorID other guildID : string)
    (w : World),
    EqualFold (ToLower trigger) trigger = true →
    (addAutoReply env trigger response authorID guildID w).1.1.1 = true →
    authorID ≠ "" → other ≠ authorID →
    EqualFold trigger trigger' = true →
    let w1 := (addAutoReply env trigger response authorID guildID w).2 in
    addAutoReply env' trigger' response' other guildID w1
      = ((false, notYours other, ""), w1)
    ∧ removeAutoReply env' trigger' other guildID w1
      = ((false, notYours other, ""), w1).
Proof.
  intros env env' trigger trigger' response response' authorID other guildID w
    Hfits Hok Hauthor Hother Hfold.
  destruct (addAutoReply_ok_found _ _ _ _ _ _ Hfits Hok)
    as (replies & i & reply & Hidx & Hfind & _ & Ha).
  simpl. rewrite (findTrigger_fold _ _ _ _ Hfold) in Hfind.
  assert (notAuthor reply other = true) as Hna.
  { apply notAuthor_true. rewrite Ha. split; congruence. }
  split.
  - by eapply addAutoReply_refused.
  - by eapply removeAutoReply_refused.
Qed.

Lemma add_establishes_ownership_witness :
  let w1 := (addAutoReply quietEnv "Hello" "hi" "U1" "S1" emptyWorld).2 in
  addAutoReply quietEnv "HELLO" "yo" "U2" "S1" w1 = ((false, notYours "U2", ""), w1)
  ∧ removeAutoReply quietEnv "HELLO" "U2" "S1" w1 = ((false, notYours "U2", ""), w1).
Proof.
  apply (add_establishes_ownership quietEnv quietEnv "Hello" "HELLO" "hi" "yo"
           "U1" "U2" "S1" emptyWorld);
    [reflexivity|reflexivity|discriminate|discriminate|].
  vm_compute. reflexivity.
Defined.

(** X5. Adding a rule whose trigger is new in the scope, and equals its own
    lower case when case is ignored, and removing it again, by the same
    caller, gives the rule store back, except that a scope that held no rule
    is left without an entry (also when it had an empty one before). *)
Theorem add_then_remove {T : Unicode.Tables} :
  ∀ (env env' : Env) (trigger response authorID guildID : string) (w : World),
    EqualFold (ToLower trigger) trigger = true →
    (∀ reply, reply ∈ elems (index (serverAutoReplies w) guildID) →
              EqualFold (Trigger reply) trigger = false) →
    let w1 := (addAutoReply env trigger response authorID guildID w).2 in
    (removeAutoReply env' trigger authorID guildID w1).1
      = (true, "Auto-reply removed successfully!", "")
    ∧ serverAutoReplies (removeAutoReply env' trigger authorID guildID w1).2
      = match elems (index (serverAutoReplies w) guildID) with
        | [] => delete guildID (serverAutoReplies w)
        | _ => serverAutoReplies w
        end.
Proof.
  intros env env' trigger response authorID guildID w Hfits Hnone.
  apply (findTrigger_None _ _ 0) in Hnone.
  simpl. rewrite (addAutoReply_created _ _ _ _ _ _ Hnone). simpl.
  set (replies := elems (index (serverAutoReplies w) guildID)) in *.
  set (new := {| Trigger := ToLower trigger; Response := response;
                 AuthorID := authorID |}).
  set (w1 := saveAutoReplies env _).
  assert (index (serverAutoReplies w1) guildID = Some (replies ++ [new]))
    as Hidx1.
  { unfold w1. rewrite serverAutoReplies_save. simpl. apply index_insert. }
  assert (findTrigger (replies ++ [new]) trigger 0
          = Some (length replies, new)) as Hfind1.
  { rewrite findTrigger_app by done. simpl. by rewrite Hfits. }
  rewrite (removeAutoReply_removed _ _ _ _ _ _ _ _ Hidx1 Hfind1)
    by by apply notAuthor_self.
  simpl. split; [done|]. rewrite serverAutoReplies_save. simpl.
  rewrite take_app_length, drop_ge
    by (rewrite length_app; simpl; lia).
  rewrite app_nil_r. unfold w1. rewrite serverAutoReplies_save. simpl.
  subst replies.
  destruct (index (serverAutoReplies w) guildID) as [[|r l]|] eqn:Hidx0; simpl.
  - by rewrite delete_insert_eq.
  - rewrite insert_insert_eq. by apply insert_id, index_Some.
  - by rewrite delete_insert_eq.
Qed.

Lemma add_then_remove_witness :
  let w1 := (addAutoReply quietEnv "hello" "hi" "U2" "S1" byeWorld).2 in
  (removeAutoReply quietEnv "hello" "U2" "S1" w1).1
    = (true, "Auto-reply removed successfully!", "")
  ∧ serverAutoReplies (removeAutoReply quietEnv "hello" "U2" "S1" w1).2
    = match elems (index (serverAutoReplies byeWorld) "S1") with
      | [] => delete "S1" (serverAutoReplies byeWorld)
      | _ => serverAutoReplies byeWorld
      end.
Proof.
  apply (add_then_remove quietEnv quietEnv "hello" "hi" "U2" "S1" byeWorld);
    [reflexivity|].
  intros reply [->|Hin%elem_of_nil]%elem_of_cons; [|done].
  vm_compute. reflexivity.
Defined.

(** X6. A call of [removeAutoReply] that returns ok takes exactly one rule
    out of the scope: the first one whose trigger equals the argument when
    case is ignored, which is unowned or owned by the caller. The rules
    before and after it are kept, in their order. *)
Theorem remove_takes_first_match {T : Unicode.Tables} :
  ∀ (env : Env) (trigger authorID guildID : string) (w : World),
    (removeAutoReply env trigger authorID guildID w).1.1.1 = true →
    ∃ before reply after,
      elems (index (serverAutoReplies w) guildID) = before ++ reply :: after ∧
      Forall (λ r, EqualFold (Trigger r) trigger = false) before ∧
      EqualFold (Trigger reply) trigger = true ∧
      (AuthorID reply = "" ∨ AuthorID reply = authorID) ∧
      elems (index (serverAutoReplies
                      (removeAutoReply env trigger authorID guildID w).2) guildID)
        = before ++ after.
Proof.
  intros env trigger authorID guildID w Hok.
  destruct (removeAutoReply_ok_taken _ _ _ _ _ Hok)
    as (replies & i & reply & Hidx & Hfind & Hna & Hnew).
  destruct (findTrigger_Some _ _ _ _ _ Hfind) as (j & -> & Hj & Hf & Hbefore).
  simpl in Hnew. exists (take j replies), reply, (drop (S j) replies).
  rewrite Hidx. simpl. split_and!.
  - by rewrite take_drop_middle.
  - apply Forall_forall. intros r [k Hk]%list_elem_of_lookup.
    apply lookup_take_Some in Hk as [Hk Hlt]. by eapply Hbefore.
  - done.
  - unfold notAuthor in Hna. apply andb_false_iff in Hna.
    destruct Hna as [Hna|Hna]; apply bool_decide_eq_false in Hna.
    + left. by destruct (decide (AuthorID reply = "")).
    + right. by destruct (decide (AuthorID reply = authorID)).
  - done.
Qed.

Lemma remove_takes_first_match_witness :
  ∃ before reply after,
    elems (index (serverAutoReplies greetingsWorld) "S1")
      = before ++ reply :: after ∧
    Forall (λ r, EqualFold (Trigger r) "THERE" = false) before ∧
    EqualFold (Trigger reply) "THERE" = true ∧
    (AuthorID reply = "" ∨ AuthorID reply = "U2") ∧
    elems (index (serverAutoReplies
                    (removeAutoReply quietEnv "THERE" "U2" "S1" greetingsWorld).2)
             "S1")
      = before ++ after.
Proof. apply remove_takes_first_match. reflexivity. Defined.

(** X7. [addAutoReply] never removes or moves a rule: whatever the outcome,
    every rule of the scope is afterwards at the same position with the same
    trigger, spelled as it was stored; it is unchanged, or its trigger equals
    the argument when case is ignored and it now carries the response and the
    author of the call. The scope has as many rules as before, or one more. *)
Theorem add_keeps_rules {T : Unicode.Tables} :
  ∀ (env : Env) (trigger response authorID guildID : string) (w : World),
    let old := elems (index (serverAutoReplies w) guildID) in
    let new := elems (index (serverAutoReplies
                 (addAutoReply env trigger response authorID guildID w).2) guildID) in
    (length new = length old ∨ length new = S (length old)) ∧
    ∀ j rule,
      old !! j = Some rule →
      ∃ rule', new !! j = Some rule' ∧ Trigger rule' = Trigger rule ∧
               (rule' = rule ∨
                (EqualFold (Trigger rule) trigger = true ∧
                 Response rule' = response ∧ AuthorID rule' = authorID)).
Proof.
  intros env trigger response authorID guildID w. simpl.
  destruct (addAutoReply_cases trigger guildID w)
    as [(replies & i & reply & Hidx & Hfind)|Hnone].
  - destruct (notAuthor reply authorID) eqn:Hna.
    + erewrite addAutoReply_refused by done. simpl.
      split; [by left|]. intros j rule Hj. exists rule. auto.
    + erewrite addAutoReply_updated by done. simpl.
      rewrite serverAutoReplies_save. simpl. rewrite index_insert, Hidx. simpl.
      split; [left; by rewrite !length_alter|].
      intros j rule Hj. rewrite !list_lookup_alter.
      destruct (findTrigger_Some _ _ _ _ _ Hfind) as (k & -> & Hk & Hf & _).
      simpl. destruct (decide (k = j)) as [->|Hne].
      * rewrite Hj, !decide_True by done.
        exists (setAuthorID authorID (setResponse response rule)).
        split; [done|]. split; [done|]. right. by simplify_eq.
      * exists rule. auto.
  - rewrite addAutoReply_created by done. simpl.
    rewrite serverAutoReplies_save. simpl. rewrite index_insert. simpl.
    split; [right; rewrite length_app; simpl; lia|].
    intros j rule Hj. exists rule. split; [|auto].
    by apply lookup_app_l_Some.
Qed.

Lemma add_keeps_rules_witness :
  ∃ rule',
    elems (index (serverAutoReplies
                    (addAutoReply quietEnv "BYE" "later" "U1" "S1" byeWorld).2) "S1")
      !! 0%nat = Some rule' ∧
    Trigger rule' = "bye" ∧
    (rule' = {| Trigger := "bye"; Response := "cya"; AuthorID := "U1" |}
     ∨ (EqualFold "bye" "BYE" = true ∧
        Response rule' = "later" ∧ AuthorID rule' = "U1")).
Proof.
  destruct (add_keeps_rules quietEnv "BYE" "later" "U1" "S1" byeWorld)
    as [_ Hrules].
  apply (Hrules 0%nat {| Trigger := "bye"; Response := "cya"; AuthorID := "U1" |}).
  reflexivity.
Defined.

Module EndToEndFacts.

Import Utf8Facts StringFacts FieldsFacts TrimFacts MatcherFacts StoreFacts.
Import ManagerFacts Invariants HandlerFacts.

(** A plain word is the one token of the message it makes. *)
Lemma containsWholeWord_plainWord (s trigger : string) :
  plainWord s → containsWholeWord s trigger = true ↔ trigger = s.
Proof.
  intros (Hne & Hsp & Hf & Hl). unfold containsWholeWord.
  rewrite Fields_one_word by done.
  assert (Trim s punctuation = s) as Htrim.
  { apply Trim_stripped. exists "", "". by rewrite append_nil_l, append_nil_r. }
  simpl. rewrite Htrim.
  destruct (String.eqb_spec s trigger); naive_solver.
Qed.

Lemma messageCreate_range_silent env m content replies w :
  (∀ r, r ∈ replies → containsWholeWord content (Trigger r) = false) →
  messageCreate_range env m content replies w = w.
Proof.
  induction replies as [|r replies IH]; intros Hnone; [done|].
  simpl. rewrite (Hnone r) by left. apply IH.
  intros r' Hr'. apply Hnone. by right.
Qed.

(** The rules that do not match are passed over. *)
Lemma messageCreate_range_skip env m content before rest w :
  (∀ r, r ∈ before → containsWholeWord content (Trigger r) = false) →
  messageCreate_range env m content (before ++ rest) w
  = messageCreate_range env m content rest w.
Proof.
  induction before as [|r before IH]; intros Hnone; [done|].
  simpl. rewrite (Hnone r) by left. apply IH.
  intros r' Hr'. apply Hnone. by right.
Qed.

End EndToEndFacts.

Import EndToEndFacts.

(** X8. Adding a rule makes the bot answer. After a call of [addAutoReply]
    for a trigger that is new in the scope, that equals its own lower case
    when case is ignored and whose lower case is a plain word, a message of
    a user in that guild whose content, trimmed and lower-cased, is the
    lower-cased trigger is answered by one reply, which carries the response
    of the call. *)
Theorem add_then_message_replies {T : Unicode.Tables} :
  ∀ (env env' : Env) (trigger response authorID : string) (m : MessageCreate)
    (w : World),
    (∀ reply, reply ∈ elems (index (serverAutoReplies w) (GuildID m)) →
              EqualFold (Trigger reply) trigger = false) →
    EqualFold (ToLower trigger) trigger = true →
    plainWord (ToLower trigger) →
    Author_Bot m = false → GuildID m ≠ "" →
    ToLower (TrimSpace (Content m)) = ToLower trigger →
    let w1 := (addAutoReply env trigger response authorID (GuildID m) w).2 in
    ∃ sent,
      events (messageCreate env' m w1) = events w1 ++ sent ∧
      replies_sent sent = [response] ∧
      Forall (λ content, content = response) (messages_sent sent).
Proof.
  intros env env' trigger response authorID m w Hnone Hfits Hplain Hbot Hguild
    Hcontent.
  assert (findTrigger (elems (index (serverAutoReplies w) (GuildID m))) trigger 0
          = None) as Hfind by by apply findTrigger_None.
  simpl. rewrite (addAutoReply_created _ _ _ _ _ _ Hfind). simpl.
  set (rules := elems (index (serverAutoReplies w) (GuildID m))) in *.
  set (new := {| Trigger := ToLower trigger; Response := response;
                 AuthorID := authorID |}).
  set (w1 := saveAutoReplies env _).
  assert (index (serverAutoReplies w1) (GuildID m) = Some (rules ++ [new]))
    as Hidx1.
  { unfold w1. rewrite serverAutoReplies_save. simpl. apply index_insert. }
  unfold messageCreate. rewrite Hbot, Hidx1, Hcontent.
  rewrite decide_False by done.
  rewrite decide_False by (unfold len; simpl; rewrite length_app; simpl; lia).
  rewrite decide_False by (by destruct Hplain as [? _]).
  simpl. rewrite messageCreate_range_skip.
  - simpl.
    rewrite (proj2 (containsWholeWord_plainWord _ (ToLower trigger) Hplain))
      by done.
    apply (sendAutoReply_events env' m new w1).
  - intros r Hr.
    destruct (containsWholeWord (ToLower trigger) (Trigger r)) eqn:Hc; [|done].
    apply containsWholeWord_plainWord in Hc; [|done].
    specialize (Hnone r Hr). rewrite Hc, Hfits in Hnone. done.
Qed.

Lemma add_then_message_replies_witness :
  let w1 := (addAutoReply quietEnv "Hello" "hi there" "U1" "S1" byeWorld).2 in
  ∃ sent,
    events (messageCreate quietEnv (userMessage "  HELLO ") w1) = events w1 ++ sent ∧
    replies_sent sent = ["hi there"] ∧
    Forall (λ content, content = "hi there") (messages_sent sent).
Proof.
  apply (add_then_message_replies quietEnv quietEnv "Hello" "hi there" "U1"
           (userMessage "  HELLO ") byeWorld).
  - intros reply [->|Hin%elem_of_nil]%elem_of_cons; [|done].
    vm_compute. reflexivity.
  - reflexivity.
  - split_and!; [discriminate|by repeat constructor|reflexivity|reflexivity].
  - reflexivity.
  - discriminate.
  - vm_compute. reflexivity.
Defined.

(** X9. Removing a rule makes the bot silent again. A call of
    [removeAutoReply] that returns ok, in a scope whose stored triggers are
    pairwise distinct, takes a rule out of the scope whose trigger equals
    the argument when case is ignored; from then on a message of that guild
    whose content, trimmed and lower-cased, is the trigger of that rule, a
    plain word, is not answered. *)
Theorem remove_then_message_silent {T : Unicode.Tables} :
  ∀ (env : Env) (trigger authorID guildID : string) (w : World),
    (removeAutoReply env trigger authorID guildID w).1.1.1 = true →
    NoDup (Trigger <$> elems (index (serverAutoReplies w) guildID)) →
    let w1 := (removeAutoReply env trigger authorID guildID w).2 in
    ∃ reply,
      reply ∈ elems (index (serverAutoReplies w) guildID) ∧
      (reply ∉ elems (index (serverAutoReplies w1) guildID)) ∧
      EqualFold (Trigger reply) trigger = true ∧
      ∀ (env' : Env) (m : MessageCreate),
        GuildID m = guildID → plainWord (Trigger reply) →
        ToLower (TrimSpace (Content m)) = Trigger reply →
        messageCreate env' m w1 = w1.
Proof.
  intros env trigger authorID guildID w Hok Hnodup. simpl.
  destruct (removeAutoReply_ok_taken _ _ _ _ _ Hok)
    as (replies & i & reply & Hidx & Hfind & _ & Hnew).
  destruct (findTrigger_Some _ _ _ _ _ Hfind) as (j & -> & Hj & Hfold & _).
  simpl in Hnew.
  set (before := take j replies) in *. set (after := drop (S j) replies) in *.
  assert (elems (index (serverAutoReplies w) guildID) = before ++ reply :: after)
    as Hold.
  { rewrite Hidx. simpl. unfold before, after. by rewrite take_drop_middle. }
  set (w1 := (removeAutoReply env trigger authorID guildID w).2) in *.
  rewrite Hold, fmap_app, fmap_cons in Hnodup.
  apply NoDup_app in Hnodup as (_ & Hbefore & [Hafter _]%NoDup_cons).
  assert (∀ r, r ∈ before ++ after → Trigger r ≠ Trigger reply) as Hrest.
  { intros r [Hr|Hr]%elem_of_app Heq.
    - apply (Hbefore (Trigger r)).
      + apply list_elem_of_fmap. by exists r.
      + rewrite Heq. left.
    - apply Hafter. rewrite <- Heq. apply list_elem_of_fmap. by exists r. }
  exists reply. split_and!.
  - rewrite Hold. apply elem_of_app. right. left.
  - rewrite Hnew. intros Hin. by apply (Hrest reply).
  - done.
  - intros env' m <- Hplain Hcontent. unfold messageCreate.
    repeat (case_match; try done).
    rewrite Hcontent, Hnew. apply messageCreate_range_silent.
    intros r Hr.
    destruct (containsWholeWord (Trigger reply) (Trigger r)) eqn:Hc; [|done].
    apply containsWholeWord_plainWord in Hc; [|done].
    by destruct (Hrest r Hr).
Qed.

Lemma remove_then_message_silent_witness :
  let w1 := (removeAutoReply quietEnv "THERE" "U2" "S1" greetingsWorld).2 in
  ∃ reply,
    reply ∈ elems (index (serverAutoReplies greetingsWorld) "S1") ∧
    (reply ∉ elems (index (serverAutoReplies w1) "S1")) ∧
    EqualFold (Trigger reply) "THERE" = true ∧
    ∀ (env' : Env) (m : MessageCreate),
      GuildID m = "S1" → plainWord (Trigger reply) →
      ToLower (TrimSpace (Content m)) = Trigger reply →
      messageCreate env' m w1 = w1.
Proof.
  apply (remove_then_message_silent quietEnv "THERE" "U2" "S1" greetingsWorld).
  - reflexivity.
  - vm_compute. repeat constructor; set_solver.
Defined.

(** * Further properties of the matcher and of the message handler *)

Module WordFacts.

Import Utf8Facts StringFacts FieldsFacts TrimFacts MatcherFacts.

Local Open Scope N_scope.

Lemma FieldsFunc_go_join (a b : list (N * string)) (c : N * string) (f : string) :
  Unicode.IsSpace c.1 = true →
  FieldsFunc_go Unicode.IsSpace f (a ++ c :: b)
  = FieldsFunc_go Unicode.IsSpace f a ++ FieldsFunc_go Unicode.IsSpace "" b.
Proof.
  intros Hc. revert f. induction a as [|d a IH]; intros f.
  - simpl. by rewrite Hc.
  - simpl. destruct (Unicode.IsSpace d.1).
    + by rewrite IH, (assoc_L (++)).
    + apply IH.
Qed.

(** A white space byte between two texts keeps their words apart. *)
Lemma Fields_join (a b : string) (c : ascii) :
  asciiSpace c = true → Fields (a +:+ String c b) = Fields a ++ Fields b.
Proof.
  intros Hc. pose proof (asciiSpace_byte c Hc) as Hbyte.
  rewrite !Fields_runes, runes_app_ascii by done.
  apply FieldsFunc_go_join. simpl. by rewrite IsSpace_byte.
Qed.

Lemma containsWholeWord_range_app (ws ws' : list string) (trigger : string) :
  containsWholeWord_range (ws ++ ws') trigger
  = containsWholeWord_range ws trigger || containsWholeWord_range ws' trigger.
Proof.
  induction ws as [|w ws IH]; [done|]. simpl.
  by destruct (String.eqb (Trim w punctuation) trigger).
Qed.

Lemma Trim_nil_iff (word : string) :
  Trim word punctuation = "" ↔ all isPunctuation word = true.
Proof.
  split.
  - intros (leading & trailing & -> & Hl & Ht & _)%Trim_stripped.
    rewrite append_nil_l, all_app, Hl, Ht. done.
  - intros Hw. unfold Trim. by rewrite trimRight_all.
Qed.



End WordFacts.

Import WordFacts.



(** X11. The empty trigger matches exactly the messages that have a word made
    of punctuation only. *)
Theorem empty_trigger_matches_punctuation :
  ∀ message : string,
    containsWholeWord message "" = true
    ↔ ∃ word, word ∈ Fields message ∧ all isPunctuation word = true.
Proof.
  intros message. unfold containsWholeWord.
  rewrite containsWholeWord_range_true.
  split; intros (word & Hin & Hw); exists word; split; try done;
    by apply Trim_nil_iff.
Qed.

(** X12. The matcher looks at each word on its own: a message made of two
    texts with a white space byte between them matches a trigger exactly
    when one of the two texts does. *)
Theorem matcher_of_joined_texts :
  ∀ (a b trigger : string) (c : ascii),
    asciiSpace c = true →
    containsWholeWord (a +:+ String c b) trigger
    = containsWholeWord a trigger || containsWholeWord b trigger.
Proof.
  intros a b trigger c Hc. unfold containsWholeWord.
  rewrite Fields_join by done. apply containsWholeWord_range_app.
Qed.

Lemma matcher_of_joined_texts_witness :
  containsWholeWord ("well, hello" +:+ String " " "there!") "hello"
  = containsWholeWord "well, hello" "hello" || containsWholeWord "there!" "hello".
Proof. apply matcher_of_joined_texts. reflexivity. Defined.

Module QuietFacts.

Import ManagerFacts.

Lemma files_messageCreate {T : Unicode.Tables} env m w :
  files (messageCreate env m w) = files w.
Proof.
  unfold messageCreate. repeat (case_match; try done).
  generalize (elems (index (serverAutoReplies w) (GuildID m))).
  intros l. induction l as [|r l IH]; simpl; [done|].
  case_match; [|done]. unfold sendAutoReply. by case_match.
Qed.

Lemma sendAutoReply_answers env m reply w :
  ∃ sent, events (sendAutoReply env m reply w) = events w ++ sent
          ∧ Forall (answers env m) sent.
Proof.
  unfold sendAutoReply. destruct (SendReply_fails env) eqn:Hfails; simpl.
  - eexists [_; _; _]. rewrite <- !(assoc_L (++)). simpl.
    split; [done|]. by repeat constructor.
  - eexists [_]. split; [done|]. by repeat constructor.
Qed.

End QuietFacts.

Import QuietFacts.

(** X13. The message handler only reads the rules of the guild of the
    message: it changes neither the rule store nor the file, it returns at
    once for a message of a bot and for a message outside a guild, and in two
    worlds that agree on that guild it adds the same calls. *)
Theorem messageCreate_reads_one_guild {T : Unicode.Tables} :
  (∀ (env : Env) (m : MessageCreate) (w : World),
     serverAutoReplies (messageCreate env m w) = serverAutoReplies w
     ∧ files (messageCreate env m w) = files w)
  ∧ (∀ (env : Env) (m : MessageCreate) (w : World),
       Author_Bot m = true ∨ GuildID m = "" → messageCreate env m w = w)
  ∧ (∀ (env : Env) (m : MessageCreate) (w1 w2 : World),
       index (serverAutoReplies w1) (GuildID m)
         = index (serverAutoReplies w2) (GuildID m) →
       ∃ sent, events (messageCreate env m w1) = events w1 ++ sent
               ∧ events (messageCreate env m w2) = events w2 ++ sent).
Proof.
  split_and!.
  - intros env m w. split.
    + apply serverAutoReplies_messageCreate.
    + apply files_messageCreate.
  - intros env m w [Hbot|Hguild]; unfold messageCreate.
    + by rewrite Hbot.
    + rewrite Hguild. by destruct (Author_Bot m).
  - intros env m w1 w2 Hsame. unfold messageCreate. rewrite <- Hsame.
    repeat (case_match; try (exists []; by rewrite !app_nil_r)).
    generalize (elems (index (serverAutoReplies w1) (GuildID m))).
    intros l. induction l as [|r l IH]; simpl.
    + exists []. by rewrite !app_nil_r.
    + case_match; [|done]. unfold sendAutoReply.
      destruct (SendReply_fails env); simpl.
      * eexists [_; _; _]. by rewrite <- !(assoc_L (++)).
      * by eexists [_].
Qed.

Lemma messageCreate_reads_one_guild_witness :
  messageCreate quietEnv
    {| Author_Bot := true; GuildID := "S1"; ChannelID := "C1"; ID := "M1";
       Content := "bye" |} byeWorld = byeWorld
  ∧ ∃ sent,
      events (messageCreate quietEnv (userMessage "bye") byeWorld)
        = events byeWorld ++ sent
      ∧ events (messageCreate quietEnv (userMessage "bye") brokenFileWorld)
        = events brokenFileWorld ++ sent.
Proof.
  destruct (messageCreate_reads_one_guild (T := sampleTables))
    as (_ & Hignored & Hsame).
  split.
  - apply Hignored. by left.
  - apply Hsame. reflexivity.
Defined.

(** X14. Whatever the handler sends answers the message: the reply goes to
    the channel of the message and refers to that message, a regular message
    to the same channel and the log line come only after a reply that
    failed, and the file is never written. *)
Theorem messageCreate_answers_in_place {T : Unicode.Tables} :
  ∀ (env : Env) (m : MessageCreate) (w : World),
    ∃ sent, events (messageCreate env m w) = events w ++ sent
            ∧ Forall (answers env m) sent.
Proof.
  intros env m w. unfold messageCreate.
  repeat (case_match; try (exists []; by rewrite !app_nil_r)).
  generalize (elems (index (serverAutoReplies w) (GuildID m))).
  intros l. induction l as [|r l IH]; simpl.
  - exists []. by rewrite !app_nil_r.
  - case_match; [|done]. apply sendAutoReply_answers.
Qed.

(** * Further properties of the persistence *)

(** X15. [loadAutoReplies] starts from an empty map whatever was in memory,
    and never writes the file. Without a file the store is empty and nothing
    is logged; with a file that cannot be read, or that is not JSON, the
    store is empty and one error is logged. *)
Theorem loadAutoReplies_edge_cases {T : Unicode.Tables} :
  (∀ (env : Env) (w : World) (m : ServerAutoReplies),
     loadAutoReplies env (setReplies m w) = loadAutoReplies env w)
  ∧ (∀ (env : Env) (w w1 : World),
       loadAutoReplies env w = Some w1 → files w1 = files w)
  ∧ (∀ (env : Env) (w : World),
       files w !! dataFile = None →
       loadAutoReplies env w
       = Some {| serverAutoReplies := ∅; files := files w; events := events w |})
  ∧ (∀ (env : Env) (w : World),
       (files w !! dataFile = Some Malformed ∧ ReadFile_fails env = false)
       ∨ (is_Some (files w !! dataFile) ∧ ReadFile_fails env = true) →
       ∃ msg,
         (msg = ErrorParsingFile ∨ msg = ErrorReadingFile) ∧
         loadAutoReplies env w
         = Some {| serverAutoReplies := ∅; files := files w;
                   events := events w ++ [LogPrintf msg] |}).
Proof.
  split_and!.
  - done.
  - intros env w w1. unfold loadAutoReplies. simpl.
    repeat case_match; intros [= <-]; done.
  - intros env w Hnone. unfold loadAutoReplies. simpl. by rewrite Hnone.
  - intros env w [[Hfile Hread]|[[c Hfile] Hread]];
      unfold loadAutoReplies; simpl; rewrite Hfile, Hread.
    + exists ErrorParsingFile. auto.
    + exists ErrorReadingFile. auto.
Qed.

Lemma loadAutoReplies_edge_cases_witness :
  files (setReplies ∅ byeWorld) = files byeWorld
  ∧ loadAutoReplies quietEnv byeWorld
    = Some {| serverAutoReplies := ∅; files := files byeWorld;
              events := events byeWorld |}
  ∧ ∃ msg,
      (msg = ErrorParsingFile ∨ msg = ErrorReadingFile) ∧
      loadAutoReplies quietEnv brokenFileWorld
      = Some {| serverAutoReplies := ∅; files := files brokenFileWorld;
                events := events brokenFileWorld ++ [LogPrintf msg] |}.
Proof.
  destruct (loadAutoReplies_edge_cases (T := sampleTables))
    as (_ & Hfiles & Hmissing & Hbroken).
  split_and!.
  - apply (Hfiles quietEnv byeWorld). reflexivity.
  - apply Hmissing. reflexivity.
  - apply Hbroken. left. split; reflexivity.
Defined.

(** * Properties of the slash commands *)

Module CommandFacts.

Import StringFacts StoreFacts ManagerFacts.

Section with_tables.

Context {T : Unicode.Tables}.

Lemma Contains_notYours (authorID : string) :
  Contains (notYours authorID) publicMarker = true.
Proof. reflexivity. Qed.

Lemma failureNotice_notYours (authorID : string) :
  failureNotice (notYours authorID) = (notYours authorID, 0%N).
Proof. unfold failureNotice. by rewrite Contains_notYours. Qed.

(** The two outcomes of [removeAutoReply] that are not ok, and the one of
    [addAutoReply]. *)
Lemma removeAutoReply_outcomes env trigger authorID guildID w :
  let result := removeAutoReply env trigger authorID guildID w in
  (result.1 = (true, "Auto-reply removed successfully!", ""))
  ∨ (result = ((false, notYours authorID, ""), w))
  ∨ (result = ((false, "No auto-reply found for that trigger.", ""), w)).
Proof.
  simpl. destruct (addAutoReply_cases trigger guildID w)
    as [(replies & i & reply & Hidx & Hfind)|Hnone].
  - destruct (notAuthor reply authorID) eqn:Hna.
    + right. left. by eapply removeAutoReply_refused.
    + left. by erewrite removeAutoReply_removed.
  - right. right. by apply removeAutoReply_not_found.
Qed.

Lemma addAutoReply_outcomes env trigger response authorID guildID w :
  let result := addAutoReply env trigger response authorID guildID w in
  result.1.1.1 = true ∨ result = ((false, notYours authorID, ""), w).
Proof.
  simpl. destruct (addAutoReply_cases trigger guildID w)
    as [(replies & i & reply & Hidx & Hfind)|Hnone].
  - destruct (notAuthor reply authorID) eqn:Hna.
    + right. by eapply addAutoReply_refused.
    + left. by erewrite addAutoReply_updated.
  - left. by rewrite addAutoReply_created.
Qed.

End with_tables.

End CommandFacts.

Import CommandFacts.

(** X16. The /reply command answers with exactly one response, and that
    response is public exactly when it is the notice of a refused change:
    then its text is the message that names the caller and the world is as
    it was. Every other response (success, not found, a missing response
    text, a command outside a guild) is ephemeral. *)
Theorem reply_public_iff_refused {T : Unicode.Tables} :
  ∀ (env : Env) (i : InteractionCreate) (w w' : World) (calls : list call),
    handleReplyCommand env i w = Some (calls, w') →
    ∃ data,
      calls = [InteractionRespond
                 {| r_Type := InteractionResponseChannelMessageWithSource;
                    r_Data := Some data |}] ∧
      (d_Flags data = MessageFlagsEphemeral ∨ d_Flags data = 0%N) ∧
      (d_Flags data = 0%N ↔
       d_Content data = notYours (userIDOf i) ∧ d_Embeds data = [] ∧ w' = w).
Proof.
  intros env i w w' calls. unfold handleReplyCommand.
  case_decide as Hguild.
  { intros [= <- <-]. eexists. split; [done|]. simpl. split; [by left|].
    split; [done|]. by intros [? _]. }
  destruct (i_Options i) as [|trigger rest] eqn:Hoptions; [done|].
  set (response := if decide (1 < length (trigger :: rest))%nat then _ else _).
  set (mode := if decide (2 < length (trigger :: rest))%nat then _ else _).
  case_decide as Hmode.
  { destruct (removeAutoReply_outcomes env trigger (userIDOf i) (i_GuildID i) w)
      as [Hr|[Hr|Hr]]; simpl in Hr.
    - destruct (removeAutoReply env trigger (userIDOf i) (i_GuildID i) w)
        as [[[ok msg] x] w1]. simpl in *. injection Hr as -> -> ->.
      intros [= <- <-]. eexists. split; [done|]. simpl. split; [by left|].
      split; [done|]. by intros [? _].
    - rewrite Hr. cbn [fst snd negb]. rewrite failureNotice_notYours.
      intros [= <- <-].
      eexists. split; [done|]. simpl. split; [by right|]. done.
    - rewrite Hr. simpl. intros [= <- <-].
      eexists. split; [done|]. simpl. split; [by left|].
      split; [done|]. by intros [? _]. }
  case_decide as Hresponse.
  { intros [= <- <-]. eexists. split; [done|]. simpl. split; [by left|].
    split; [done|]. by intros [? _]. }
  destruct (addAutoReply_outcomes env trigger response (userIDOf i) (i_GuildID i) w)
    as [Hr|Hr]; simpl in Hr.
  - rewrite Hr. simpl. intros [= <- <-].
    eexists. split; [done|]. simpl. split; [by left|].
    split; [done|]. by intros [? _].
  - rewrite Hr. cbn [fst snd negb]. rewrite failureNotice_notYours.
      intros [= <- <-].
    eexists. split; [done|]. simpl. split; [by right|]. done.
Qed.

Lemma reply_public_iff_refused_witness :
  ∃ data,
    [respondText (notYours "U2") 0%N]
    = [InteractionRespond
         {| r_Type := InteractionResponseChannelMessageWithSource;
            r_Data := Some data |}] ∧
    (d_Flags data = MessageFlagsEphemeral ∨ d_Flags data = 0%N) ∧
    (d_Flags data = 0%N ↔
     d_Content data = notYours (userIDOf (command "reply" ["bye"; "x"; "remove"] "U2"))
     ∧ d_Embeds data = [] ∧ byeWorld = byeWorld).
Proof.
  apply (reply_public_iff_refused quietEnv
           (command "reply" ["bye"; "x"; "remove"] "U2") byeWorld byeWorld).
  reflexivity.
Defined.

(** X17. A user who is not the author of a rule and asks /reply to change
    or to remove it gets the refusal in public, whichever of the two the
    mode asks for, and nothing is changed (in a rule set with unique
    triggers, for a command that carries a response text). *)
Theorem reply_by_other_user_refused {T : Unicode.Tables} :
  ∀ (env : Env) (i : InteractionCreate) (w : World) (replies : list AutoReply)
    (reply : AutoReply) (trigger response : string) (more : list string),
    i_GuildID i ≠ "" →
    i_Options i = trigger :: response :: more → response ≠ "" →
    serverAutoReplies w !! i_GuildID i = Some (Some replies) →
    unique_triggers replies → reply ∈ replies →
    AuthorID reply ≠ "" → AuthorID reply ≠ userIDOf i →
    EqualFold (Trigger reply) trigger = true →
    handleReplyCommand env i w
    = Some ([respondText (notYours (userIDOf i)) 0%N], w).
Proof.
  intros env i w replies reply trigger response more Hguild Hoptions Hresponse
    Hlookup%index_Some Hunique Hin Hauthor Hcaller Hfold.
  destruct (findTrigger_unique replies trigger reply Hunique Hin Hfold)
    as [j Hfind].
  assert (notAuthor reply (userIDOf i) = true) as Hna by by apply notAuthor_true.
  unfold handleReplyCommand. rewrite Hoptions, decide_False by done.
  rewrite (decide_True (P := (1 < _)%nat)) by (simpl; lia).
  cbn [lookup list_lookup default from_option id].
  case_decide as Hmode.
  - rewrite (removeAutoReply_refused _ _ _ _ _ _ _ _ Hlookup Hfind Hna).
    cbn [fst snd]. by rewrite failureNotice_notYours.
  - rewrite decide_False by done.
    rewrite (addAutoReply_refused _ _ _ _ _ _ _ _ _ Hlookup Hfind Hna).
    cbn [fst snd negb]. by rewrite failureNotice_notYours.
Qed.

Lemma reply_by_other_user_refused_witness :
  handleReplyCommand quietEnv (command "reply" ["Bye"; "later"] "U2") byeWorld
  = Some ([respondText (notYours (userIDOf (command "reply" ["Bye"; "later"] "U2")))
             0%N], byeWorld).
Proof.
  apply (reply_by_other_user_refused quietEnv
           (command "reply" ["Bye"; "later"] "U2") byeWorld
           [{| Trigger := "bye"; Response := "cya"; AuthorID := "U1" |}]
           {| Trigger := "bye"; Response := "cya"; AuthorID := "U1" |}
           "Bye" "later" []).
  - discriminate.
  - reflexivity.
  - discriminate.
  - vm_compute. reflexivity.
  - intros [|a] [|b] ra rb Ha Hb _; simpl in *; done.
  - left.
  - discriminate.
  - discriminate.
  - vm_compute. reflexivity.
Defined.

(** X18. The options of /reply are read by their position: the second is
    the response and only a third can be the mode. With the trigger alone
    nothing is changed and a response text is asked for; with two options
    the rule is added or updated with the second as its response, whatever
    that text is, and nothing is removed. *)
Theorem reply_options_by_position {T : Unicode.Tables} :
  (∀ (env : Env) (i : InteractionCreate) (w : World) (trigger : string),
     i_GuildID i ≠ "" → i_Options i = [trigger] →
     handleReplyCommand env i w
     = Some ([respondText provideResponse MessageFlagsEphemeral], w))
  ∧ (∀ (env : Env) (i : InteractionCreate) (w : World) (trigger second : string),
       i_GuildID i ≠ "" → i_Options i = [trigger; second] → second ≠ "" →
       ∃ calls,
         handleReplyCommand env i w
         = Some (calls,
                 (addAutoReply env trigger second (userIDOf i) (i_GuildID i) w).2)).
Proof.
  split.
  - intros env i w trigger Hguild Hoptions. unfold handleReplyCommand.
    rewrite Hoptions, decide_False by done. reflexivity.
  - intros env i w trigger second Hguild Hoptions Hsecond.
    unfold handleReplyCommand. rewrite Hoptions, decide_False by done.
    rewrite (decide_True (P := (1 < _)%nat)) by (simpl; lia).
    rewrite (decide_False (P := (2 < _)%nat)) by (simpl; lia).
    cbn [lookup list_lookup default from_option id].
    rewrite (decide_False (P := ToLower "add" = "remove")) by done.
    rewrite decide_False by done.
    destruct (negb _); by eexists.
Qed.

Lemma reply_options_by_position_witness :
  handleReplyCommand quietEnv (command "reply" ["bye"] "U1") byeWorld
  = Some ([respondText provideResponse MessageFlagsEphemeral], byeWorld)
  ∧ ∃ calls,
      handleReplyCommand quietEnv (command "reply" ["bye"; "remove"] "U1") byeWorld
      = Some (calls,
              (addAutoReply quietEnv "bye" "remove"
                 (userIDOf (command "reply" ["bye"; "remove"] "U1"))
                 (i_GuildID (command "reply" ["bye"; "remove"] "U1")) byeWorld).2).
Proof.
  destruct (reply_options_by_position (T := sampleTables)) as [Hone Htwo]. split.
  - apply (Hone _ _ _ "bye"); [discriminate|reflexivity].
  - apply (Htwo _ _ _ "bye" "remove"); [discriminate|reflexivity|discriminate].
Defined.

Module ListFacts.

Import Utf8Facts FieldsFacts.

Lemma length_sliceTo (n : nat) (s : string) :
  (n ≤ String.length s)%nat → String.length (sliceTo n s) = n.
Proof.
  revert s. induction n as [|n IH]; intros [|c s]; simpl; try done; try lia.
  intros Hn. rewrite IH; lia.
Qed.

Lemma sliceTo_prefix (n : nat) (s : string) : ∃ rest, s = sliceTo n s +:+ rest.
Proof.
  revert s. induction n as [|n IH]; intros s.
  - exists s. by destruct s.
  - destruct s as [|c s]; [by exists ""|].
    destruct (IH s) as [rest Hrest]. exists rest. simpl.
    by rewrite append_cons, <- Hrest.
Qed.

(** What the list shows of a response: the whole of it up to 100 bytes, its
    first 100 bytes and three dots beyond. *)
Lemma shown_response (response : string) :
  let shown :=
    if decide (100 < String.length response)%nat
    then sliceTo 100 response +:+ "..." else response in
  ((String.length response ≤ 100)%nat ∧ shown = response)
  ∨ ((100 < String.length response)%nat ∧
     ∃ head rest, response = head +:+ rest ∧ String.length head = 100%nat ∧
                  shown = head +:+ "...").
Proof.
  simpl. case_decide as Hlong.
  - right. split; [done|]. destruct (sliceTo_prefix 100 response) as [rest Hrest].
    exists (sliceTo 100 response), rest. split; [done|].
    split; [|done]. apply length_sliceTo. lia.
  - left. split; [lia|done].
Qed.

End ListFacts.

Import ListFacts.

(** X19. The /list_replies command is answered by one ephemeral response.
    Outside a guild and for a guild without rules it is a text; otherwise it
    is an embed with one field for every rule of the guild, in the order of
    the rules, and the number of rules in the footer. A field names the
    trigger as it is stored and shows the response, whole when it has at
    most 100 bytes and cut after its first 100 bytes, with three dots, when
    it is longer, followed by the author when the rule has one. *)
Theorem list_command_shows_rules :
  (∀ (i : InteractionCreate) (w : World),
     i_GuildID i = "" →
     handleListRepliesCommand i w
     = [respondText onlyInServers MessageFlagsEphemeral])
  ∧ (∀ (i : InteractionCreate) (w : World),
       i_GuildID i ≠ "" →
       elems (index (serverAutoReplies w) (i_GuildID i)) = [] →
       handleListRepliesCommand i w = [respondText noRules MessageFlagsEphemeral])
  ∧ (∀ (i : InteractionCreate) (w : World),
       i_GuildID i ≠ "" →
       elems (index (serverAutoReplies w) (i_GuildID i)) ≠ [] →
       let rules := elems (index (serverAutoReplies w) (i_GuildID i)) in
       ∃ embed,
         handleListRepliesCommand i w = [respondEmbed embed] ∧
         e_Footer embed = "Total rules: " +:+ pretty (length rules) ∧
         length (e_Fields embed) = length rules ∧
         ∀ j reply,
           rules !! j = Some reply →
           ∃ shown,
             e_Fields embed !! j
             = Some {| f_Name := "Trigger: " +:+ Trigger reply;
                       f_Value :=
                         "Response: " +:+ shown +:+
                         (if decide (AuthorID reply = "") then ""
                          else " (by <@" +:+ AuthorID reply +:+ ">)");
                       f_Inline := false |} ∧
             (((String.length (Response reply) ≤ 100)%nat ∧ shown = Response reply)
              ∨ ((100 < String.length (Response reply))%nat ∧
                 ∃ head rest,
                   Response reply = head +:+ rest ∧
                   String.length head = 100%nat ∧ shown = head +:+ "..."))).
Proof.
  split_and!.
  - intros i w Hguild. unfold handleListRepliesCommand. by rewrite decide_True.
  - intros i w Hguild Hnone. unfold handleListRepliesCommand.
    rewrite decide_False by done. unfold len. rewrite Hnone.
    by rewrite decide_True.
  - intros i w Hguild Hsome. cbv zeta. unfold handleListRepliesCommand.
    rewrite decide_False by done. unfold len.
    set (rules := elems (index (serverAutoReplies w) (i_GuildID i))) in *.
    clearbody rules. rewrite decide_False by (by destruct rules).
    eexists. split; [done|]. simpl. split; [done|].
    split; [by rewrite length_fmap|].
    intros j reply Hj. rewrite list_lookup_fmap, Hj. simpl.
    eexists. split; [|apply shown_response].
    unfold listField, fieldName, fieldValue, byAuthor. do 3 f_equal.
    by destruct (decide (AuthorID reply = "")), (decide (AuthorID reply ≠ "")).
Qed.

Lemma list_command_shows_rules_witness :
  handleListRepliesCommand
    {| i_Type := InteractionApplicationCommand; i_GuildID := "";
       i_Member := None; i_User := Some "U1"; i_Name := "list_replies";
       i_Options := [] |} byeWorld
  = [respondText onlyInServers MessageFlagsEphemeral]
  ∧ handleListRepliesCommand (command "list_replies" [] "U1") emptyWorld
    = [respondText noRules MessageFlagsEphemeral]
  ∧ ∃ embed,
      handleListRepliesCommand (command "list_replies" [] "U1") greetingsWorld
      = [respondEmbed embed] ∧
      e_Footer embed = "Total rules: 2" ∧
      length (e_Fields embed) = 2%nat.
Proof.
  destruct list_command_shows_rules as (Hdm & Hnone & Hrules).
  split_and!.
  - apply Hdm. reflexivity.
  - apply Hnone; [discriminate|reflexivity].
  - destruct (Hrules (command "list_replies" [] "U1") greetingsWorld)
      as (embed & Hcalls & Hfooter & Hlength & _); [discriminate..|].
    exists embed. split_and!; [exact Hcalls|exact Hfooter|exact Hlength].
Defined.

Module DispatchFacts.

Import Utf8Facts ListFacts.

Lemma handleReplyCommand_one_call {T : Unicode.Tables} env i w calls w' :
  handleReplyCommand env i w = Some (calls, w') →
  ∃ resp, calls = [InteractionRespond resp].
Proof.
  unfold handleReplyCommand. repeat case_match; try done;
    intros [= <- <-]; by eexists.
Qed.

Lemma handleListRepliesCommand_one_call i w :
  ∃ resp, handleListRepliesCommand i w = [InteractionRespond resp].
Proof. unfold handleListRepliesCommand. repeat case_decide; by eexists. Qed.

Lemma handleAnalisisCommand_calls {T : Unicode.Tables} out i calls :
  handleAnalisisCommand out i = Some calls →
  ∃ resp, calls = [InteractionRespond resp]
          ∨ ∃ data, calls = [InteractionRespond resp; FollowupMessageCreate true data].
Proof.
  unfold handleAnalisisCommand. repeat case_match; try done;
    intros [= <-]; eexists; (by left) || (right; by eexists).
Qed.

Lemma length_cleanDescription (text : string) :
  (String.length (cleanDescription text) ≤ 203)%nat.
Proof.
  unfold cleanDescription. case_decide as Hlong; [|lia].
  rewrite length_append, length_sliceTo by lia. simpl. lia.
Qed.

Lemma findTopic_exact (order : list (string * string)) (key url : string) :
  NoDup order.*1 → (key, url) ∈ order →
  (∀ k u, (k, u) ∈ order →
          Contains key k || String.eqb k key = true → k = key) →
  findTopic order key = (url, key).
Proof.
  induction order as [|[k u] order IH]; intros Hnodup Hin Hsep.
  - by apply elem_of_nil in Hin.
  - simpl. apply NoDup_cons in Hnodup as [Hk Hnodup].
    destruct (Contains key k || String.eqb k key) eqn:Hmatch.
    + assert (k = key) as -> by (apply (Hsep k u); [left|done]).
      apply elem_of_cons in Hin as [[= ->]|Hin]; [done|].
      destruct Hk. apply list_elem_of_fmap. by exists (key, url).
    + apply elem_of_cons in Hin as [[= <- <-]|Hin].
      * by rewrite String.eqb_refl, orb_true_r in Hmatch.
      * apply IH; [done..|]. intros k' u' Hin'. apply (Hsep k' u'). by right.
Qed.

(** No key of [rssTopics] holds another key. *)
Lemma rssTopics_separate key url k u :
  (key, url) ∈ rssTopicsEntries → (k, u) ∈ rssTopicsEntries →
  Contains key k || String.eqb k key = true → k = key.
Proof.
  intros Hkey Hk.
  repeat (apply elem_of_cons in Hkey as [[= -> ->]|Hkey]);
    [..|by apply elem_of_nil in Hkey];
    repeat (apply elem_of_cons in Hk as [[= -> ->]|Hk]);
    try (by apply elem_of_nil in Hk); vm_compute; congruence.
Qed.

End DispatchFacts.

Import DispatchFacts.

(** X20. Of the slash commands only /reply can change anything: for every
    other interaction the world is left as it was. An interaction that is
    not a command, or a command of another name than the five, is not
    answered at all; each of the five commands is answered by a response
    first, which only /analisis may follow up with one message. *)
Theorem only_reply_changes_the_world {T : Unicode.Tables} :
  ∀ (env : Env) (out : Outside) (i : InteractionCreate) (w w' : World)
    (calls : list call),
    interactionCreate env out i w = Some (calls, w') →
    (i_Type i ≠ InteractionApplicationCommand ∨ i_Name i ≠ "reply" → w' = w)
    ∧ (calls = [] ↔
       i_Type i ≠ InteractionApplicationCommand
       ∨ i_Name i ∉ ["reply"; "list_replies"; "help_reply"; "analisis"; "commands"])
    ∧ (calls = [] ∨
       ∃ resp, calls = [InteractionRespond resp]
               ∨ (i_Name i = "analisis" ∧
                  ∃ data, calls = [InteractionRespond resp;
                                   FollowupMessageCreate true data])).
Proof.
  intros env out i w w' calls. unfold interactionCreate.
  case_decide as Htype.
  { intros [= <- <-]. split_and!; [done| |by left]. split; [by left|done]. }
  case_decide as Hreply.
  { intros Hrun.
    destruct (handleReplyCommand_one_call _ _ _ _ _ Hrun) as [resp ->].
    split_and!.
    - by intros [?|?].
    - split; [done|]. intros [?|Hname]; [done|]. destruct Hname.
      rewrite Hreply. left.
    - right. exists resp. by left. }
  case_decide as Hlist.
  { intros [= <- <-].
    destruct (handleListRepliesCommand_one_call i w) as [resp ->].
    split_and!; [done| |right; exists resp; by left].
    split; [done|]. intros [?|Hname]; [done|]. destruct Hname.
    rewrite Hlist. set_solver. }
  case_decide as Hhelp.
  { intros [= <- <-]. split_and!; [done| |right; eexists; by left].
    split; [done|]. intros [?|Hname]; [done|]. destruct Hname.
    rewrite Hhelp. set_solver. }
  case_decide as Hanalisis.
  { destruct (handleAnalisisCommand out i) as [calls'|] eqn:Hrun; [|done].
    simpl. intros [= <- <-].
    destruct (handleAnalisisCommand_calls _ _ _ Hrun) as [resp [->|[data ->]]].
    - split_and!; [done| |right; exists resp; by left].
      split; [done|]. intros [?|Hname]; [done|]. destruct Hname.
      rewrite Hanalisis. set_solver.
    - split_and!; [done| |right; exists resp; right; split; [done|by exists data]].
      split; [done|]. intros [?|Hname]; [done|]. destruct Hname.
      rewrite Hanalisis. set_solver. }
  case_decide as Hcommands.
  { intros [= <- <-]. split_and!; [done| |right; eexists; by left].
    split; [done|]. intros [?|Hname]; [done|]. destruct Hname.
    rewrite Hcommands. set_solver. }
  intros [= <- <-]. split_and!; [done| |by left].
  split; [|done]. intros _. right. set_solver.
Qed.

Lemma only_reply_changes_the_world_witness :
  (i_Type (command "list_replies" [] "U1") ≠ InteractionApplicationCommand
   ∨ i_Name (command "list_replies" [] "U1") ≠ "reply" → byeWorld = byeWorld)
  ∧ (handleListRepliesCommand (command "list_replies" [] "U1") byeWorld = [] ↔
     i_Type (command "list_replies" [] "U1") ≠ InteractionApplicationCommand
     ∨ i_Name (command "list_replies" [] "U1")
       ∉ ["reply"; "list_replies"; "help_reply"; "analisis"; "commands"])
  ∧ (handleListRepliesCommand (command "list_replies" [] "U1") byeWorld = [] ∨
     ∃ resp,
       handleListRepliesCommand (command "list_replies" [] "U1") byeWorld
       = [InteractionRespond resp]
       ∨ (i_Name (command "list_replies" [] "U1") = "analisis" ∧
          ∃ data,
            handleListRepliesCommand (command "list_replies" [] "U1") byeWorld
            = [InteractionRespond resp; FollowupMessageCreate true data])).
Proof.
  apply (only_reply_changes_the_world quietEnv quietOutside
           (command "list_replies" [] "U1") byeWorld byeWorld).
  reflexivity.
Defined.

(** X21. For each of the eleven topics the /analisis command offers, the
    feed that is looked up is the one the map gives for that topic, in
    whatever order the [range] runs over the map: no key of the map holds
    another. *)
Theorem analisis_topic_any_order :
  ∀ (order : list (string * string)) (topic url : string),
    order ≡ₚ rssTopicsEntries →
    (topic, url) ∈ rssTopicsEntries →
    findTopic order topic = (url, topic).
Proof.
  intros order topic url Horder Htopic. apply findTopic_exact.
  - rewrite Horder. apply (bool_decide_unpack _). by vm_compute.
  - by rewrite Horder.
  - intros k u Hk. rewrite Horder in Hk. by apply (rssTopics_separate _ url _ u).
Qed.

Lemma analisis_topic_any_order_witness :
  findTopic (reverse rssTopicsEntries) "berita"
  = ("https://id.investing.com/rss/news.rss", "berita").
Proof.
  apply analisis_topic_any_order.
  - apply reverse_Permutation.
  - do 9 right. left.
Defined.

(** X22. What /analisis shows of a feed: the embed it follows up with has
    one field for each of the first articles of the feed, five at most, in
    their order, with the title of the article as its name and a
    description of at most 203 bytes before the link. *)
Theorem analisis_shows_at_most_five {T : Unicode.Tables} :
  ∀ (out : Outside) (i : InteractionCreate) (calls : list call) (wait : bool)
    (data : WebhookParams) (embed : MessageEmbed),
    handleAnalisisCommand out i = Some calls →
    FollowupMessageCreate wait data ∈ calls → embed ∈ p_Embeds data →
    length (e_Fields embed) ≤ 5 ∧
    ∃ rss url,
      fetchRSSFeed out url = inr rss ∧
      length (e_Fields embed) ≤ length (channel_Items (rss_Channel rss)) ∧
      ∀ j field,
        e_Fields embed !! j = Some field →
        ∃ item description,
          channel_Items (rss_Channel rss) !! j = Some item ∧
          f_Name field = item_Title item ∧
          f_Value field
          = description +:+ LF +:+ LF +:+ "[Read More](" +:+ item_Link item +:+ ")" ∧
          (String.length description ≤ 203)%nat.
Proof.
  intros out i calls wait data embed. unfold handleAnalisisCommand.
  destruct (i_Options i) as [|option0 rest]; [intros [= <-]; set_solver|].
  destruct (findTopic (lookupOrder out) (ToLower option0)) as [rssURL foundTopic].
  case_decide as Hurl; [intros [= <-]; set_solver|].
  destruct (fetchRSSFeed out rssURL) as [err|rss] eqn:Hfetch.
  { intros [= <-] Hin. unfold followupText in Hin.
    repeat (apply elem_of_cons in Hin as [[=]|Hin]); set_solver. }
  case_decide as Hitems.
  { intros [= <-] Hin. unfold followupText in Hin.
    repeat (apply elem_of_cons in Hin as [[=]|Hin]); set_solver. }
  destruct foundTopic as [|first rest']; [done|].
  intros [= <-] Hin Hembed.
  apply elem_of_cons in Hin as [[=]|Hin].
  apply list_elem_of_singleton in Hin. injection Hin as -> ->.
  simpl in Hembed. apply list_elem_of_singleton in Hembed as ->. simpl.
  set (items := channel_Items (rss_Channel rss)) in *.
  rewrite length_fmap, length_take. split; [case_decide; lia|].
  exists rss, rssURL. split; [done|]. split; [apply Nat.le_min_r|].
  intros j field. rewrite list_lookup_fmap.
  destruct (take _ items !! j) as [item|] eqn:Hj; [|done].
  intros [= <-]. apply lookup_take_Some in Hj as [Hj _].
  exists item, (cleanDescription (item_Description item)).
  split_and!; [done..|]. apply length_cleanDescription.
Qed.

Lemma analisis_shows_at_most_five_witness :
  ∃ embed,
    handleAnalisisCommand quietOutside (command "analisis" ["Forex"] "U1")
    = Some [InteractionRespond
              {| r_Type := InteractionResponseDeferredChannelMessageWithSource;
                 r_Data := None |};
            FollowupMessageCreate true
              {| p_Content := ""; p_Embeds := [embed]; p_Flags := 0%N |}]
    ∧ length (e_Fields embed) ≤ 5.
Proof.
  eexists. split; [reflexivity|].
  eapply (analisis_shows_at_most_five quietOutside
            (command "analisis" ["Forex"] "U1")).
  - reflexivity.
  - right. left.
  - left.
Defined.

Module TopicFacts.

Lemma HasPrefix_refl (s : string) : HasPrefix s s = true.
Proof. induction s as [|c s IH]; [done|]. simpl. by rewrite Ascii.eqb_refl. Qed.

Lemma Contains_refl (s : string) : Contains s s = true.
Proof. destruct s as [|c s]; [done|]. simpl. by rewrite Ascii.eqb_refl, HasPrefix_refl. Qed.

(** What the loop over the topics returns, for any list of entries. *)
Lemma findTopic_found (order : list (string * string)) (topic url key : string) :
  findTopic order topic = (url, key) →
  ((key, url) ∈ order ∧ Contains topic key = true)
  ∨ (url = "" ∧ key = "" ∧
     ∀ k u, (k, u) ∈ order → Contains topic k = false).
Proof.
  induction order as [|[k u] order IH]; simpl.
  - intros [= <- <-]. right. split_and!; [done..|]. by intros k u ?%elem_of_nil.
  - destruct (Contains topic k || String.eqb k topic) eqn:Hmatch.
    + intros [= <- <-]. left. split; [left|].
      apply orb_true_iff in Hmatch as [? | ->%String.eqb_eq]; [done|].
      apply Contains_refl.
    + apply orb_false_iff in Hmatch as [Hk _].
      intros [[Hin Hc]|(-> & -> & Hnone)]%IH.
      * left. split; [by right|done].
      * right. split_and!; [done..|].
        intros k' u' [[= -> ->]|Hin]%elem_of_cons; [done|by eapply Hnone].
Qed.

End TopicFacts.

Import TopicFacts.

(** X23. Whatever the order of the [range] over the map, the /analisis
    command finds a feed exactly when the lower-cased topic holds one of the
    keys of the map somewhere in it, and the feed it finds is the one of
    such a key: the test of the URL against the empty string does tell the
    topics that were not found, since no feed of the map has an empty URL. *)
Theorem analisis_topic_found_iff :
  ∀ (order : list (string * string)) (topic : string),
    order ≡ₚ rssTopicsEntries →
    ((findTopic order topic).1 ≠ ""
     ↔ ∃ key url, (key, url) ∈ rssTopicsEntries ∧ Contains topic key = true)
    ∧ ((findTopic order topic).1 ≠ "" →
       ((findTopic order topic).2, (findTopic order topic).1) ∈ rssTopicsEntries
       ∧ Contains topic (findTopic order topic).2 = true).
Proof.
  intros order topic Horder.
  destruct (findTopic order topic) as [url key] eqn:Hfind. simpl.
  assert (∀ k u, (k, u) ∈ rssTopicsEntries → u ≠ "") as Hurls.
  { intros k u Hin.
    repeat (apply elem_of_cons in Hin as [[= -> ->]|Hin]); try done.
    by apply elem_of_nil in Hin. }
  apply findTopic_found in Hfind as [[Hin Hc]|(-> & -> & Hnone)].
  - rewrite Horder in Hin. split; [|done].
    split; [by exists key, url|]. intros _. by apply (Hurls key).
  - split; [|done]. split; [done|].
    intros (k & u & Hin & Hc). rewrite <- Horder in Hin.
    by rewrite (Hnone k u Hin) in Hc.
Qed.

Lemma analisis_topic_found_iff_witness :
  ((findTopic (reverse rssTopicsEntries) "berita forex hari ini").1 ≠ ""
   ↔ ∃ key url, (key, url) ∈ rssTopicsEntries
                ∧ Contains "berita forex hari ini" key = true)
  ∧ ((findTopic (reverse rssTopicsEntries) "berita forex hari ini").1 ≠ "" →
     ((findTopic (reverse rssTopicsEntries) "berita forex hari ini").2,
      (findTopic (reverse rssTopicsEntries) "berita forex hari ini").1)
       ∈ rssTopicsEntries
     ∧ Contains "berita forex hari ini"
         (findTopic (reverse rssTopicsEntries) "berita forex hari ini").2 = true).
Proof. apply analisis_topic_found_iff. apply reverse_Permutation. Defined.


(** * Triggers that fold with their lower case *)

(** X24. The triggers of every scope stay unique, case ignored, under
    [addAutoReply] for a trigger that equals its own lower case when case
    is ignored, under [removeAutoReply] and under the message handler; and
    every ASCII trigger equals its own lower case when case is ignored. *)
Theorem unique_triggers_kept {T : Unicode.Tables} :
  (∀ (env : Env) (trigger response authorID guildID : string) (w : World),
     EqualFold (ToLower trigger) trigger = true →
     store_unique (serverAutoReplies w) →
     store_unique
       (serverAutoReplies (addAutoReply env trigger response authorID guildID w).2))
  ∧ (∀ (env : Env) (trigger authorID guildID : string) (w : World),
       store_unique (serverAutoReplies w) →
       store_unique
         (serverAutoReplies (removeAutoReply env trigger authorID guildID w).2))
  ∧ (∀ (env : Env) (m : MessageCreate) (w : World),
       store_unique (serverAutoReplies w) →
       store_unique (serverAutoReplies (messageCreate env m w)))
  ∧ (∀ trigger : string,
       isASCII trigger = true → EqualFold (ToLower trigger) trigger = true).
Proof.
  split_and!.
  - intros. by apply store_unique_add.
  - intros. by apply store_unique_remove.
  - intros env m w. by rewrite serverAutoReplies_messageCreate.
  - apply EqualFold_ToLower_ascii.
Qed.

Lemma unique_triggers_kept_witness :
  store_unique
    (serverAutoReplies (addAutoReply quietEnv "Bye" "later" "U1" "S1" emptyWorld).2)
  ∧ store_unique
      (serverAutoReplies (removeAutoReply quietEnv "Bye" "U1" "S1" emptyWorld).2)
  ∧ EqualFold (ToLower "Bye") "Bye" = true.
Proof.
  destruct (unique_triggers_kept (T := sampleTables))
    as (Hadd & Hremove & _ & Hascii).
  assert (store_unique (serverAutoReplies emptyWorld)) as Hempty.
  { intros guildID replies Hlookup. unfold emptyWorld in Hlookup.
    cbn [serverAutoReplies] in Hlookup. by rewrite lookup_empty in Hlookup. }
  split_and!.
  - apply Hadd; [reflexivity|exact Hempty].
  - apply Hremove. exact Hempty.
  - apply Hascii. reflexivity.
Defined.

(** X25. For a trigger that equals its own lower case when case is ignored,
    calling [addAutoReply] twice in succession with the same trigger,
    response and author leaves exactly the rule store of the first call:
    when the first call succeeded, the second finds the trigger, overwrites
    the response and the author in place and reports an update; it appends
    nothing. When the first call was refused, so is the second. *)
Theorem add_again_updates {T : Unicode.Tables} :
  ∀ (env env' : Env) (trigger response authorID guildID : string) (w : World),
    EqualFold (ToLower trigger) trigger = true →
    let first := addAutoReply env trigger response authorID guildID w in
    let second := addAutoReply env' trigger response authorID guildID first.2 in
    serverAutoReplies second.2 = serverAutoReplies first.2 ∧
    second.1 = if first.1.1.1
               then (true, "Auto-reply updated successfully!", "")
               else first.1.
Proof.
  intros env env' trigger response authorID guildID w Hfits.
  destruct (addAutoReply_cases trigger guildID w)
    as [(replies & i & reply & Hidx & Hfind)|Hnone].
  - destruct (notAuthor reply authorID) eqn:Hna.
    + rewrite (addAutoReply_refused _ _ _ _ _ _ _ _ _ Hidx Hfind Hna). simpl.
      by rewrite (addAutoReply_refused _ _ _ _ _ _ _ _ _ Hidx Hfind Hna).
    + rewrite (addAutoReply_updated _ _ _ _ _ _ _ _ _ Hidx Hfind Hna). simpl.
      set (w1 := saveAutoReplies env _).
      assert (index (serverAutoReplies w1) guildID
              = Some (alter (setAuthorID authorID) i
                        (alter (setResponse response) i replies))) as Hidx1.
      { unfold w1. rewrite serverAutoReplies_save. simpl. apply index_insert. }
      assert (findTrigger (alter (setAuthorID authorID) i
                             (alter (setResponse response) i replies)) trigger 0
              = Some (i, setAuthorID authorID (setResponse response reply)))
        as Hfind1.
      { apply (findTrigger_alter _ _ _ 0 i); [done|].
        by apply (findTrigger_alter _ _ _ 0 i). }
      rewrite (addAutoReply_updated _ _ _ _ _ _ _ _ _ Hidx1 Hfind1)
        by by apply notAuthor_self.
      simpl. split; [|done]. rewrite serverAutoReplies_save. simpl.
      unfold w1. rewrite serverAutoReplies_save. simpl.
      rewrite insert_insert_eq. do 2 f_equal.
      rewrite !list_alter_alter_eq. by apply list_alter_ext.
  - rewrite (addAutoReply_created _ _ _ _ _ _ Hnone). simpl.
    set (replies := elems (index (serverAutoReplies w) guildID)) in *.
    set (new := {| Trigger := ToLower trigger; Response := response;
                   AuthorID := authorID |}).
    set (w1 := saveAutoReplies env _).
    assert (index (serverAutoReplies w1) guildID = Some (replies ++ [new]))
      as Hidx1.
    { unfold w1. rewrite serverAutoReplies_save. simpl. apply index_insert. }
    assert (findTrigger (replies ++ [new]) trigger 0
            = Some (length replies, new)) as Hfind1.
    { rewrite findTrigger_app by done. simpl. by rewrite Hfits. }
    rewrite (addAutoReply_updated _ _ _ _ _ _ _ _ _ Hidx1 Hfind1)
      by by apply notAuthor_self.
    simpl. split; [|done]. rewrite serverAutoReplies_save. simpl.
    unfold w1. rewrite serverAutoReplies_save. simpl.
    rewrite insert_insert_eq. do 2 f_equal.
    rewrite !list_alter_alter_eq.
    rewrite <- (Nat.add_0_r (length replies)), alter_app_r. done.
Qed.

Lemma add_again_updates_witness :
  let first := addAutoReply quietEnv "Hello" "hi" "U1" "S1" byeWorld in
  let second := addAutoReply quietEnv "Hello" "hi" "U1" "S1" first.2 in
  serverAutoReplies second.2 = serverAutoReplies first.2 ∧
  second.1 = if first.1.1.1
             then (true, "Auto-reply updated successfully!", "")
             else first.1.
Proof.
  apply (add_again_updates quietEnv quietEnv "Hello" "hi" "U1" "S1" byeWorld).
  reflexivity.
Defined.

